(** * RichConsole: nested text styles rendered to ANSI SGR control codes

    A shallow embedding of [RichConsole.py]: control code sequences, styles,
    style groups and the global catalog [groups], sheets (the styles active at
    one moment), the tree of rich strings and the pipeline that turns the tree
    into a string: [dfs] / [sheetRepr] (flattening), [optimizeSheetsToCodes]
    (diffs between consecutive sheets), [mergeAdjacentCodes] and [__str__].

    Conventions of the embedding.
    - A Python [int] is a [Z]; a tuple of ints is a [list Z]; a [str] is a
      [string].
    - A Python [dict] keeps insertion order, and the order of [values()] is
      what the renderer emits, so a dict (the [__dict__] behind [Storage],
      [StyleGroup] and [Sheet]) is an association list with the dict's own
      operations: lookup, assignment in place or at the end, [update].
    - A [StyleGroup] object is referred to by its name: the catalog and
      [neutralGroup] carry pairwise different names, so the identity test
      [a.group is b.group] is equality of names, and [None] is [None].
    - A generator is the list of what it yields.
    - An exception is a value of [exn]; code that can raise returns a
      [result].

    Part I is the program with sheets as values.  Part II holds the
    definitions that the statements need and that follow the specification
    rather than the code: the diff per category, the leaves of a tree, the
    escape sequence pattern and its removal, the effect of a string on a
    terminal, token sequences with their runs merged.  Part III is the
    program once more, over a store of mutable sheet objects.  Part IV
    proves the properties, claim by claim, and relates Part III to
    Part I. *)

From Stdlib Require Import ZArith List String Ascii Bool Lia.
From Stdlib Require Import DecimalString DecimalPos.
Import ListNotations.

Local Open Scope string_scope.
Local Open Scope list_scope.
Local Open Scope Z_scope.

(* ================================================================== *)
(** * Part I: the program                                              *)
(* ================================================================== *)

(** ** Exceptions *)

Inductive exn : Type :=
| TypeError
| AttributeError.

Inductive result (A : Type) : Type :=
| Ok (a : A)
| Raise (e : exn).

Arguments Ok {A} a.
Arguments Raise {A} e.

Definition bind {A B : Type} (r : result A) (k : A -> result B) : result B :=
  match r with
  | Ok a => k a
  | Raise e => Raise e
  end.

Notation "x <- r ;; k" := (bind r (fun x => k))
  (at level 61, r at next level, right associativity).

(** ** Strings of the builtins *)

(** The escape character, [\x1b]. *)
Definition ESC : ascii := "027"%char.

(** [str(n)] for an int: decimal digits, a leading minus sign when
    negative. *)
Definition str_int (n : Z) : string := NilZero.string_of_int (Z.to_int n).

(** [sep.join(parts)]. *)
Definition join (sep : string) (parts : list string) : string :=
  String.concat sep parts.

(** ** ControlCodes and Style *)

(** A reference to a [StyleGroup] object, or [None]. *)
Definition GroupRef : Type := option string.

Definition GroupRef_is (a b : GroupRef) : bool :=
  match a, b with
  | None, None => true
  | Some x, Some y => String.eqb x y
  | _, _ => false
  end.

(** [class Style(ControlCodes)]: [name], which may be [None], [codes],
    [group].  The subclasses of [Style] ([Color] and the colours) add no
    field that the renderer reads; their [group] is computed from their
    first code, see [Color_group]. *)
Record Style : Type := mkStyle {
  name : option string;
  codes : list Z;
  group : GroupRef
}.

(** An object whose class is [ControlCodes] or its subclass [Style]
    (what [isinstance(it, ControlCodes)] accepts). *)
Inductive ControlCodes : Type :=
| Codes (cs : list Z)
| AStyle (s : Style).

Definition codes_of (c : ControlCodes) : list Z :=
  match c with
  | Codes cs => cs
  | AStyle s => codes s
  end.

(** Equality of two tuples of ints. *)
Fixpoint tuple_eqb (a b : list Z) : bool :=
  match a, b with
  | [], [] => true
  | x :: a', y :: b' => Z.eqb x y && tuple_eqb a' b'
  | _, _ => false
  end.

(** [ControlCodes.__str__]: the test [if self.codes] holds when the tuple
    is not empty. *)
Definition ControlCodes_str (c : ControlCodes) : string :=
  match codes_of c with
  | [] => ""
  | cs => join "" [String ESC "["; join ";" (map str_int cs); "m"]
  end.

(** [ControlCodes.__eq__]: the codes alone are compared; [!=] is its
    negation. *)
Definition ControlCodes_eq (a b : ControlCodes) : bool :=
  tuple_eqb (codes_of a) (codes_of b).

Definition Style_eq (a b : Style) : bool := tuple_eqb (codes a) (codes b).

(** [ControlCodes.__add__]. *)
Definition ControlCodes_add (a b : ControlCodes) : ControlCodes :=
  Codes (codes_of a ++ codes_of b).

(** [str + str] on names that may be [None]. *)
Definition name_concat (a b : option string) : result string :=
  match a, b with
  | Some x, Some y => Ok (x ++ y)%string
  | _, _ => Raise TypeError
  end.

(** [Style.__add__]: [other.group] does not exist on a plain
    [ControlCodes]; the names are concatenated only on the same-group
    branch. *)
Definition Style_add (self : Style) (other : ControlCodes) : result ControlCodes :=
  match other with
  | Codes _ => Raise AttributeError
  | AStyle o =>
      if GroupRef_is (group self) (group o) then
        l <- name_concat (name self) (Some "&"%string) ;;
        n <- name_concat (Some l) (name o) ;;
        Ok (AStyle (mkStyle (Some n) (codes self ++ codes o) (group self)))
      else
        Ok (Codes (codes self ++ codes o))
  end.

(** [a + b], dispatched on the class of [a]. *)
Definition add (a b : ControlCodes) : result ControlCodes :=
  match a with
  | Codes _ => Ok (ControlCodes_add a b)
  | AStyle s => Style_add s b
  end.

(** ** Storage: a dict in insertion order *)

Section Storage.
Context {V : Type}.

Definition Storage : Type := list (string * V).

(** [self[key]], [None] for a missing key. *)
Fixpoint getitem (d : Storage) (key : string) : option V :=
  match d with
  | [] => None
  | (k, v) :: d' => if String.eqb k key then Some v else getitem d' key
  end.

(** [key in self]. *)
Definition contains (d : Storage) (key : string) : bool :=
  match getitem d key with
  | Some _ => true
  | None => false
  end.

(** [self[key] = val]: an existing key keeps its place, a new one goes
    last. *)
Fixpoint setitem (d : Storage) (key : string) (val : V) : Storage :=
  match d with
  | [] => [(key, val)]
  | (k, v) :: d' =>
      if String.eqb k key then (k, val) :: d' else (k, v) :: setitem d' key val
  end.

(** [self.update(other)]. *)
Definition update (d other : Storage) : Storage :=
  fold_left (fun acc kv => setitem acc (fst kv) (snd kv)) other d.

Definition keys (d : Storage) : list string := map fst d.
Definition values (d : Storage) : list V := map snd d.
End Storage.

Arguments Storage V : clear implicits.

(** ** StyleGroup and the global catalog *)

(** [class StyleGroup(Storage)]: the styles by name, the dedicated style
    [reset], the group's [name]. *)
Record StyleGroup : Type := mkStyleGroup {
  gname : string;
  styles : Storage Style;
  reset : Style
}.

(** [StyleGroup.addStyle]: [self[style.name] = style; style.group = self].
    The attributes of a [Storage] are its items, so the key [reset] is the
    attribute [reset].  The styles added in this file are all named. *)
Definition addStyle (g : StyleGroup) (style : Style) : StyleGroup :=
  let style' := mkStyle (name style) (codes style) (Some (gname g)) in
  match name style with
  | Some n =>
      mkStyleGroup (gname g) (setitem (styles g) n style')
                   (if String.eqb n "reset" then style' else reset g)
  | None => g
  end.

(** [StyleGroup.__init__] with a [reset] style. *)
Definition StyleGroup_init (n : string) (sts : list Style) (r : Style) : StyleGroup :=
  let self := mkStyleGroup n [] (mkStyle (name r) (codes r) (Some n)) in
  let self := fold_left addStyle sts self in
  let self := mkStyleGroup n (styles self) (mkStyle (name r) (codes r) (Some n)) in
  addStyle self r.

(** [Style(name, codes)], not yet in a group. *)
Definition Style_init (n : string) (cs : list Z) : Style := mkStyle (Some n) cs None.

(** [groups]: the global storage of styles, in the order of the dict
    display of the source. *)
Definition groups : Storage StyleGroup :=
  let G n sts r := (n, StyleGroup_init n sts (Style_init "reset" [r])) in
  [ G "Back" [] 49;
    G "Fore" [] 39;
    G "Brightness" [Style_init "bright" [1]; Style_init "dim" [2]] 21;
    G "Decor" [Style_init "italic" [3]; Style_init "fraktur" [20]] 23;
    G "Underline" [Style_init "underline" [4]] 24;
    G "CrossedOut" [Style_init "crossedOut" [9]] 29;
    G "Conceal" [Style_init "conceal" [8]] 28;
    G "Blink" [Style_init "slow" [5]; Style_init "rapid" [6]] 25;
    G "Frame" [Style_init "framed" [51]; Style_init "encircled" [52]] 54;
    G "Overline" [Style_init "overlined" [53]] 55;
    G "Ideogram" [Style_init "singleUnderOrRight" [60];
                  Style_init "doubleUpperOrRight" [61];
                  Style_init "singleOverOrLeft" [62];
                  Style_init "doubleOverOrLeft" [63];
                  Style_init "stress" [64]] 65;
    G "Font" (map (fun i => Style_init ("f" ++ str_int i)%string [11 + i])
                  [0; 1; 2; 3; 4; 5; 6; 7; 8]) 10 ].

(** [Color.splitBasicIndex], [Color.basicIndex], [Color.bg] and the
    property [Color.group] of a colour whose main code is [code]. *)
Definition splitBasicIndex (code : Z) : Z := code mod 30.
Definition Color_bg (code : Z) : bool := 10 <=? splitBasicIndex code.
Definition Color_group (code : Z) : GroupRef :=
  Some (if Color_bg code then "Back" else "Fore")%string.

(** [BasicColor.parse(name, code)]: the colour with the one code [code];
    its group is the one its code computes. *)
Definition BasicColor_parse (n : string) (code : Z) : Style :=
  mkStyle (Some n) [code] (Color_group code).

(** [IndexedColor(name, index, bg)] for an [index] from 0 to 255 (the
    constructor asserts it): the codes start as (30, 5, index), the basic
    index is set to [enchancedColorBasicIndex = 8], and [bg] adds
    [backgroundOffset = 10].  The name may be [None]. *)
Definition IndexedColor (n : option string) (index : Z) (bg : bool) : Style :=
  let code := 30 + 8 + (if bg then 10 else 0) in
  mkStyle n [code; 5; index] (Color_group code).

(** [neutral], after [neutralGroup] has taken it in. *)
Definition neutral : Style := mkStyle (Some "neutral"%string) [] (Some "Neutral"%string).

Definition neutralGroup : StyleGroup :=
  StyleGroup_init "Neutral" [Style_init "neutral" []] (Style_init "neutral" []).

(** ** Sheet *)

(** [class Sheet(Storage)]: group name to the style active in the group. *)
Definition Sheet : Type := Storage Style.

(** [Sheet(None)]: every group of the catalog at its [reset]. *)
Definition Sheet_None : Sheet :=
  fold_left (fun self gr => setitem self (fst gr) (reset (snd gr))) groups [].

(** [Sheet()] and [Sheet({})]: no group at all. *)
Definition Sheet_empty : Sheet := [].

(** [Sheet(new)] for a [Sheet] or a dict [new]: a copy. *)
Definition Sheet_copy (new : Sheet) : Sheet := new.

(** [Sheet(new)] for a [Style]: [{new.group.name: new}]. *)
Definition Sheet_of_Style (new : Style) : result Sheet :=
  match group new with
  | Some g => Ok [(g, new)]
  | None => Raise AttributeError
  end.

(** [neutralSheet = Sheet({name: neutral for name in groups})]. *)
Definition neutralSheet : Sheet :=
  fold_left (fun d gr => setitem d (fst gr) neutral) groups [].

(** The right-hand sides [old[gr] if gr in old else groups[gr].reset]. *)
Definition get_or_reset (sh : Sheet) (gr : string) (g : StyleGroup) : Style :=
  if contains sh gr then
    match getitem sh gr with
    | Some v => v
    | None => reset g
    end
  else reset g.

(** One turn of the loop of [Sheet.diff]. *)
Definition diff_step (old new : Sheet) (patch : Sheet) (gr : string * StyleGroup) : Sheet :=
  let o := get_or_reset old (fst gr) (snd gr) in
  let n := get_or_reset new (fst gr) (snd gr) in
  let n := if Style_eq o neutral && Style_eq n (reset (snd gr)) then neutral else n in
  if negb (Style_eq o n) then setitem patch (fst gr) n else patch.

(** [Sheet.diff]: [self] is the old sheet. *)
Definition diff (self new : Sheet) : Sheet :=
  fold_left (diff_step self new) groups Sheet_empty.

(** [Sheet.__sub__]. *)
Definition Sheet_sub (self other : Sheet) : Sheet := diff other self.

(** [Sheet.__or__] and [Sheet.__add__]. *)
Definition Sheet_or (self other : Sheet) : Sheet := Sheet_copy (update self other).
Definition Sheet_add (self other : Sheet) : Sheet := Sheet_or self other.

(** ** RichStr *)

(** [class RichStr]: [subStrs], each a [str] or a [RichStr], and [sheet]. *)
Inductive RichStr : Type :=
| mkRichStr (subStrs : list SubStr) (sheet : Sheet)
with SubStr : Type :=
| Str (s : string)
| Rich (r : RichStr).

Definition subStrs (r : RichStr) : list SubStr :=
  match r with mkRichStr l _ => l end.
Definition sheet (r : RichStr) : Sheet :=
  match r with mkRichStr _ s => s end.

(** [RichStr(...)] without a sheet: the sheet is [Sheet()]. *)
Definition RichStr_init (args : list SubStr) : RichStr :=
  mkRichStr args Sheet_empty.

(** [RichStr(..., sheet=style)] and [style(...)] ([Style.__call__]). *)
Definition Style_call (st : Style) (args : list SubStr) : result RichStr :=
  sh <- Sheet_of_Style st ;; Ok (mkRichStr args (Sheet_copy sh)).

(** What [dfs] and [sheetRepr] yield: a [Sheet] or a [str]. *)
Inductive SheetTok : Type :=
| TSheet (s : Sheet)
| TStr (s : string).

(** What [optimizeSheetsToCodes] and [mergeAdjacentCodes] yield. *)
Inductive CodeTok : Type :=
| KCodes (c : ControlCodes)
| KStr (s : string).

(** [RichStr.dfs]. *)
Fixpoint dfs (self : RichStr) (sh : Sheet) : list SheetTok :=
  match self with
  | mkRichStr subs own =>
      let sh := Sheet_add (Sheet_copy sh) own in
      flat_map (fun subStr =>
                  match subStr with
                  | Rich r => dfs r sh
                  | Str s => [TSheet sh; TStr s]
                  end) subs
  end.

(** [RichStr.sheetRepr]. *)
Definition sheetRepr (self : RichStr) : list SheetTok :=
  let sh := Sheet_None in
  let buf := dfs self sh in
  buf ++ [TSheet sh].

(** The loop of [optimizeSheetsToCodes], from the point where [buf] is
    what is left to read. *)
Fixpoint optimize_loop (initialState state prevState : Sheet) (buf : list SheetTok)
  : list CodeTok :=
  match buf with
  | [] => map (fun v => KCodes (AStyle v)) (values (Sheet_sub initialState prevState))
  | TSheet it :: buf' => optimize_loop initialState (Sheet_copy it) prevState buf'
  | TStr it :: buf' =>
      map (fun v => KCodes (AStyle v)) (values (Sheet_sub state prevState))
      ++ KStr it :: optimize_loop initialState state (Sheet_copy state) buf'
  end.

(** [optimizeSheetsToCodes]. *)
Definition optimizeSheetsToCodes (buf : list SheetTok) : list CodeTok :=
  let initialState := Sheet_empty in
  let state := Sheet_copy initialState in
  let prevState := Sheet_copy state in
  optimize_loop initialState state prevState buf.

(** What is yielded when [accum] is flushed. *)
Definition flush (accum : option ControlCodes) : list CodeTok :=
  match accum with
  | Some a => [KCodes a]
  | None => []
  end.

(** The loop of [mergeAdjacentCodes]; [accum += it] is [accum = accum + it]
    since neither class has [__iadd__]. *)
Fixpoint merge_loop (accum : option ControlCodes) (buf : list CodeTok)
  : result (list CodeTok) :=
  match buf with
  | [] => Ok (flush accum)
  | KCodes it :: buf' =>
      match accum with
      | None => merge_loop (Some it) buf'
      | Some a => a' <- add a it ;; merge_loop (Some a') buf'
      end
  | KStr it :: buf' =>
      rest <- merge_loop None buf' ;; Ok (flush accum ++ KStr it :: rest)
  end.

(** [mergeAdjacentCodes]. *)
Definition mergeAdjacentCodes (buf : list CodeTok) : result (list CodeTok) :=
  merge_loop None buf.

(** The module-wide toggle. *)
Definition mergeCodes : bool := true.

(** [RichStr.optimizedCodeRepr]. *)
Definition optimizedCodeRepr (self : RichStr) : result (list CodeTok) :=
  let buf := optimizeSheetsToCodes (sheetRepr self) in
  if mergeCodes then mergeAdjacentCodes buf else Ok buf.

(** [str(it)] for a token of the code representation. *)
Definition CodeTok_str (it : CodeTok) : string :=
  match it with
  | KCodes c => ControlCodes_str c
  | KStr s => s
  end.

(** [RichStr.plain]. *)
Definition plain (self : RichStr) : string :=
  join "" (flat_map (fun tok => match tok with TStr s => [s] | TSheet _ => [] end)
                    (sheetRepr self)).

(** [RichStr.__str__]. *)
Definition RichStr_str (self : RichStr) : result string :=
  buf <- optimizedCodeRepr self ;; Ok (join "" (map CodeTok_str buf)).


(** ** More of the program: colours *)

(** [tup[i:]] and [tup[:j]] of Python, for any integers: a negative index
    counts from the end, and indices are cut to the tuple. *)
Definition slice_index (len i : Z) : nat :=
  Z.to_nat (if i <? 0 then Z.max (i + len) 0 else Z.min i len).

Definition slice_from (tup : list Z) (i : Z) : list Z :=
  skipn (slice_index (Z.of_nat (List.length tup)) i) tup.

Definition slice_to (tup : list Z) (j : Z) : list Z :=
  firstn (slice_index (Z.of_nat (List.length tup)) j) tup.

(** [tupleReplace]: [prev = max((pos - 1, 0))], then
    [tup[0:prev] + (new,) + tup[(pos + 1):]]. *)
Definition tupleReplace (tup : list Z) (pos : Z) (new : Z) : list Z :=
  let prev := Z.max (pos - 1) 0 in
  slice_to tup prev ++ [new] ++ slice_from tup (pos + 1).

(** [tup[i]] for an index [i] that is not negative; [None] stands for the
    [IndexError] of an index past the end. *)
Definition tuple_item (tup : list Z) (i : nat) : option Z := nth_error tup i.

(** The property [Color.code] and its setter. *)
Definition Color_code (cs : list Z) : option Z := tuple_item cs 0.

Definition Color_set_code (cs : list Z) (code : Z) : list Z := tupleReplace cs 0 code.

(** The property [Color.basicIndex] and its setter,
    [self.code += -self.basicIndex + basicIndex]. *)
Definition Color_basicIndex (cs : list Z) : option Z :=
  option_map splitBasicIndex (Color_code cs).

Definition Color_set_basicIndex (cs : list Z) (basicIndex : Z) : option (list Z) :=
  match Color_code cs with
  | Some code => Some (Color_set_code cs (code + (- splitBasicIndex code + basicIndex)))
  | None => None
  end.

(** [Color.setNumeric] for a property whose current value is [prev]:
    [self.code += (int(bool(val)) - int(prev)) * magic]. *)
Definition Color_setNumeric (cs : list Z) (prev val : bool) (magic : Z)
  : option (list Z) :=
  match Color_code cs with
  | Some code => Some (Color_set_code cs (code + (Z.b2z val - Z.b2z prev) * magic))
  | None => None
  end.

(** The property [Color.bg], [self.basicIndex >= self.backgroundOffset], and
    its setter. *)
Definition Color_get_bg (cs : list Z) : option bool :=
  option_map Color_bg (Color_code cs).

Definition Color_set_bg (cs : list Z) (bg : bool) : option (list Z) :=
  match Color_get_bg cs with
  | Some prev => Color_setNumeric cs prev bg 10
  | None => None
  end.

(** The property [_BasicColor.intensive],
    [self.code >= intensiveOffset + controlCodesColorRangeOffset], and its
    setter. *)
Definition BasicColor_get_intensive (cs : list Z) : option bool :=
  option_map (fun code => 60 + 30 <=? code) (Color_code cs).

Definition BasicColor_set_intensive (cs : list Z) (val : bool) : option (list Z) :=
  match BasicColor_get_intensive cs with
  | Some prev => Color_setNumeric cs prev val 60
  | None => None
  end.

(** [BasicColor.__init__(name, basicIndex, intensive, bg)]: the codes start
    as [(30,)], then the three setters run in the order of the source. *)
Definition BasicColor_codes (basicIndex : Z) (intensive bg : bool) : option (list Z) :=
  match Color_set_basicIndex [30] basicIndex with
  | Some cs =>
      match Color_set_bg cs bg with
      | Some cs => BasicColor_set_intensive cs intensive
      | None => None
      end
  | None => None
  end.

(** A colour with the codes [cs]: its group is the one its first code
    computes. *)
Definition Color_style (n : option string) (cs : list Z) : option Style :=
  match Color_code cs with
  | Some code => Some (mkStyle n cs (Color_group code))
  | None => None
  end.

Definition BasicColor_init (n : string) (basicIndex : Z) (intensive bg : bool)
  : option Style :=
  match BasicColor_codes basicIndex intensive bg with
  | Some cs => Color_style (Some n) cs
  | None => None
  end.

(** [EnchancedColor.__init__(name, codes)]:
    [self.basicIndex = self.enchancedColorBasicIndex]. *)
Definition EnchancedColor_codes (cs : list Z) : option (list Z) :=
  Color_set_basicIndex cs 8.

(** [IndexedColor.__init__] and [RGBColor.__init__], setter by setter.
    [IndexedColor] first asserts [0 <= index <= 255]; [None] stands for the
    [AssertionError] as well. *)
Definition IndexedColor_codes (index : Z) (bg : bool) : option (list Z) :=
  if (0 <=? index) && (index <=? 255)
  then match EnchancedColor_codes [30; 5; index] with
       | Some cs => Color_set_bg cs bg
       | None => None
       end
  else None.

Definition RGBColor_codes (r g b : Z) (bg : bool) : option (list Z) :=
  match EnchancedColor_codes [30; 2; r; g; b] with
  | Some cs => Color_set_bg cs bg
  | None => None
  end.

(** The properties [typeIndex], [index], [r], [g], [b] and their setters. *)
Definition EnchancedColor_typeIndex (cs : list Z) : option Z := tuple_item cs 1.
Definition IndexedColor_index (cs : list Z) : option Z := tuple_item cs 2.
Definition RGBColor_r (cs : list Z) : option Z := tuple_item cs 2.
Definition RGBColor_g (cs : list Z) : option Z := tuple_item cs 3.
Definition RGBColor_b (cs : list Z) : option Z := tuple_item cs 4.

Definition EnchancedColor_set_typeIndex (cs : list Z) (col : Z) : list Z :=
  tupleReplace cs 1 col.
Definition IndexedColor_set_index (cs : list Z) (index : Z) : list Z :=
  tupleReplace cs 2 index.
Definition RGBColor_set_r (cs : list Z) (col : Z) : list Z := tupleReplace cs 2 col.
Definition RGBColor_set_g (cs : list Z) (col : Z) : list Z := tupleReplace cs 3 col.
Definition RGBColor_set_b (cs : list Z) (col : Z) : list Z := tupleReplace cs 4 col.

(** ** More of the program: hexadecimal colours *)

(** One hexadecimal digit, lower case, as [codecs.encode(..., hex)] writes
    it. *)
Definition hex_digit (n : Z) : ascii :=
  if n <? 10 then ascii_of_nat (48 + Z.to_nat n) else ascii_of_nat (87 + Z.to_nat n).

(** [RGB2CSSHex(r, g, b)]; [bytes((r, g, b))] raises [ValueError] unless
    the three numbers are from 0 to 255: [None]. *)
Definition is_byte (n : Z) : bool := (0 <=? n) && (n <=? 255).

Definition byte_hex (n : Z) : string :=
  String (hex_digit (n / 16)) (String (hex_digit (n mod 16)) "").

Definition RGB2CSSHex (r g b : Z) : option string :=
  if is_byte r && is_byte g && is_byte b
  then Some ("#" ++ byte_hex r ++ byte_hex g ++ byte_hex b)%string
  else None.

(** The two constructors with their names: [RGBColor] takes the
    hexadecimal string for a name that is [None], before anything else, so
    it raises with [RGB2CSSHex]. *)
Definition IndexedColor_init (n : option string) (index : Z) (bg : bool)
  : option Style :=
  match IndexedColor_codes index bg with
  | Some cs => Color_style n cs
  | None => None
  end.

Definition RGBColor_init (n : option string) (r g b : Z) (bg : bool) : option Style :=
  match (match n with Some x => Some x | None => RGB2CSSHex r g b end) with
  | Some nm =>
      match RGBColor_codes r g b bg with
      | Some cs => Color_style (Some nm) cs
      | None => None
      end
  | None => None
  end.

(** The setter of the property [Color.group]: nothing for [None], [bg]
    set for the groups Back and Fore of the catalog, [AssertionError] for
    any other group. *)
Definition Color_set_group (cs : list Z) (g : GroupRef) : option (list Z) :=
  match g with
  | None => Some cs
  | Some n =>
      if String.eqb n "Back" then Color_set_bg cs true
      else if String.eqb n "Fore" then Color_set_bg cs false
      else None
  end.

(** [_BasicColor.toRGB]: component [i] is
    [((self.basicIndex >> i) & 1) * (0xff if self.intensive else 0x77)]. *)
Definition BasicColor_toRGB (cs : list Z) : option (Z * Z * Z) :=
  match Color_basicIndex cs, BasicColor_get_intensive cs with
  | Some basicIndex, Some intensive =>
      let level := if intensive then 255 else 119 in
      Some (Z.land (Z.shiftr basicIndex 0) 1 * level,
            Z.land (Z.shiftr basicIndex 1) 1 * level,
            Z.land (Z.shiftr basicIndex 2) 1 * level)
  | _, _ => None
  end.

(** [_BasicColor.toCSSColor], [_BasicColor.toRGBColor] and, for a basic
    colour, [Color.toCSSProperty]: a dict of one item. *)
Definition BasicColor_toCSSColor (cs : list Z) : option string :=
  match BasicColor_toRGB cs with
  | Some (r, g, b) => RGB2CSSHex r g b
  | None => None
  end.

Definition BasicColor_toRGBColor (n : option string) (cs : list Z) : option Style :=
  match Color_get_bg cs, BasicColor_toRGB cs with
  | Some bg, Some (r, g, b) => RGBColor_init n r g b bg
  | _, _ => None
  end.

Definition BasicColor_toCSSProperty (cs : list Z) : option (list (string * string)) :=
  match Color_get_bg cs, BasicColor_toCSSColor cs with
  | Some bg, Some css => Some [(((if bg then "background-" else "") ++ "color")%string, css)]
  | _, _ => None
  end.

(** [RGBColor.toCSSColor]. *)
Definition RGBColor_toCSSColor (cs : list Z) : option string :=
  match RGBColor_r cs, RGBColor_g cs, RGBColor_b cs with
  | Some r, Some g, Some b => RGB2CSSHex r g b
  | _, _, _ => None
  end.

(** [RGBColor.invert]: [self.__class__(0xff - self.r, 0xff - self.g,
    0xff - self.b)].  The three arguments are positional, and the first
    parameter of the constructor is [name]: the new colour is named by the
    number [0xff - self.r], its components are [0xff - self.g],
    [0xff - self.b] and the default 0, and it is a foreground colour.  The
    codes of the new colour are given; its name is not a string. *)
Definition RGBColor_invert (cs : list Z) : option (list Z) :=
  match RGBColor_r cs, RGBColor_g cs, RGBColor_b cs with
  | Some r, Some g, Some b => RGBColor_codes (255 - g) (255 - b) 0 false
  | _, _, _ => None
  end.

(** ** More of the program: sheets *)

(** [Sheet(new)] for a list of styles:
    [{n.group.name: n for n in new}]. *)
Fixpoint Sheet_of_list_from (acc : Sheet) (new : list Style) : result Sheet :=
  match new with
  | [] => Ok acc
  | n :: new' =>
      match group n with
      | Some g => Sheet_of_list_from (setitem acc g n) new'
      | None => Raise AttributeError
      end
  end.

Definition Sheet_of_list (new : list Style) : result Sheet :=
  d <- Sheet_of_list_from [] new ;; Ok (Sheet_copy d).

(** ** More of the program: rich strings *)

(** [RichStr.__add__] and [RichStr.__radd__]. *)
Definition RichStr_add (self : RichStr) (other : SubStr) : RichStr :=
  RichStr_init [Rich self; other].

Definition RichStr_radd (self : RichStr) (other : SubStr) : RichStr :=
  RichStr_init [other; Rich self].

(** [RichStr.__iadd__] with a string or a rich string, and with a list:
    the node afterwards. *)
Definition RichStr_iadd (self : RichStr) (other : SubStr) : RichStr :=
  mkRichStr (subStrs self ++ [other]) (sheet self).

Definition RichStr_iadd_list (self : RichStr) (other : list SubStr) : RichStr :=
  mkRichStr (subStrs self ++ other) (sheet self).

(** The truth value of a delimiter: a string is true when it is not empty,
    a [RichStr] always. *)
Definition truthy (delim : SubStr) : bool :=
  match delim with
  | Str s => negb (String.eqb s "")
  | Rich _ => true
  end.

(** [interleavedChain(delim, *iters)] as a list.  Without any item,
    [next(iters)] raises [StopIteration] inside the generator, which Python
    (3.7 and later) turns into a [RuntimeError]: [None]. *)
Definition interleavedChain (delim : SubStr) (iters : list SubStr)
  : option (list SubStr) :=
  match iters with
  | [] => None
  | first :: rest => Some (first :: flat_map (fun item => [delim; item]) rest)
  end.

(** [rsjoin(delim, itr)], without a sheet, and [RichStr.join]. *)
Definition rsjoin (delim : SubStr) (itr : list SubStr) : option RichStr :=
  if truthy delim
  then option_map RichStr_init (interleavedChain delim itr)
  else Some (RichStr_init itr).

Definition RichStr_join (self : RichStr) (els : list SubStr) : option RichStr :=
  rsjoin (Rich self) els.

(** [RichStr.optimizedCodeRepr] and [RichStr.__str__] for either value of
    the module-wide toggle [mergeCodes]. *)
Definition optimizedCodeRepr_with (toggle : bool) (self : RichStr)
  : result (list CodeTok) :=
  let buf := optimizeSheetsToCodes (sheetRepr self) in
  if toggle then mergeAdjacentCodes buf else Ok buf.

Definition RichStr_str_with (toggle : bool) (self : RichStr) : result string :=
  buf <- optimizedCodeRepr_with toggle self ;; Ok (join "" (map CodeTok_str buf)).

(** ** More of the program: names

    [under_score2camelCase], for strings of ASCII characters, on which the
    class of word characters of the pattern and the case mappings of Python
    are those of the letters, the digits and the underscore. *)

Definition in_range (lo hi : nat) (c : ascii) : bool :=
  ((lo <=? nat_of_ascii c) && (nat_of_ascii c <=? hi))%nat.

Definition is_alnum (c : ascii) : bool :=
  in_range 65 90 c || in_range 97 122 c || in_range 48 57 c.

(** The class of word characters. *)
Definition is_word (c : ascii) : bool := is_alnum c || Ascii.eqb c "_".

Definition char_upper (c : ascii) : ascii :=
  if in_range 97 122 c then ascii_of_nat (nat_of_ascii c - 32) else c.

Definition char_lower (c : ascii) : ascii :=
  if in_range 65 90 c then ascii_of_nat (nat_of_ascii c + 32) else c.

Fixpoint str_upper (s : string) : string :=
  match s with
  | EmptyString => EmptyString
  | String c s' => String (char_upper c) (str_upper s')
  end.

Fixpoint str_lower (s : string) : string :=
  match s with
  | EmptyString => EmptyString
  | String c s' => String (char_lower c) (str_lower s')
  end.

(** One more character in front of the first token. *)
Definition push_char (c : ascii) (tokens : list string) : list string :=
  match tokens with
  | t :: rest => String c t :: rest
  | [] => [String c EmptyString]
  end.

(** [under_score2camelCaseRx.split(s)] for the pattern of an underscore
    and one word character in a group: the texts between the matches, from
    left to right, each followed by the character of the match. *)
Fixpoint rx_split (s : string) : list string :=
  match s with
  | EmptyString => [EmptyString]
  | String c s' =>
      match s' with
      | String d s'' =>
          if Ascii.eqb c "_" && is_word d
          then EmptyString :: String d EmptyString :: rx_split s''
          else push_char c (rx_split s')
      | EmptyString => push_char c (rx_split s')
      end
  end.

(** The loop of [under_score2camelCase], from the index [i]. *)
Fixpoint camelCase_loop (i : nat) (tokens : list string) : list string :=
  match tokens with
  | [] => []
  | token :: rest =>
      (if (i mod 2 =? 1)%nat then str_upper token else str_lower token)
      :: camelCase_loop (S i) rest
  end.

Definition under_score2camelCase (s : string) : string :=
  join "" (camelCase_loop 0 (rx_split s)).

(** ** More of the program: HTML

    [toCSSProperty] is looked up on the class of each style, which the
    record of a style does not hold: the method is a parameter, a function
    from a style to the dict it returns, or to [None] where it raises (as
    [Color.toCSSColor] does for a class without a colour of its own). *)

Fixpoint all_some (l : list (option string)) : option (list string) :=
  match l with
  | [] => Some []
  | None :: _ => None
  | Some x :: l' =>
      match all_some l' with
      | Some xs => Some (x :: xs)
      | None => None
      end
  end.

Section HTML.
Variable toCSSProperty : Style -> option (Storage string).

(** The loop of [getCSSStyle]: [cssSheet.update(styleItem.toCSSProperty())]
    for every style of the sheet. *)
Fixpoint getCSS_loop (cssSheet : Storage string) (items : list Style)
  : option (Storage string) :=
  match items with
  | [] => Some cssSheet
  | styleItem :: items' =>
      match toCSSProperty styleItem with
      | Some d => getCSS_loop (update cssSheet d) items'
      | None => None
      end
  end.

(** [RichStr.getCSSStyle]. *)
Definition getCSSStyle (self : RichStr) : option string :=
  match getCSS_loop [] (values (sheet self)) with
  | Some cssSheet =>
      Some (join ";" (map (fun styleItem => join ":" [fst styleItem; snd styleItem])
                          cssSheet))
  | None => None
  end.

(** [RichStr.toHTML]: the opening tag with the style of the node, every
    element (a text as it is, a rich string by [toHTML]), the closing
    tag. *)
Fixpoint toHTML (self : RichStr) : option string :=
  match self with
  | mkRichStr subs sh =>
      match getCSSStyle (mkRichStr subs sh) with
      | Some css =>
          match all_some (map (fun el => match el with
                                         | Str s => Some s
                                         | Rich r => toHTML r
                                         end) subs) with
          | Some parts =>
              Some (join "" (("<span style='" ++ css ++ "'>")%string
                               :: parts ++ ["</span>"%string]))
          | None => None
          end
      | None => None
      end
  end.
End HTML.

(* ================================================================== *)
(** * Part II: definitions that follow the specification               *)
(* ================================================================== *)

(** ** The diff of two snapshots, as the specification words it

    For every category of the catalog, in its order: [o] is the old value
    or the category's reset, [n] is the new value or the category's reset;
    [n] becomes neutral when [o] equals neutral and [n] equals the reset;
    the category enters the patch with [n] exactly when [o != n].
    Equality of styles is the equality of the program, [==]. *)

Definition value_or_reset (sh : Sheet) (gr : string) (g : StyleGroup) : Style :=
  match getitem sh gr with
  | Some v => v
  | None => reset g
  end.

Definition normalized_new (old new : Sheet) (gr : string) (g : StyleGroup) : Style :=
  let o := value_or_reset old gr g in
  let n := value_or_reset new gr g in
  if Style_eq o neutral && Style_eq n (reset g) then neutral else n.

Definition category_changed (old new : Sheet) (gr : string) (g : StyleGroup) : bool :=
  negb (Style_eq (value_or_reset old gr g) (normalized_new old new gr g)).

Definition diff_spec (old new : Sheet) : list (string * Style) :=
  flat_map (fun gr =>
              if category_changed old new (fst gr) (snd gr)
              then [(fst gr, normalized_new old new (fst gr) (snd gr))]
              else [])
           groups.

(** ** The flattened sequence, as the specification words it

    Depth first and left to right, every literal text together with the
    snapshot in effect for it: the inherited snapshot layered with the
    snapshots of the nodes on the way down. *)

Fixpoint leaves (t : RichStr) (inherited : Sheet) : list (Sheet * string) :=
  match t with
  | mkRichStr subs own =>
      let effective := Sheet_add inherited own in
      (fix over (l : list SubStr) : list (Sheet * string) :=
         match l with
         | [] => []
         | Str s :: l' => (effective, s) :: over l'
         | Rich r :: l' => leaves r effective ++ over l'
         end) subs
  end.

Definition snapshot_then_text (p : Sheet * string) : list SheetTok :=
  [TSheet (fst p); TStr (snd p)].

(** ** The reference scenario

    [RichStr("DDD", red("RRR", green("GGG"), "rrr"), "ddd")] for a
    foreground style [red] and a background style [green]. *)

Definition reference_tree (red green : Style) : result RichStr :=
  g <- Style_call green [Str "GGG"] ;;
  r <- Style_call red [Str "RRR"; Rich g; Str "rrr"] ;;
  Ok (RichStr_init [Str "DDD"; Rich r; Str "ddd"]).

(** ** Escape sequences in a string

    The pattern ESC [ (digits ;)* digits m of the specification.  After
    ESC [ a match is a nonempty run of digits, then either a semicolon and
    the same again, or the letter m; digits, the semicolon and m exclude one
    another, so from a given position there is at most one match and
    backtracking finds it or fails. *)

Definition is_digit (c : ascii) : bool :=
  let n := nat_of_ascii c in (48 <=? n)%nat && (n <=? 57)%nat.

(** [sgr_tail s cur] reads what follows ESC [ when the digits [cur] of the
    current parameter have been read: the parameters, as digit strings, and
    the number of characters read up to and including the final m. *)
Fixpoint sgr_tail (s : string) (cur : string) : option (list string * nat) :=
  match s with
  | EmptyString => None
  | String c s' =>
      if is_digit c then
        match sgr_tail s' (cur ++ String c "") with
        | Some (ps, n) => Some (ps, S n)
        | None => None
        end
      else if Ascii.eqb c ";" then
        match cur with
        | EmptyString => None
        | _ => match sgr_tail s' "" with
               | Some (ps, n) => Some (cur :: ps, S n)
               | None => None
               end
        end
      else if Ascii.eqb c "m" then
        match cur with
        | EmptyString => None
        | _ => Some ([cur], 1%nat)
        end
      else None
  end.

(** [k] more characters read. *)
Definition bump (k : nat) (r : option (list string * nat)) : option (list string * nat) :=
  match r with
  | Some (ps, n) => Some (ps, (k + n)%nat)
  | None => None
  end.

Fixpoint all_digits (s : string) : bool :=
  match s with
  | EmptyString => true
  | String c s' => is_digit c && all_digits s'
  end.

(** A parameter as [str] prints it: digits, and at least one. *)
Definition digit_string (s : string) : Prop := s <> EmptyString /\ all_digits s = true.

(** A match of the pattern at the very start of [s]: its parameters and
    its length. *)
Definition match_escape (s : string) : option (list string * nat) :=
  match s with
  | String e (String b s') =>
      if Ascii.eqb e ESC && Ascii.eqb b "[" then
        match sgr_tail s' "" with
        | Some (ps, n) => Some (ps, S (S n))
        | None => None
        end
      else None
  | _ => None
  end.

(** [re.sub(pattern, empty, s)]: the string is scanned from the left; at a
    position where the pattern matches, the match is dropped and the scan
    goes on behind it; elsewhere the character is kept.  [skip] counts the
    characters of a match that are still to be dropped. *)
Fixpoint remove_escapes_from (skip : nat) (s : string) : string :=
  match s with
  | EmptyString => EmptyString
  | String c s' =>
      match skip with
      | S k => remove_escapes_from k s'
      | O =>
          match match_escape s with
          | Some (_, n) => remove_escapes_from (Nat.pred n) s'
          | None => String c (remove_escapes_from 0 s')
          end
      end
  end.

Definition remove_escapes (s : string) : string := remove_escapes_from 0 s.

(** ** What a terminal makes of a string

    A terminal applies the parameters of an SGR escape sequence one after
    the other and prints every other character.  Two strings have the same
    terminal effect when they give the same sequence of such events. *)

Inductive TermEvent : Type :=
| Print (c : ascii)
| SetGraphics (param : N).

Definition param_value (digits : string) : N :=
  match NilEmpty.uint_of_string digits with
  | Some u => N.of_uint u
  | None => 0%N
  end.

Fixpoint terminal_from (skip : nat) (s : string) : list TermEvent :=
  match s with
  | EmptyString => []
  | String c s' =>
      match skip with
      | S k => terminal_from k s'
      | O =>
          match match_escape s with
          | Some (ps, n) =>
              map (fun p => SetGraphics (param_value p)) ps
              ++ terminal_from (Nat.pred n) s'
          | None => Print c :: terminal_from 0 s'
          end
      end
  end.

Definition terminal (s : string) : list TermEvent := terminal_from 0 s.

(** ** Token sequences seen as text and codes *)

(** A token without its class: the text, or the integer codes. *)
Inductive Piece : Type :=
| PText (s : string)
| PCodes (cs : list Z).

Definition piece_of (it : CodeTok) : Piece :=
  match it with
  | KStr s => PText s
  | KCodes c => PCodes (codes_of c)
  end.

Definition pieces (buf : list CodeTok) : list Piece := map piece_of buf.

Definition Piece_str (p : Piece) : string :=
  match p with
  | PText s => s
  | PCodes cs => ControlCodes_str (Codes cs)
  end.

Definition render_pieces (l : list Piece) : string := join "" (map Piece_str l).

Definition piece_texts (l : list Piece) : list string :=
  flat_map (fun p => match p with PText s => [s] | PCodes _ => [] end) l.

(** The events of the parameters [cs], once rendered. *)
Definition graphics (cs : list Z) : list TermEvent :=
  map (fun p => SetGraphics (param_value p)) (map str_int cs).

(** Every maximal run of adjacent code pieces becomes one piece with the
    codes of the run in order; texts stay where they are. *)
Fixpoint merge_runs (l : list Piece) : list Piece :=
  match l with
  | [] => []
  | PText s :: l' => PText s :: merge_runs l'
  | PCodes cs :: l' =>
      match merge_runs l' with
      | PCodes cs' :: r => PCodes (cs ++ cs') :: r
      | r => PCodes cs :: r
      end
  end.

Fixpoint no_adjacent_codes (l : list Piece) : Prop :=
  match l with
  | [] => True
  | x :: l' =>
      match x, l' with
      | PCodes _, PCodes _ :: _ => False
      | _, _ => no_adjacent_codes l'
      end
  end.

(** The texts of a token sequence, in order. *)
Definition texts (buf : list CodeTok) : list string :=
  flat_map (fun it => match it with KStr s => [s] | KCodes _ => [] end) buf.

(** The string a token sequence renders to, as [__str__] joins it. *)
Definition render (buf : list CodeTok) : string := join "" (map CodeTok_str buf).

(** ** Conditions on the input *)

Fixpoint no_escape (s : string) : bool :=
  match s with
  | EmptyString => true
  | String c s' => negb (Ascii.eqb c ESC) && no_escape s'
  end.

Definition nonneg (cs : list Z) : bool := forallb (fun c => 0 <=? c) cs.

Definition named (s : Style) : bool :=
  match name s with
  | Some _ => true
  | None => false
  end.

(** A token whose codes, if it has any, are not negative. *)
Definition nonneg_token (it : CodeTok) : bool :=
  match it with
  | KStr _ => true
  | KCodes c => nonneg (codes_of c)
  end.

Definition nonneg_piece (p : Piece) : bool :=
  match p with
  | PText _ => true
  | PCodes cs => nonneg cs
  end.

(** A text without the escape character, or codes that are not negative. *)
Definition clean_piece (p : Piece) : bool :=
  match p with
  | PText s => no_escape s
  | PCodes cs => nonneg cs
  end.

(** A code token that is a named style, as the renderer produces them. *)
Definition named_style_token (it : CodeTok) : bool :=
  match it with
  | KStr _ => true
  | KCodes (AStyle s) => named s
  | KCodes (Codes _) => false
  end.

(** A code token of the base class. *)
Definition plain_codes_token (it : CodeTok) : bool :=
  match it with
  | KStr _ => true
  | KCodes (AStyle _) => false
  | KCodes (Codes _) => true
  end.

(** A condition on every style of a sheet, on every sheet and text of a
    tree, on every token of a sequence. *)
Definition sheet_forall (P : Style -> bool) (sh : Sheet) : bool :=
  forallb (fun kv => P (snd kv)) sh.

Fixpoint tree_forall (PS : Sheet -> bool) (PT : string -> bool) (t : RichStr) : bool :=
  match t with
  | mkRichStr subs own =>
      PS own
      && forallb (fun c => match c with
                           | Str s => PT s
                           | Rich r => tree_forall PS PT r
                           end) subs
  end.

Definition sheettok_forall (PS : Sheet -> bool) (PT : string -> bool) (tok : SheetTok)
  : bool :=
  match tok with
  | TSheet sh => PS sh
  | TStr s => PT s
  end.

Definition styletok_forall (P : Style -> bool) (PT : string -> bool) (it : CodeTok)
  : bool :=
  match it with
  | KStr s => PT s
  | KCodes (AStyle s) => P s
  | KCodes (Codes _) => false
  end.

Definition nonneg_style (s : Style) : bool := nonneg (codes s).

(** The texts of the tree are free of the escape character and the codes
    of its styles are not negative. *)
Definition clean_tree (t : RichStr) : bool :=
  tree_forall (sheet_forall nonneg_style) no_escape t.

(** Every style of the tree has a name. *)
Definition named_tree (t : RichStr) : bool :=
  tree_forall (sheet_forall named) (fun _ => true) t.

(** The texts of a flattened sequence, in order, as [plain] selects them. *)
Definition sheet_texts (buf : list SheetTok) : list string :=
  flat_map (fun tok => match tok with TStr s => [s] | TSheet _ => [] end) buf.

(** ** Further definitions for the statements *)

(** The main code of a basic colour: the formula of the docstring. *)
Definition basic_code (basicIndex : Z) (intensive bg : bool) : Z :=
  30 + basicIndex + (if bg then 10 else 0) + (if intensive then 60 else 0).

(** Reading a hexadecimal colour back: the value of a digit, of two digits,
    and the three components of a string made of a number sign and six
    digits. *)
Definition hex_value (c : ascii) : Z :=
  let n := Z.of_nat (nat_of_ascii c) in
  if n <? 58 then n - 48 else n - 87.

Definition CSSHex_components (s : string) : option (Z * Z * Z) :=
  match s with
  | String "#" (String r1 (String r0 (String g1 (String g0 (String b1 (String b0 "")))))) =>
      Some (16 * hex_value r1 + hex_value r0,
            16 * hex_value g1 + hex_value g0,
            16 * hex_value b1 + hex_value b0)
  | _ => None
  end.

Definition is_hex_digit (c : ascii) : bool :=
  is_digit c || ((97 <=? nat_of_ascii c)%nat && (nat_of_ascii c <=? 102)%nat).

(** A style that has codes, unlike neutral. *)
Definition has_codes (s : Style) : bool := negb (Style_eq s neutral).

(** The last style of the group [g] in a list of styles. *)
Definition last_of_group (l : list Style) (g : string) : option Style :=
  find (fun n => GroupRef_is (group n) (Some g)) (rev l).

(** The patches that [optimizeSheetsToCodes] computes, one before every
    text and one at the end, in order. *)
Fixpoint emitted_patches (initialState state prevState : Sheet) (buf : list SheetTok)
  : list Sheet :=
  match buf with
  | [] => [Sheet_sub initialState prevState]
  | TSheet it :: buf' => emitted_patches initialState (Sheet_copy it) prevState buf'
  | TStr _ :: buf' =>
      Sheet_sub state prevState
      :: emitted_patches initialState state (Sheet_copy state) buf'
  end.

(** The control code tokens of a sequence, in order. *)
Definition code_tokens (buf : list CodeTok) : list CodeTok :=
  filter (fun it => match it with KCodes _ => true | KStr _ => false end) buf.

(** Two sheets that hold, up to [==], the same style for every category of
    the catalog, a missing category counting as its reset. *)
Definition same_on_catalog (a b : Sheet) : Prop :=
  Forall (fun gr => Style_eq (value_or_reset a (fst gr) (snd gr))
                             (value_or_reset b (fst gr) (snd gr)) = true) groups.

(** A sheet that holds a style with codes, or nothing, and so its reset,
    for every category of the catalog. *)
Definition coded_on_catalog (sh : Sheet) : Prop :=
  Forall (fun gr => has_codes (value_or_reset sh (fst gr) (snd gr)) = true) groups.

Definition patch_values (patch : Sheet) : list CodeTok :=
  map (fun v => KCodes (AStyle v)) (values patch).

(** What [optimizeSheetsToCodes] computes before it takes the values of the
    patches: a patch before every text and one at the end. *)
Fixpoint patch_stream (initialState state prevState : Sheet) (buf : list SheetTok)
  : list SheetTok :=
  match buf with
  | [] => [TSheet (Sheet_sub initialState prevState)]
  | TSheet it :: buf' => patch_stream initialState (Sheet_copy it) prevState buf'
  | TStr it :: buf' =>
      TSheet (Sheet_sub state prevState)
      :: TStr it :: patch_stream initialState state (Sheet_copy state) buf'
  end.

Definition stream_tokens (tok : SheetTok) : list CodeTok :=
  match tok with
  | TSheet patch => patch_values patch
  | TStr s => [KStr s]
  end.

(** Replaying a stream of patches and texts from the sheet [R]: every patch
    is layered over what is in effect; the result is what is in effect at
    each text, and at the end. *)
Fixpoint replay (R : Sheet) (stream : list SheetTok) : list (Sheet * string) * Sheet :=
  match stream with
  | [] => ([], R)
  | TSheet patch :: rest => replay (Sheet_or R patch) rest
  | TStr s :: rest => let (l, final) := replay R rest in ((R, s) :: l, final)
  end.

(** The value of [state] in [optimizeSheetsToCodes] at each text. *)
Fixpoint in_effect (state : Sheet) (buf : list SheetTok) : list (Sheet * string) :=
  match buf with
  | [] => []
  | TSheet it :: buf' => in_effect (Sheet_copy it) buf'
  | TStr s :: buf' => (state, s) :: in_effect state buf'
  end.

Definition same_leaf (a b : Sheet * string) : Prop :=
  same_on_catalog (fst a) (fst b) /\ snd a = snd b.

(** No style of the tree is without codes. *)
Definition coded_tree (t : RichStr) : bool :=
  tree_forall (sheet_forall has_codes) (fun _ => true) t.

(** The texts of a tree, from left to right, and the plain text of one
    element of a node. *)
Fixpoint text_list (t : RichStr) : list string :=
  match t with
  | mkRichStr subs _ =>
      flat_map (fun c => match c with
                         | Str s => [s]
                         | Rich r => text_list r
                         end) subs
  end.

Definition SubStr_plain (c : SubStr) : string :=
  match c with
  | Str s => s
  | Rich r => plain r
  end.

(** A tree none of whose nodes has a style. *)
Definition unstyled (t : RichStr) : bool :=
  tree_forall (fun sh => match sh with [] => true | _ => false end) (fun _ => true) t.

(** Bit [i] of a number, as 0 or 1. *)
Definition bit (n : Z) (i : Z) : Z := Z.b2z (Z.testbit n i).

(** A word with its first character in upper case and the others in lower
    case, and a string of letters and digits. *)
Definition capitalize (w : string) : string :=
  match w with
  | EmptyString => EmptyString
  | String c w' => String (char_upper c) (str_lower w')
  end.

Definition alnum_string (w : string) : bool :=
  forallb is_alnum (list_ascii_of_string w).

Definition alnum_word (w : string) : bool :=
  negb (String.eqb w "") && alnum_string w.

(** A string without the character [c], and a string with every tag, from
    a less-than sign to the next greater-than sign, removed. *)
Definition no_char (c : ascii) (s : string) : bool :=
  forallb (fun x => negb (Ascii.eqb x c)) (list_ascii_of_string s).

Fixpoint strip_tags_from (inside : bool) (s : string) : string :=
  match s with
  | EmptyString => EmptyString
  | String c s' =>
      if inside
      then strip_tags_from (negb (Ascii.eqb c ">")) s'
      else if Ascii.eqb c "<" then strip_tags_from true s'
           else String c (strip_tags_from false s')
  end.

Definition strip_tags (s : string) : string := strip_tags_from false s.

Definition has_css (toCSSProperty : Style -> option (Storage string)) (st : Style)
  : bool :=
  match toCSSProperty st with Some _ => true | None => false end.

Definition css_free_of (c : ascii) (d : Storage string) : bool :=
  forallb (fun kv => no_char c (fst kv) && no_char c (snd kv)) d.

(* ================================================================== *)
(** * Part III: the program over a store of mutable sheets             *)
(* ================================================================== *)

(** The definitions above treat a [Sheet] as a value.  In the program a
    [Sheet] is a mutable object, shared by reference: a node's [sheet] is
    handed to [dfs] of its children, the sheet that [dfs] builds is yielded
    once per text, and [Sheet.diff] fills its patch by assignment.  This
    module embeds the same functions over a store of dicts: every sheet
    that is constructed, and the dict [tdic] that [__or__] fills, is a new
    object of the store, and every assignment is a write to the object
    assigned to, so that what rendering does to the sheets that exist
    before it can be stated.  A node is still given as a tree, whose [sheet] is the address
    of the node's [Sheet] object; a child shared by two parents is the same
    subtree with the same address.  Styles are not modified by any of these
    functions and stay values.  The generators are run to their end one
    after the other, as [list(...)] and [join] do. *)

Module Heap.

Definition addr : Type := nat.

(** The store: the [__dict__] of every object, by address. *)
Definition heap : Type := list Sheet.

Definition read (h : heap) (a : addr) : Sheet := nth a h [].

Fixpoint write (h : heap) (a : addr) (d : Sheet) : heap :=
  match h, a with
  | [], _ => []
  | _ :: h', O => d :: h'
  | x :: h', S a' => x :: write h' a' d
  end.

(** A new object with the dict [d]. *)
Definition alloc (d : Sheet) (h : heap) : addr * heap := (List.length h, h ++ [d]).

(** [obj[key] = val]. *)
Definition setitem_at (a : addr) (key : string) (val : Style) (h : heap) : heap :=
  write h a (setitem (read h a) key val).

(** [obj.update(other)]. *)
Definition update_at (a other : addr) (h : heap) : heap :=
  write h a (update (read h a) (read h other)).

(** [Sheet()], [Sheet({})]. *)
Definition Sheet_empty (h : heap) : addr * heap := alloc [] h.

(** [Sheet(None)]: a new sheet, then [self[gr] = groups[gr].reset] for
    every group. *)
Definition Sheet_None (h : heap) : addr * heap :=
  let (self, h) := alloc [] h in
  (self, fold_left (fun h gr => setitem_at self (fst gr) (reset (snd gr)) h) groups h).

(** [Sheet(new)] for a sheet or a dict [new]: a new object with a copy of
    the dict of [new]. *)
Definition Sheet_copy (new : addr) (h : heap) : addr * heap := alloc (read h new) h.

(** [Sheet.__or__]: [tdic] is a new dict, updated in place, and the result
    is a new sheet made from it. *)
Definition Sheet_or (self other : addr) (h : heap) : addr * heap :=
  let (tdic, h) := alloc (read h self) h in
  let h := update_at tdic other h in
  Sheet_copy tdic h.

Definition Sheet_add (self other : addr) (h : heap) : addr * heap :=
  Sheet_or self other h.

(** One turn of the loop of [Sheet.diff]: [patch[gr] = n] is an
    assignment to the object [patch]. *)
Definition diff_step (old new patch : addr) (h : heap) (gr : string * StyleGroup) : heap :=
  let o := get_or_reset (read h old) (fst gr) (snd gr) in
  let n := get_or_reset (read h new) (fst gr) (snd gr) in
  let n := if Style_eq o neutral && Style_eq n (reset (snd gr)) then neutral else n in
  if negb (Style_eq o n) then setitem_at patch (fst gr) n h else h.

(** [Sheet.diff]. *)
Definition diff (self new : addr) (h : heap) : addr * heap :=
  let (patch, h) := Sheet_empty h in
  (patch, fold_left (diff_step self new patch) groups h).

(** [Sheet.__sub__]. *)
Definition Sheet_sub (self other : addr) (h : heap) : addr * heap := diff other self h.

(** A node: its children and the address of its [Sheet]. *)
Inductive RichStr : Type :=
| mkRichStr (subStrs : list SubStr) (sheet : addr)
with SubStr : Type :=
| Str (s : string)
| Rich (r : RichStr).

(** What [dfs] yields: a reference to a sheet, or a text. *)
Inductive SheetTok : Type :=
| TSheet (a : addr)
| TStr (s : string).

(** [RichStr.dfs]. *)
Fixpoint dfs (self : RichStr) (sh : addr) (h : heap) : list SheetTok * heap :=
  match self with
  | mkRichStr subs own =>
      let (c, h) := Sheet_copy sh h in
      let (sh, h) := Sheet_add c own h in
      (fix loop (subs : list SubStr) (h : heap) : list SheetTok * heap :=
         match subs with
         | [] => ([], h)
         | Str s :: subs' =>
             let (rest, h) := loop subs' h in
             (TSheet sh :: TStr s :: rest, h)
         | Rich r :: subs' =>
             let (yielded, h) := dfs r sh h in
             let (rest, h) := loop subs' h in
             (yielded ++ rest, h)
         end) subs h
  end.

(** [RichStr.sheetRepr]. *)
Definition sheetRepr (self : RichStr) (h : heap) : list SheetTok * heap :=
  let (sh, h) := Sheet_None h in
  let (buf, h) := dfs self sh h in
  (buf ++ [TSheet sh], h).

(** The values of a patch, as tokens. *)
Definition patch_tokens (patch : addr) (h : heap) : list CodeTok :=
  map (fun v => KCodes (AStyle v)) (values (read h patch)).

(** The loop of [optimizeSheetsToCodes]. *)
Fixpoint optimize_loop (initialState state prevState : addr) (buf : list SheetTok)
         (h : heap) : list CodeTok * heap :=
  match buf with
  | [] =>
      let (patch, h) := Sheet_sub initialState prevState h in
      (patch_tokens patch h, h)
  | TSheet it :: buf' =>
      let (state, h) := Sheet_copy it h in
      optimize_loop initialState state prevState buf' h
  | TStr it :: buf' =>
      let (patch, h) := Sheet_sub state prevState h in
      let yielded := patch_tokens patch h in
      let (prevState, h) := Sheet_copy state h in
      let (rest, h) := optimize_loop initialState state prevState buf' h in
      (yielded ++ KStr it :: rest, h)
  end.

(** [optimizeSheetsToCodes]. *)
Definition optimizeSheetsToCodes (buf : list SheetTok) (h : heap) : list CodeTok * heap :=
  let (initialState, h) := Sheet_empty h in
  let (state, h) := Sheet_copy initialState h in
  let (prevState, h) := Sheet_copy state h in
  optimize_loop initialState state prevState buf h.

(** [RichStr.optimizedCodeRepr]; the tokens are values, and merging them
    touches no sheet. *)
Definition optimizedCodeRepr (self : RichStr) (h : heap)
  : result (list CodeTok) * heap :=
  let (flat, h) := sheetRepr self h in
  let (buf, h) := optimizeSheetsToCodes flat h in
  (if mergeCodes then mergeAdjacentCodes buf else Ok buf, h).

(** [RichStr.__str__]. *)
Definition RichStr_str (self : RichStr) (h : heap) : result string * heap :=
  let (r, h) := optimizedCodeRepr self h in
  (buf <- r ;; Ok (join "" (map CodeTok_str buf)), h).

(** [[str(rs) for rs in order]]: the renderings one after the other, on the
    store as the one before left it. *)
Fixpoint str_each (order : list RichStr) (h : heap) : list (result string) * heap :=
  match order with
  | [] => ([], h)
  | rs :: order' =>
      let (s, h) := RichStr_str rs h in
      let (rest, h) := str_each order' h in
      (s :: rest, h)
  end.

End Heap.

(** ** From the store back to values *)

(** The tree of values that a tree of nodes stands for in a store. *)
Fixpoint value_of (h : Heap.heap) (t : Heap.RichStr) : RichStr :=
  match t with
  | Heap.mkRichStr subs a =>
      mkRichStr (map (fun c => match c with
                               | Heap.Str s => Str s
                               | Heap.Rich r => Rich (value_of h r)
                               end) subs)
                (Heap.read h a)
  end.

Definition token_value (h : Heap.heap) (tok : Heap.SheetTok) : SheetTok :=
  match tok with
  | Heap.TSheet a => TSheet (Heap.read h a)
  | Heap.TStr s => TStr s
  end.

(** The sheets of the nodes of a tree exist in a store of [n] objects. *)
Fixpoint allocated (n : nat) (t : Heap.RichStr) : bool :=
  match t with
  | Heap.mkRichStr subs a =>
      (a <? n)%nat
      && forallb (fun c => match c with
                           | Heap.Str _ => true
                           | Heap.Rich r => allocated n r
                           end) subs
  end.

Definition token_allocated (n : nat) (tok : Heap.SheetTok) : bool :=
  match tok with
  | Heap.TSheet a => (a <? n)%nat
  | Heap.TStr _ => true
  end.

(** ** The chain of four nodes of the side-effect test

    [RichStr("GGG", sheet=green)], [RichStr("CCC", sheet=cyan)],
    [RichStr("RRR", order[0], "rrr", order[1], "RRR", sheet=red)] and
    [RichStr("DDD", order[2], "ddd")], with the four sheets that the
    constructors made at the addresses 0 to 3. *)

Definition chain_heap : Heap.heap :=
  [ [("Back"%string, BasicColor_parse "lightgreenEx" 102)];
    [("Fore"%string, BasicColor_parse "cyan" 36)];
    [("Fore"%string, BasicColor_parse "red" 31)];
    [] ].

Definition chain : list Heap.RichStr :=
  let n0 := Heap.mkRichStr [Heap.Str "GGG"] 0%nat in
  let n1 := Heap.mkRichStr [Heap.Str "CCC"] 1%nat in
  let n2 := Heap.mkRichStr [Heap.Str "RRR"; Heap.Rich n0; Heap.Str "rrr";
                            Heap.Rich n1; Heap.Str "RRR"] 2%nat in
  let n3 := Heap.mkRichStr [Heap.Str "DDD"; Heap.Rich n2; Heap.Str "ddd"] 3%nat in
  [n0; n1; n2; n3].

(** A store that has only grown: the objects of [h] are in [h'], unchanged,
    at their addresses. *)
Definition extends (h h' : Heap.heap) : Prop := exists new, h' = h ++ new.

(** [order[pos]]; the positions used are positions of the list. *)
Definition at_pos (order : list Heap.RichStr) (pos : nat) : Heap.RichStr :=
  nth pos order (Heap.mkRichStr [] 0%nat).

(** [reference[pos]]. *)
Definition string_at (reference : list (result string)) (pos : nat) : result string :=
  nth pos reference (Ok ""%string).

(** The orders in which four things can be taken. *)
Fixpoint insert_everywhere (x : nat) (l : list nat) : list (list nat) :=
  match l with
  | [] => [[x]]
  | y :: l' => (x :: l) :: map (cons y) (insert_everywhere x l')
  end.

Fixpoint permutations (l : list nat) : list (list nat) :=
  match l with
  | [] => [[]]
  | x :: l' => flat_map (insert_everywhere x) (permutations l')
  end.

(** The result of one render after the other equals, position by
    position, an expected list. *)
Fixpoint same_strings (a b : list (result string)) : bool :=
  match a, b with
  | [], [] => true
  | Ok x :: a', Ok y :: b' => String.eqb x y && same_strings a' b'
  | _, _ => false
  end.

(** ** More of the program over the store: updates in place *)

Module InPlace.

(** [Sheet.__ior__]: [self.__dict__.update(other.__dict__)], and nothing is
    returned: the call evaluates to [None]. *)
Definition Sheet_ior (self other : Heap.addr) (h : Heap.heap)
  : option Heap.addr * Heap.heap :=
  (None, Heap.update_at self other h).

(** [Sheet.__iadd__]: [self |= other] binds the local name [self] to what
    [__ior__] returned, and [return self] returns that. *)
Definition Sheet_iadd (self other : Heap.addr) (h : Heap.heap)
  : option Heap.addr * Heap.heap :=
  let (self, h) := Sheet_ior self other h in
  (self, h).

(** [RichStr(..., sheet=sheet)] for a sheet, and without one:
    [Sheet(sheet)] is a new object with a copy of the dict. *)
Definition RichStr_init (args : list Heap.SubStr) (sheet : option Heap.addr)
           (h : Heap.heap) : Heap.RichStr * Heap.heap :=
  let (a, h) := match sheet with
                | Some s => Heap.Sheet_copy s h
                | None => Heap.Sheet_empty h
                end in
  (Heap.mkRichStr args a, h).

End InPlace.

(* ================================================================== *)
(** * Part IV: properties                                              *)
(* ================================================================== *)

(** ** Tuples, group references, results *)

Lemma tuple_eqb_spec (a b : list Z) : reflect (a = b) (tuple_eqb a b).
Proof.
  revert b; induction a as [|x a IH]; intros [|y b]; simpl;
    try (constructor; congruence).
  destruct (Z.eqb_spec x y) as [->|Hxy]; simpl.
  - destruct (IH b) as [->|Hab]; constructor; congruence.
  - constructor; congruence.
Qed.

Lemma tuple_eqb_refl (a : list Z) : tuple_eqb a a = true.
Proof. destruct (tuple_eqb_spec a a); congruence. Qed.

Lemma tuple_eqb_cons_nil (x : Z) (a : list Z) : tuple_eqb (x :: a) [] = false.
Proof. reflexivity. Qed.

Lemma tuple_eqb_sym (a b : list Z) : tuple_eqb a b = tuple_eqb b a.
Proof. destruct (tuple_eqb_spec a b), (tuple_eqb_spec b a); congruence. Qed.

Lemma tuple_eqb_neq (a b : list Z) : a <> b -> tuple_eqb a b = false.
Proof. destruct (tuple_eqb_spec a b); congruence. Qed.

Lemma GroupRef_is_spec (a b : GroupRef) : reflect (a = b) (GroupRef_is a b).
Proof.
  destruct a as [x|], b as [y|]; simpl; try (constructor; congruence).
  destruct (String.eqb_spec x y); constructor; congruence.
Qed.

(** ** Rendering of a control code sequence *)

Lemma join_cons_ne (sep x : string) (l : list string) :
  l <> [] -> join sep (x :: l) = (x ++ sep ++ join sep l)%string.
Proof. destruct l; [congruence | reflexivity]. Qed.

Lemma append_empty_r (s : string) : (s ++ "")%string = s.
Proof. induction s; simpl; congruence. Qed.

Lemma append_assoc (a b c : string) : ((a ++ b) ++ c = a ++ (b ++ c))%string.
Proof. induction a; simpl; congruence. Qed.

Lemma ControlCodes_str_nonempty (c : ControlCodes) :
  codes_of c <> [] ->
  ControlCodes_str c
  = String ESC (String "[" (join ";" (map str_int (codes_of c)) ++ "m"))%string.
Proof.
  unfold ControlCodes_str. destruct (codes_of c) as [|x cs]; [congruence|].
  intros _. unfold join at 1. simpl String.concat at 1. reflexivity.
Qed.

(** C7 (as amended).  A control code sequence renders to the empty string
    exactly when its code list is empty; every other code list, the
    all-zero ones included, renders as ESC, an opening bracket, the decimal
    codes joined by semicolons, and the letter m. *)
Theorem C7_ControlCodes_str (c : ControlCodes) :
  (ControlCodes_str c = ""%string <-> codes_of c = []) /\
  (codes_of c <> [] ->
   ControlCodes_str c
   = String ESC (String "[" (join ";" (map str_int (codes_of c)) ++ "m"))%string).
Proof.
  split; [|apply ControlCodes_str_nonempty].
  split.
  - intros H. destruct (codes_of c) as [|x cs] eqn:E; [reflexivity|].
    rewrite ControlCodes_str_nonempty in H by congruence. discriminate.
  - intros H. unfold ControlCodes_str. now rewrite H.
Qed.

Lemma C7_ControlCodes_str_witness :
  ControlCodes_str (AStyle (BasicColor_parse "red" 31))
  = String ESC "[31m".
Proof.
  refine (proj2 (C7_ControlCodes_str (AStyle (BasicColor_parse "red" 31))) _).
  discriminate.
Defined.

(** C7, the claim as stated fails: the one-element code list [(0,)] is all
    zeros and renders as the four characters ESC [ 0 m, not as the empty
    string. *)
Lemma C7_all_zero_counterexample :
  Forall (fun z => z = 0) (codes_of (Codes [0])) /\
  ControlCodes_str (Codes [0]) = String ESC "[0m" /\
  ControlCodes_str (Codes [0]) <> ""%string.
Proof.
  split; [repeat constructor|]. split; [reflexivity|discriminate].
Qed.

(** ** Combination of two styles *)

Lemma Style_add_same_group (a b : Style) (na nb : string) :
  group a = group b -> name a = Some na -> name b = Some nb ->
  Style_add a (AStyle b)
  = Ok (AStyle (mkStyle (Some (na ++ "&" ++ nb)%string) (codes a ++ codes b) (group a))).
Proof.
  intros Hg Ha Hb. unfold Style_add.
  destruct (GroupRef_is_spec (group a) (group b)); [|contradiction].
  rewrite Ha, Hb. simpl. now rewrite append_assoc.
Qed.

Lemma Style_add_other_group (a b : Style) :
  group a <> group b -> Style_add a (AStyle b) = Ok (Codes (codes a ++ codes b)).
Proof.
  intros Hg. unfold Style_add.
  destruct (GroupRef_is_spec (group a) (group b)); [contradiction|reflexivity].
Qed.

(** C8.  For two styles of the same group, [a + b] is meant to be a style
    of that group, with the codes of [a] followed by those of [b] and the
    two names joined by an ampersand; for two styles of different groups it
    is a plain control code sequence with the concatenated codes.  The
    program does this whenever the two styles of the same group both carry a
    name.  It breaks the claim on nameless styles: [IndexedColor(None, 1)]
    and [IndexedColor(None, 2)] are both of the group Fore, and adding them
    raises [TypeError] where a style of the group Fore is due. *)
Theorem C8_Style_add :
  (forall a b : Style,
      (group a = group b ->
       forall na nb, name a = Some na -> name b = Some nb ->
       Style_add a (AStyle b)
       = Ok (AStyle (mkStyle (Some (na ++ "&" ++ nb)%string)
                             (codes a ++ codes b) (group a)))) /\
      (group a <> group b ->
       Style_add a (AStyle b) = Ok (Codes (codes a ++ codes b)))) /\
  (let a := IndexedColor None 1 false in
   let b := IndexedColor None 2 false in
   group a = Some "Fore"%string /\ group b = Some "Fore"%string /\
   add (AStyle a) (AStyle b) = Raise TypeError).
Proof.
  split.
  - intros a b. split.
    + intros Hg na nb. now apply Style_add_same_group.
    + apply Style_add_other_group.
  - repeat split.
Qed.

Lemma C8_Style_add_witness :
  Style_add (BasicColor_parse "red" 31) (AStyle (BasicColor_parse "cyan" 36))
  = Ok (AStyle (mkStyle (Some "red&cyan"%string) [31; 36] (Some "Fore"%string))) /\
  Style_add (BasicColor_parse "red" 31) (AStyle (BasicColor_parse "blue" 44))
  = Ok (Codes [31; 44]).
Proof.
  split.
  - exact (proj1 (proj1 C8_Style_add (BasicColor_parse "red" 31)
                        (BasicColor_parse "cyan" 36))
             eq_refl "red"%string "cyan"%string eq_refl eq_refl).
  - refine (proj2 (proj1 C8_Style_add (BasicColor_parse "red" 31)
                         (BasicColor_parse "blue" 44)) _).
    discriminate.
Defined.

(** ** Dicts in insertion order *)

Section StorageFacts.
Context {V : Type}.
Implicit Types (d o : Storage V) (k : string) (v : V).

Lemma getitem_app d o k :
  getitem (d ++ o) k
  = match getitem d k with Some v => Some v | None => getitem o k end.
Proof.
  induction d as [|[k0 v0] d IH]; simpl; [reflexivity|].
  destruct (String.eqb k0 k); auto.
Qed.

Lemma getitem_setitem d k v k' :
  getitem (setitem d k v) k' = if String.eqb k k' then Some v else getitem d k'.
Proof.
  induction d as [|[k0 v0] d IH]; simpl; [reflexivity|].
  destruct (String.eqb_spec k0 k) as [->|Hk]; simpl.
  - destruct (String.eqb k k'); reflexivity.
  - destruct (String.eqb_spec k0 k') as [->|Hk'].
    + destruct (String.eqb_spec k k'); congruence.
    + exact IH.
Qed.

Lemma getitem_None_notin d k : getitem d k = None <-> ~ In k (keys d).
Proof.
  induction d as [|[k0 v0] d IH]; simpl; [tauto|].
  destruct (String.eqb_spec k0 k) as [->|Hk].
  - split; [discriminate | tauto].
  - rewrite IH. tauto.
Qed.

Lemma getitem_In d k v : getitem d k = Some v -> In (k, v) d.
Proof.
  induction d as [|[k0 v0] d IH]; simpl; [discriminate|].
  destruct (String.eqb_spec k0 k) as [->|Hk].
  - intros [= ->]. now left.
  - intros H. right. auto.
Qed.

(** Assignment to a key that is not there appends. *)
Lemma setitem_fresh d k v : ~ In k (keys d) -> setitem d k v = d ++ [(k, v)].
Proof.
  induction d as [|[k0 v0] d IH]; simpl; intros H; [reflexivity|].
  destruct (String.eqb_spec k0 k) as [->|Hk]; [tauto|].
  rewrite IH; tauto.
Qed.

(** After [update], the last assignment to a key wins. *)
Lemma getitem_update d o k :
  getitem (update d o) k
  = match getitem (rev o) k with Some v => Some v | None => getitem d k end.
Proof.
  unfold update. revert d; induction o as [|[k0 v0] o IH]; intros d; simpl.
  - reflexivity.
  - rewrite IH, getitem_app, getitem_setitem. simpl.
    destruct (getitem (rev o) k); [reflexivity|].
    destruct (String.eqb k0 k); reflexivity.
Qed.

Lemma fold_left_ext_in {A B : Type} (f g : A -> B -> A) (l : list B) (a : A) :
  (forall x acc, In x l -> f acc x = g acc x) ->
  fold_left f l a = fold_left g l a.
Proof.
  revert a; induction l as [|x l IH]; intros a H; simpl; [reflexivity|].
  rewrite (H x a) by (left; reflexivity).
  apply IH. intros y acc Hy. apply H. right; exact Hy.
Qed.
End StorageFacts.

(** ** The catalog *)

Lemma groups_keys_NoDup : NoDup (keys groups).
Proof.
  repeat (constructor; [simpl; intuition discriminate|]). constructor.
Qed.

(** Every group of the catalog is stored under its own name, and its reset
    style points back to it. *)
Lemma groups_named :
  Forall (fun gr => gname (snd gr) = fst gr /\ group (reset (snd gr)) = Some (fst gr))
         groups.
Proof. repeat constructor. Qed.

Lemma Sheet_None_eq : Sheet_None = map (fun gr => (fst gr, reset (snd gr))) groups.
Proof. reflexivity. Qed.

Lemma neutralSheet_eq : neutralSheet = map (fun gr => (fst gr, neutral)) groups.
Proof. reflexivity. Qed.

Lemma Sheet_None_reset :
  Forall (fun gr => getitem Sheet_None (fst gr) = Some (reset (snd gr))) groups.
Proof. repeat constructor. Qed.

Lemma neutralSheet_neutral :
  Forall (fun gr => getitem neutralSheet (fst gr) = Some neutral) groups.
Proof. repeat constructor. Qed.

(** ** The diff of two sheets *)

Lemma get_or_reset_eq (sh : Sheet) (gr : string) (g : StyleGroup) :
  get_or_reset sh gr g = value_or_reset sh gr g.
Proof.
  unfold get_or_reset, value_or_reset, contains.
  destruct (getitem sh gr); reflexivity.
Qed.

Lemma diff_step_eq (old new patch : Sheet) (gr : string * StyleGroup) :
  diff_step old new patch gr
  = if category_changed old new (fst gr) (snd gr)
    then setitem patch (fst gr) (normalized_new old new (fst gr) (snd gr))
    else patch.
Proof.
  unfold diff_step, category_changed, normalized_new.
  now rewrite !get_or_reset_eq.
Qed.

(** The loop of [diff] over any list of groups with pairwise different
    names appends, in order, the entries of the changed groups. *)
Lemma diff_loop_spec (old new : Sheet) (gs : list (string * StyleGroup)) :
  forall patch : Sheet,
    NoDup (keys gs) ->
    (forall k, In k (keys gs) -> ~ In k (keys patch)) ->
    fold_left (diff_step old new) gs patch
    = patch ++ flat_map (fun gr =>
                           if category_changed old new (fst gr) (snd gr)
                           then [(fst gr, normalized_new old new (fst gr) (snd gr))]
                           else []) gs.
Proof.
  induction gs as [|gr gs IH]; intros patch Hnd Hfresh; simpl.
  - now rewrite app_nil_r.
  - inversion Hnd as [|? ? Hgr Hnd']; subst.
    rewrite diff_step_eq.
    destruct (category_changed old new (fst gr) (snd gr)).
    + rewrite setitem_fresh by (apply Hfresh; left; reflexivity).
      rewrite IH; [now rewrite <- app_assoc | assumption |].
      intros k Hk. unfold keys. rewrite map_app, in_app_iff. simpl.
      intros [Hin|[<-|[]]]; [|exact (Hgr Hk)].
      apply (Hfresh k); [right; exact Hk | exact Hin].
    + apply IH; [assumption|]. intros k Hk. apply Hfresh. right; exact Hk.
Qed.

Lemma diff_eq_spec (old new : Sheet) : diff old new = diff_spec old new.
Proof.
  unfold diff, diff_spec.
  rewrite diff_loop_spec; [reflexivity | exact groups_keys_NoDup | auto].
Qed.

(** C2.  [Sheet.diff] computes the patch exactly as described: the
    categories of the catalog are visited in the catalog's order, [o] and
    [n] default to the category's reset, [n] is replaced by neutral when [o]
    equals neutral and [n] equals the reset, and the category is in the patch,
    with that [n], exactly when [o != n]; the other categories are absent
    from the patch. *)
Theorem C2_diff_spec (old new : Sheet) :
  diff old new = diff_spec old new /\
  Forall (fun gr =>
            getitem (diff old new) (fst gr)
            = if Style_eq (value_or_reset old (fst gr) (snd gr))
                          (normalized_new old new (fst gr) (snd gr))
              then None
              else Some (normalized_new old new (fst gr) (snd gr)))
         groups.
Proof.
  pose proof (diff_eq_spec old new) as E.
  split; [exact E|]. rewrite E. unfold diff_spec, category_changed.
  generalize groups_keys_NoDup.
  induction groups as [|gr gs IH]; intros Hnd; constructor.
  - simpl.
    inversion Hnd as [|? ? Hgr _]; subst.
    assert (Hrest : forall f : string * StyleGroup -> list (string * Style),
               (forall x, keys (f x) = [] \/ keys (f x) = [fst x]) ->
               getitem (flat_map f gs) (fst gr) = None).
    { intros f Hf. apply getitem_None_notin. unfold keys.
      rewrite flat_map_concat_map, concat_map, map_map.
      intros Hin. apply in_concat in Hin as [l [Hl Hin]].
      apply in_map_iff in Hl as [x [<- Hx]].
      destruct (Hf x) as [Hk|Hk]; unfold keys in Hk; rewrite Hk in Hin; simpl in Hin.
      - contradiction.
      - destruct Hin as [Hin|[]]. apply Hgr. rewrite <- Hin.
        unfold keys. apply in_map. exact Hx. }
    destruct (Style_eq _ _); simpl.
    + apply Hrest. intros x. destruct (negb _); simpl; auto.
    + now rewrite String.eqb_refl.
  - inversion Hnd as [|? ? Hgr Hnd']; subst.
    specialize (IH Hnd').
    rewrite Forall_forall in IH |- *. intros x Hx. specialize (IH x Hx).
    simpl. rewrite getitem_app.
    assert (Hne : fst gr <> fst x).
    { intros Heq. apply Hgr. rewrite Heq. unfold keys. apply in_map. exact Hx. }
    destruct (negb (Style_eq (value_or_reset old (fst gr) (snd gr)) _)); simpl.
    + destruct (String.eqb_spec (fst gr) (fst x)); [contradiction|exact IH].
    + exact IH.
Qed.

(** In [diff], two sheets that give every group of the catalog the same
    value-or-reset are interchangeable, on either side. *)
Lemma diff_ext (old old' new new' : Sheet) :
  Forall (fun gr => value_or_reset old (fst gr) (snd gr)
                    = value_or_reset old' (fst gr) (snd gr)) groups ->
  Forall (fun gr => value_or_reset new (fst gr) (snd gr)
                    = value_or_reset new' (fst gr) (snd gr)) groups ->
  diff old new = diff old' new'.
Proof.
  intros Ho Hn. unfold diff. apply fold_left_ext_in. intros gr patch Hgr.
  rewrite Forall_forall in Ho, Hn.
  rewrite !diff_step_eq. unfold category_changed, normalized_new.
  now rewrite (Ho gr Hgr), (Hn gr Hgr).
Qed.

Lemma value_or_reset_empty :
  Forall (fun gr => value_or_reset Sheet_empty (fst gr) (snd gr)
                    = value_or_reset Sheet_None (fst gr) (snd gr)) groups.
Proof. repeat constructor. Qed.

Lemma Forall_refl_groups (f : string * StyleGroup -> Style) :
  Forall (fun gr => f gr = f gr) groups.
Proof. apply Forall_forall. reflexivity. Qed.

Lemma groups_functional (gr : string) (g g' : StyleGroup) :
  In (gr, g) groups -> In (gr, g') groups -> g = g'.
Proof.
  generalize groups_keys_NoDup. induction groups as [|[k v] l IH]; simpl; [tauto|].
  intros Hnd. inversion Hnd as [|? ? Hk Hl]; subst.
  intros [[= -> ->]|H1] [[= <-]|H2]; auto.
  - exfalso. apply Hk. change gr with (fst (gr, g')). now apply in_map.
  - exfalso. apply Hk. change k with (fst (k, g)). now apply in_map.
Qed.

(** Storing a group's reset style under a key that was missing does not
    change what [diff] reads. *)
Lemma value_or_reset_store_reset (S : Sheet) (gr : string) (g : StyleGroup) :
  In (gr, g) groups -> contains S gr = false ->
  Forall (fun gr' => value_or_reset (setitem S gr (reset g)) (fst gr') (snd gr')
                     = value_or_reset S (fst gr') (snd gr')) groups.
Proof.
  intros Hin Habs. apply Forall_forall. intros [k v] Hk. simpl.
  unfold value_or_reset. rewrite getitem_setitem.
  destruct (String.eqb_spec gr k) as [->|Hne]; [|reflexivity].
  rewrite (groups_functional k v g Hk Hin).
  unfold contains in Habs. now destruct (getitem S k).
Qed.

(** C10.  In [Sheet.diff] a missing category behaves as the category's
    reset style stored explicitly.  Against every sheet [S], the empty sheet
    and the sheet holding every category's reset give the same patch, as the
    new sheet and as the old one; and storing the reset style of a category
    that [S] does not hold changes no patch computed from [S] or towards
    [S]. *)
Theorem C10_absent_is_reset (S : Sheet) :
  (diff S Sheet_empty = diff S Sheet_None /\
   diff Sheet_empty S = diff Sheet_None S) /\
  (forall gr g X,
      In (gr, g) groups -> contains S gr = false ->
      diff (setitem S gr (reset g)) X = diff S X /\
      diff X (setitem S gr (reset g)) = diff X S).
Proof.
  split.
  - split; apply diff_ext;
      try exact value_or_reset_empty;
      apply (Forall_refl_groups (fun gr => value_or_reset S (fst gr) (snd gr))).
  - intros gr g X Hin Habs. split; apply diff_ext;
      try exact (value_or_reset_store_reset S gr g Hin Habs);
      apply (Forall_refl_groups (fun gr => value_or_reset X (fst gr) (snd gr))).
Qed.

Lemma C10_absent_is_reset_witness :
  let red := BasicColor_parse "red" 31 in
  let S : Sheet := [("Fore"%string, red)] in
  let back_reset := mkStyle (Some "reset"%string) [49] (Some "Back"%string) in
  diff (setitem S "Back" back_reset) Sheet_empty = diff S Sheet_empty /\
  diff Sheet_empty (setitem S "Back" back_reset) = diff Sheet_empty S.
Proof.
  intros red S back_reset.
  refine (proj2 (C10_absent_is_reset S) "Back"%string
                (StyleGroup_init "Back" [] (Style_init "reset" [49])) Sheet_empty _ _).
  - left. reflexivity.
  - reflexivity.
Defined.

(** ** Layering and the neutral sheet *)

Lemma neutralSheet_values (k : string) (v : Style) :
  In (k, v) neutralSheet -> v = neutral /\ In k (keys groups).
Proof.
  rewrite neutralSheet_eq. intros H. apply in_map_iff in H as [gr [E Hgr]].
  inversion E; subst. split; [reflexivity|]. unfold keys. now apply in_map.
Qed.

Lemma getitem_rev_neutralSheet (k : string) :
  getitem (rev neutralSheet) k = getitem neutralSheet k.
Proof.
  destruct (getitem (rev neutralSheet) k) as [v|] eqn:E1;
    destruct (getitem neutralSheet k) as [w|] eqn:E2; try reflexivity.
  - apply getitem_In in E1, E2. rewrite <- in_rev in E1.
    apply neutralSheet_values in E1 as [-> _], E2 as [-> _]. reflexivity.
  - apply getitem_In in E1. rewrite <- in_rev in E1.
    apply getitem_None_notin in E2. exfalso. apply E2.
    unfold keys. change k with (fst (k, v)). now apply in_map.
  - apply getitem_In in E2. apply getitem_None_notin in E1. exfalso. apply E1.
    unfold keys. change k with (fst (k, w)). apply in_map. now rewrite <- in_rev.
Qed.

(** C4 (as amended).  Layering the all-neutral sheet onto a sheet [S] does
    not always give [S] back: in the result every category of the catalog
    is neutral, and only the entries of [S] under other keys are kept.  So
    the result has the entries of [S] exactly when [S] holds neutral for
    every category of the catalog already, as the all-neutral sheet itself
    does.  The diff of two all-neutral sheets, and the diff from the
    all-neutral sheet to a fresh sheet (the empty one or the one holding
    every reset), is the empty patch.  (From a fresh sheet to the
    all-neutral sheet the patch holds neutral for every category; it
    renders to the empty string.) *)
Theorem C4_neutral_sheet (S : Sheet) :
  (forall k,
      getitem (Sheet_or S neutralSheet) k
      = if contains neutralSheet k then Some neutral else getitem S k) /\
  Forall (fun gr => getitem (Sheet_or S neutralSheet) (fst gr) = Some neutral) groups /\
  ((forall k, getitem (Sheet_or S neutralSheet) k = getitem S k)
   <-> Forall (fun gr => getitem S (fst gr) = Some neutral) groups) /\
  Sheet_or neutralSheet neutralSheet = neutralSheet /\
  diff neutralSheet neutralSheet = Sheet_empty /\
  diff neutralSheet Sheet_empty = Sheet_empty /\
  diff neutralSheet Sheet_None = Sheet_empty /\
  diff Sheet_empty neutralSheet = neutralSheet /\
  diff Sheet_None neutralSheet = neutralSheet /\
  join "" (map (fun v => ControlCodes_str (AStyle v)) (values neutralSheet)) = ""%string.
Proof.
  assert (H : forall k,
             getitem (Sheet_or S neutralSheet) k
             = if contains neutralSheet k then Some neutral else getitem S k).
  { intros k. unfold Sheet_or, Sheet_copy, contains.
    rewrite getitem_update, getitem_rev_neutralSheet.
    destruct (getitem neutralSheet k) as [v|] eqn:E; [|reflexivity].
    apply getitem_In, neutralSheet_values in E as [-> _]. reflexivity. }
  pose proof neutralSheet_neutral as Hn. rewrite Forall_forall in Hn.
  split; [exact H|]. split; [|split].
  - apply Forall_forall. intros gr Hgr. rewrite H. unfold contains.
    now rewrite (Hn gr Hgr).
  - rewrite Forall_forall. split.
    + intros Hsame gr Hgr. rewrite <- Hsame, H. unfold contains.
      now rewrite (Hn gr Hgr).
    + intros Hall k. rewrite H. unfold contains.
      destruct (getitem neutralSheet k) as [v|] eqn:E; [|reflexivity].
      apply getitem_In, neutralSheet_values in E as [_ Hk].
      unfold keys in Hk. apply in_map_iff in Hk as [gr [<- Hgr]].
      symmetry. exact (Hall gr Hgr).
  - repeat split; reflexivity.
Qed.

(** C4, the claim as stated fails: layered onto the sheet that holds red
    for the foreground, the all-neutral sheet replaces red by neutral (and
    adds the eleven other categories), so the result is not that sheet. *)
Lemma C4_layer_counterexample :
  let red := BasicColor_parse "red" 31 in
  let S : Sheet := [("Fore"%string, red)] in
  getitem S "Fore" = Some red /\
  getitem (Sheet_or S neutralSheet) "Fore" = Some neutral /\
  Style_eq red neutral = false /\
  Sheet_or S neutralSheet <> S.
Proof. repeat split. discriminate. Qed.

(** ** Flattening *)

(** Induction on a tree of rich strings: the property may be assumed for
    every child that is a [RichStr]. *)
Lemma RichStr_tree_ind (P : RichStr -> Prop) :
  (forall subs own,
      Forall (fun c => match c with Rich r => P r | Str _ => True end) subs ->
      P (mkRichStr subs own)) ->
  forall t, P t.
Proof.
  intros H. fix IH 1. intros [subs own]. apply H.
  induction subs as [|c subs IHsubs]; constructor.
  - destruct c as [s|r]; [exact I | apply IH].
  - exact IHsubs.
Qed.

Lemma dfs_Str (subs : list SubStr) (own inh : Sheet) (s : string) :
  dfs (mkRichStr (Str s :: subs) own) inh
  = TSheet (Sheet_add (Sheet_copy inh) own) :: TStr s :: dfs (mkRichStr subs own) inh.
Proof. reflexivity. Qed.

Lemma dfs_Rich (subs : list SubStr) (own inh : Sheet) (r : RichStr) :
  dfs (mkRichStr (Rich r :: subs) own) inh
  = dfs r (Sheet_add (Sheet_copy inh) own) ++ dfs (mkRichStr subs own) inh.
Proof. reflexivity. Qed.

Lemma dfs_leaves (t : RichStr) :
  forall inh, dfs t inh = flat_map snapshot_then_text (leaves t inh).
Proof.
  induction t as [subs own IH] using RichStr_tree_ind. intros inh.
  induction subs as [|c subs IHsubs].
  - reflexivity.
  - inversion IH as [|? ? Hc Hsubs]; subst. destruct c as [s|r].
    + rewrite dfs_Str, (IHsubs Hsubs). reflexivity.
    + rewrite dfs_Rich, (IHsubs Hsubs), (Hc _).
      simpl leaves. rewrite flat_map_app. reflexivity.
Qed.

(** C3.  Flattening is a depth-first, left-to-right traversal: a literal
    text is yielded right after the snapshot in effect (the inherited
    snapshot layered with the node's own), a child node is traversed with
    that layered snapshot as its inherited one; after the traversal
    [sheetRepr] appends, as the last element, the snapshot that holds for
    every category of the catalog the category's designated neutral, that
    is reset, style.  It is also the snapshot the traversal starts from. *)
Theorem C3_flattening :
  (forall own inh, dfs (mkRichStr [] own) inh = []) /\
  (forall subs own inh s,
      dfs (mkRichStr (Str s :: subs) own) inh
      = TSheet (Sheet_add inh own) :: TStr s :: dfs (mkRichStr subs own) inh) /\
  (forall subs own inh r,
      dfs (mkRichStr (Rich r :: subs) own) inh
      = dfs r (Sheet_add inh own) ++ dfs (mkRichStr subs own) inh) /\
  (forall t inh, dfs t inh = flat_map snapshot_then_text (leaves t inh)) /\
  (forall t,
      sheetRepr t
      = flat_map snapshot_then_text (leaves t Sheet_None) ++ [TSheet Sheet_None]) /\
  keys Sheet_None = keys groups /\
  Forall (fun gr => getitem Sheet_None (fst gr) = Some (reset (snd gr))) groups.
Proof.
  repeat split; try reflexivity.
  - intros t inh. apply dfs_leaves.
  - intros t. unfold sheetRepr. now rewrite dfs_leaves.
  - exact Sheet_None_reset.
Qed.

(** ** The reference scenario *)

Section Reference.
Variables red green : Style.
Hypothesis red_on : codes red <> [] /\ codes red <> [39].
Hypothesis green_on : codes green <> [] /\ codes green <> [49].

(** The three snapshots of the scenario: everything at reset, red in the
    foreground, and light green in the background on top of it. *)
Let S0 : Sheet := Sheet_None.
Let Sr : Sheet := Sheet_add S0 [("Fore"%string, red)].
Let Sg : Sheet := Sheet_add Sr [("Back"%string, green)].

Ltac eval_diff :=
  destruct red as [nr cr gr], green as [ng cg gg];
  simpl in red_on, green_on;
  destruct red_on as [Hr1 Hr2], green_on as [Hg1 Hg2];
  pose proof (tuple_eqb_neq _ _ Hr1) as E1;
  pose proof (tuple_eqb_neq _ _ Hr2) as E2;
  pose proof (tuple_eqb_neq _ _ Hg1) as E3;
  pose proof (tuple_eqb_neq _ _ Hg2) as E4;
  pose proof (tuple_eqb_sym cr [39]) as F2; rewrite E2 in F2;
  pose proof (tuple_eqb_sym cg [49]) as F4; rewrite E4 in F4;
  rewrite diff_eq_spec;
  unfold diff_spec, category_changed, normalized_new, value_or_reset, Style_eq;
  repeat first
    [ progress cbn -[tuple_eqb]
    | progress rewrite ?E1, ?E2, ?E3, ?E4, <- ?F2, <- ?F4,
                       ?tuple_eqb_refl, ?tuple_eqb_cons_nil ];
  reflexivity.

Lemma diff_reset_red : diff S0 Sr = [("Fore"%string, red)].
Proof. eval_diff. Qed.

Lemma diff_red_green : diff Sr Sg = [("Back"%string, green)].
Proof. eval_diff. Qed.

Lemma diff_green_red :
  diff Sg Sr = [("Back"%string, mkStyle (Some "reset"%string) [49] (Some "Back"%string))].
Proof. eval_diff. Qed.

Lemma diff_red_reset :
  diff Sr S0 = [("Fore"%string, mkStyle (Some "reset"%string) [39] (Some "Fore"%string))].
Proof. eval_diff. Qed.

Lemma reference_sheetRepr (t : RichStr) :
  group red = Some "Fore"%string -> group green = Some "Back"%string ->
  reference_tree red green = Ok t ->
  sheetRepr t
  = [TSheet S0; TStr "DDD"; TSheet Sr; TStr "RRR"; TSheet Sg; TStr "GGG";
     TSheet Sr; TStr "rrr"; TSheet S0; TStr "ddd"; TSheet S0].
Proof.
  unfold reference_tree, Style_call, Sheet_of_Style.
  intros -> ->. simpl. intros [= <-]. reflexivity.
Qed.
End Reference.

(** C1.  The reference scenario: unstyled DDD, then, under a foreground
    style (red), RRR, GGG under a background style (light green) nested in
    it, and rrr, then unstyled ddd.  The rendered string is DDD, the code
    that switches red on, RRR, the code that switches light green on, GGG,
    the background reset code, rrr, the foreground reset code, ddd; the
    plain projection is DDDRRRGGGrrrddd.  The two styles come from the
    colour table of colorama; the statement holds for every foreground and
    background style whose codes are neither empty nor the reset code of
    their group. *)
Theorem C1_reference_scenario (red green : Style) :
  group red = Some "Fore"%string -> group green = Some "Back"%string ->
  codes red <> [] /\ codes red <> [39] ->
  codes green <> [] /\ codes green <> [49] ->
  exists t,
    reference_tree red green = Ok t /\
    RichStr_str t
    = Ok ("DDD" ++ ControlCodes_str (AStyle red) ++ "RRR"
          ++ ControlCodes_str (AStyle green) ++ "GGG"
          ++ String ESC "[49m" ++ "rrr" ++ String ESC "[39m" ++ "ddd")%string /\
    plain t = "DDDRRRGGGrrrddd"%string.
Proof.
  intros Hr Hg Hred Hgreen.
  destruct (reference_tree red green) as [t|e] eqn:Et.
  2:{ unfold reference_tree, Style_call, Sheet_of_Style in Et.
      rewrite Hr, Hg in Et. discriminate. }
  exists t. split; [reflexivity|].
  pose proof (reference_sheetRepr red green t Hr Hg Et) as Hrepr.
  split.
  - unfold RichStr_str, optimizedCodeRepr, mergeCodes. rewrite Hrepr.
    unfold optimizeSheetsToCodes.
    cbn [optimize_loop]. unfold Sheet_sub, Sheet_copy.
    rewrite (diff_reset_red red green Hred Hgreen).
    rewrite (diff_red_green red green Hred Hgreen).
    rewrite (diff_green_red red green Hred Hgreen).
    rewrite (diff_red_reset red green Hred Hgreen).
    change (diff Sheet_empty Sheet_None) with Sheet_empty.
    change (diff Sheet_None Sheet_empty) with Sheet_empty.
    cbn -[ControlCodes_str]. reflexivity.
  - unfold plain. rewrite Hrepr. reflexivity.
Qed.

Lemma C1_reference_scenario_witness :
  exists t,
    reference_tree (BasicColor_parse "red" 31) (BasicColor_parse "lightgreenEx" 102)
    = Ok t /\
    RichStr_str t
    = Ok ("DDD" ++ String ESC "[31m" ++ "RRR" ++ String ESC "[102m" ++ "GGG"
          ++ String ESC "[49m" ++ "rrr" ++ String ESC "[39m" ++ "ddd")%string /\
    plain t = "DDDRRRGGGrrrddd"%string.
Proof.
  apply (C1_reference_scenario (BasicColor_parse "red" 31)
                               (BasicColor_parse "lightgreenEx" 102));
    try reflexivity; split; discriminate.
Defined.

(** ** Strings *)

Lemma join_empty_cons (x : string) (l : list string) :
  join "" (x :: l) = (x ++ join "" l)%string.
Proof.
  destruct l as [|y l]; simpl.
  - now rewrite append_empty_r.
  - reflexivity.
Qed.

Lemma join_empty_app (l1 l2 : list string) :
  join "" (l1 ++ l2) = (join "" l1 ++ join "" l2)%string.
Proof.
  induction l1 as [|x l1 IH]; [reflexivity|].
  rewrite <- app_comm_cons, !join_empty_cons, IH. now rewrite append_assoc.
Qed.

Lemma length_append (a b : string) :
  String.length (a ++ b) = (String.length a + String.length b)%nat.
Proof. induction a; simpl; congruence. Qed.

(** ** Decimal digits *)

Lemma string_of_uint_digits (d : Decimal.uint) :
  all_digits (NilEmpty.string_of_uint d) = true.
Proof. induction d; simpl; auto. Qed.

Lemma string_of_uint_nonempty (d : Decimal.uint) :
  d <> Decimal.Nil -> NilEmpty.string_of_uint d <> EmptyString.
Proof. destruct d; simpl; congruence. Qed.

Lemma str_int_digit_string (n : Z) : 0 <= n -> digit_string (str_int n).
Proof.
  intros Hn. unfold str_int, digit_string. destruct n as [|p|p]; [| |lia].
  - split; [discriminate | reflexivity].
  - simpl. pose proof (DecimalPos.Unsigned.to_uint_nonnil p) as Hp.
    destruct (Pos.to_uint p) eqn:E; try contradiction;
      (split; [discriminate | apply (string_of_uint_digits (_ _))]).
Qed.

(** ** Reading an escape sequence *)

Lemma sgr_tail_digits (d : string) :
  all_digits d = true ->
  forall s cur,
    sgr_tail (d ++ s) cur = bump (String.length d) (sgr_tail s (cur ++ d)).
Proof.
  induction d as [|c d IH]; simpl; intros Hd s cur.
  - rewrite append_empty_r. destruct (sgr_tail s cur) as [[ps n]|]; reflexivity.
  - apply andb_prop in Hd as [Hc Hd]. rewrite Hc, (IH Hd).
    replace (cur ++ String c d)%string with ((cur ++ String c "") ++ d)%string
      by (now rewrite append_assoc).
    destruct (sgr_tail s _) as [[ps n]|]; reflexivity.
Qed.

Lemma sgr_tail_param (d s : string) :
  digit_string d ->
  sgr_tail (d ++ String ";" s) ""
  = match sgr_tail s "" with
    | Some (ps, n) => Some (d :: ps, (String.length d + S n)%nat)
    | None => None
    end /\
  sgr_tail (d ++ String "m" s) "" = Some ([d], (String.length d + 1)%nat).
Proof.
  intros [Hne Hd]. rewrite !(sgr_tail_digits d Hd). simpl.
  destruct d as [|c d]; [congruence|].
  split; [|reflexivity].
  destruct (sgr_tail s "") as [[ps n]|]; reflexivity.
Qed.

(** The parameters of a rendered code list are read back, up to the
    final m. *)
Lemma sgr_tail_params (ps : list string) (rest : string) :
  ps <> [] -> Forall digit_string ps ->
  sgr_tail (join ";" ps ++ String "m" rest) ""
  = Some (ps, S (String.length (join ";" ps))).
Proof.
  induction ps as [|d ps IH]; [congruence|]. intros _ Hall.
  inversion Hall as [|? ? Hd Hps]; subst.
  destruct ps as [|d' ps].
  - simpl join. rewrite (proj2 (sgr_tail_param d rest Hd)).
    f_equal. f_equal. lia.
  - rewrite join_cons_ne by congruence.
    change (d ++ ";" ++ join ";" (d' :: ps))%string
      with (d ++ String ";" (join ";" (d' :: ps)))%string.
    rewrite append_assoc.
    change (String ";" (join ";" (d' :: ps)) ++ String "m" rest)%string
      with (String ";" (join ";" (d' :: ps) ++ String "m" rest)).
    rewrite (proj1 (sgr_tail_param d (join ";" (d' :: ps) ++ String "m" rest) Hd)).
    rewrite IH by (congruence || assumption).
    f_equal. f_equal. rewrite length_append. simpl String.length. lia.
Qed.

Lemma nonneg_digit_strings (cs : list Z) :
  nonneg cs = true -> Forall digit_string (map str_int cs).
Proof.
  unfold nonneg. rewrite forallb_forall. intros H.
  apply Forall_forall. intros d Hd. apply in_map_iff in Hd as [c [<- Hc]].
  apply str_int_digit_string. specialize (H c Hc). lia.
Qed.

(** A rendered, nonempty code list is one match of the pattern, whatever
    follows it. *)
Lemma match_escape_codes (c : ControlCodes) (rest : string) :
  codes_of c <> [] -> nonneg (codes_of c) = true ->
  match_escape (ControlCodes_str c ++ rest)
  = Some (map str_int (codes_of c), String.length (ControlCodes_str c)).
Proof.
  intros Hne Hnn. rewrite ControlCodes_str_nonempty by assumption.
  simpl. rewrite append_assoc. simpl append at 2.
  rewrite sgr_tail_params.
  - rewrite length_append. simpl. do 2 f_equal. lia.
  - destruct (codes_of c); [congruence | discriminate].
  - now apply nonneg_digit_strings.
Qed.

(** ** Scanning a rendered string *)

Lemma remove_escapes_skip (p rest : string) :
  remove_escapes_from (String.length p) (p ++ rest) = remove_escapes_from 0 rest.
Proof. induction p; simpl; auto. Qed.

Lemma terminal_skip (p rest : string) :
  terminal_from (String.length p) (p ++ rest) = terminal_from 0 rest.
Proof. induction p; simpl; auto. Qed.

(** A rendered code list disappears under [remove_escapes]. *)
Lemma remove_escapes_codes (cs : list Z) (rest : string) :
  nonneg cs = true ->
  remove_escapes_from 0 (ControlCodes_str (Codes cs) ++ rest)
  = remove_escapes_from 0 rest.
Proof.
  intros Hnn. destruct cs as [|c cs]; [reflexivity|].
  pose proof (match_escape_codes (Codes (c :: cs)) rest) as Hm.
  simpl codes_of in Hm. specialize (Hm ltac:(discriminate) Hnn).
  remember (ControlCodes_str (Codes (c :: cs))) as code eqn:Ecode.
  destruct code as [|e code].
  - rewrite ControlCodes_str_nonempty in Ecode by discriminate. discriminate.
  - change (String e code ++ rest)%string with (String e (code ++ rest)) in *.
    cbn [remove_escapes_from]. rewrite Hm. cbn [String.length Nat.pred].
    apply remove_escapes_skip.
Qed.

(** A rendered code list is, for the terminal, its parameters in order. *)
Lemma terminal_codes (cs : list Z) (rest : string) :
  nonneg cs = true ->
  terminal_from 0 (ControlCodes_str (Codes cs) ++ rest)
  = graphics cs ++ terminal_from 0 rest.
Proof.
  intros Hnn. destruct cs as [|c cs]; [reflexivity|].
  pose proof (match_escape_codes (Codes (c :: cs)) rest) as Hm.
  simpl codes_of in Hm. specialize (Hm ltac:(discriminate) Hnn).
  remember (ControlCodes_str (Codes (c :: cs))) as code eqn:Ecode.
  destruct code as [|e code].
  - rewrite ControlCodes_str_nonempty in Ecode by discriminate. discriminate.
  - change (String e code ++ rest)%string with (String e (code ++ rest)) in *.
    cbn [terminal_from]. rewrite Hm. cbn [String.length Nat.pred].
    now rewrite terminal_skip.
Qed.

Lemma match_escape_not_ESC (c : ascii) (s : string) :
  Ascii.eqb c ESC = false -> match_escape (String c s) = None.
Proof. intros H. destruct s; simpl; [reflexivity | now rewrite H]. Qed.

(** A text without the escape character stays as it is. *)
Lemma remove_escapes_text (t rest : string) :
  no_escape t = true ->
  remove_escapes_from 0 (t ++ rest) = (t ++ remove_escapes_from 0 rest)%string.
Proof.
  induction t as [|c t IH]; intros H; [reflexivity|].
  simpl in H. apply andb_prop in H as [Hc Ht].
  apply negb_true_iff in Hc.
  change (String c t ++ rest)%string with (String c (t ++ rest)).
  cbn [remove_escapes_from]. rewrite (match_escape_not_ESC _ _ Hc).
  simpl. now rewrite IH.
Qed.

(** Without escape characters in the texts and with codes that are not
    negative, removing the escape sequences from the rendered pieces leaves
    the texts. *)
Lemma remove_escapes_render (l : list Piece) :
  forallb clean_piece l = true ->
  remove_escapes (render_pieces l) = join "" (piece_texts l).
Proof.
  unfold remove_escapes, render_pieces.
  induction l as [|p l IH]; intros H; [reflexivity|].
  simpl in H. apply andb_prop in H as [Hp Hl].
  cbn [map]. rewrite join_empty_cons. destruct p as [s|cs]; simpl in Hp.
  - cbn [Piece_str piece_texts flat_map]. rewrite remove_escapes_text by assumption.
    rewrite (IH Hl). change ([s] ++ ?x) with (s :: x). now rewrite join_empty_cons.
  - cbn [Piece_str piece_texts flat_map]. rewrite remove_escapes_codes by assumption.
    exact (IH Hl).
Qed.

(** The terminal reads back the numbers that were printed. *)
Lemma param_value_str_int (n : Z) : 0 <= n -> param_value (str_int n) = Z.to_N n.
Proof.
  intros Hn. destruct n as [|p|p]; [reflexivity | | lia].
  unfold param_value, str_int. cbn [Z.to_int NilZero.string_of_int].
  pose proof (DecimalPos.Unsigned.to_uint_nonnil p) as Hp.
  assert (E : NilZero.string_of_uint (Pos.to_uint p)
              = NilEmpty.string_of_uint (Pos.to_uint p))
    by (destruct (Pos.to_uint p); [contradiction | reflexivity ..]).
  rewrite E, NilEmpty.usu. unfold N.of_uint.
  now rewrite DecimalPos.Unsigned.of_to.
Qed.

Lemma graphics_nonneg (cs : list Z) :
  nonneg cs = true -> graphics cs = map (fun c => SetGraphics (Z.to_N c)) cs.
Proof.
  unfold nonneg, graphics. rewrite forallb_forall, map_map. intros H.
  apply map_ext_in. intros c Hc. rewrite param_value_str_int; [reflexivity|].
  specialize (H c Hc). lia.
Qed.

(** A rendered code list, alone, sets its codes one after the other. *)
Lemma terminal_rendered_codes (cs : list Z) :
  nonneg cs = true ->
  terminal (ControlCodes_str (Codes cs)) = map (fun c => SetGraphics (Z.to_N c)) cs.
Proof.
  intros H. unfold terminal.
  rewrite <- (append_empty_r (ControlCodes_str (Codes cs))).
  rewrite terminal_codes by assumption. rewrite graphics_nonneg by assumption.
  simpl. apply app_nil_r.
Qed.

(** ** Escape sequences and their surroundings *)

(** Reading an escape sequence stops at the next escape character: what
    comes after it does not matter, and a match ends before it. *)
Lemma sgr_tail_stop (p : string) :
  forall cur r r',
    sgr_tail (p ++ String ESC r) cur = sgr_tail (p ++ String ESC r') cur /\
    forall ps n, sgr_tail (p ++ String ESC r) cur = Some (ps, n) ->
                 (n <= String.length p)%nat.
Proof.
  induction p as [|c p IH]; intros cur r r'.
  - split; [reflexivity | discriminate].
  - change (String c p ++ String ESC ?x)%string with (String c (p ++ String ESC x)).
    cbn [sgr_tail String.length].
    destruct (is_digit c).
    { destruct (IH (cur ++ String c "")%string r r') as [E B]. rewrite <- E.
      split; [reflexivity|]. intros ps n.
      destruct (sgr_tail (p ++ String ESC r) _) as [[ps0 n0]|] eqn:E0; [|discriminate].
      intros [= <- <-]. specialize (B ps0 n0 eq_refl). lia. }
    destruct (Ascii.eqb c ";").
    { destruct cur as [|c0 cur]; [split; [reflexivity | discriminate]|].
      destruct (IH ""%string r r') as [E B]. rewrite <- E.
      split; [reflexivity|]. intros ps n.
      destruct (sgr_tail (p ++ String ESC r) _) as [[ps0 n0]|] eqn:E0; [|discriminate].
      intros [= <- <-]. specialize (B ps0 n0 eq_refl). lia. }
    destruct (Ascii.eqb c "m").
    { destruct cur as [|c0 cur]; [split; [reflexivity | discriminate]|].
      split; [reflexivity|]. intros ps n [= <- <-]. lia. }
    split; [reflexivity | discriminate].
Qed.

Lemma match_escape_stop (c : ascii) (p r r' : string) :
  match_escape (String c (p ++ String ESC r))
  = match_escape (String c (p ++ String ESC r')) /\
  forall ps n, match_escape (String c (p ++ String ESC r)) = Some (ps, n) ->
               (Nat.pred n <= String.length p)%nat.
Proof.
  destruct p as [|b p].
  - simpl. rewrite andb_false_r. split; [reflexivity | discriminate].
  - change (String b p ++ String ESC ?x)%string with (String b (p ++ String ESC x)).
    cbn [match_escape String.length].
    destruct (Ascii.eqb c ESC && Ascii.eqb b "["); [|split; [reflexivity | discriminate]].
    destruct (sgr_tail_stop p ""%string r r') as [E B]. rewrite <- E.
    split; [reflexivity|]. intros ps n.
    destruct (sgr_tail (p ++ String ESC r) _) as [[ps0 n0]|] eqn:E0; [|discriminate].
    intros [= <- <-]. specialize (B ps0 n0 eq_refl). simpl. lia.
Qed.

(** Two strings that begin with the escape character and have the same
    terminal effect can replace each other behind any prefix. *)
Lemma terminal_context (x y : string) :
  terminal_from 0 (String ESC x) = terminal_from 0 (String ESC y) ->
  forall p skip,
    (skip <= String.length p)%nat ->
    terminal_from skip (p ++ String ESC x) = terminal_from skip (p ++ String ESC y).
Proof.
  intros Hbase p. induction p as [|c p IH]; intros skip Hskip.
  - simpl in Hskip. replace skip with 0%nat by lia. exact Hbase.
  - change (String c p ++ String ESC ?z)%string with (String c (p ++ String ESC z)).
    simpl in Hskip. destruct skip as [|k].
    + cbn [terminal_from].
      destruct (match_escape_stop c p x y) as [E B]. rewrite <- E.
      destruct (match_escape (String c (p ++ String ESC x))) as [[ps n]|].
      * f_equal. apply IH. exact (B ps n eq_refl).
      * f_equal. apply IH. lia.
    + cbn [terminal_from]. apply IH. lia.
Qed.

(** Two adjacent code lists and their concatenation, behind any prefix and
    before any rest. *)
Lemma terminal_codes_pair (c1 c2 : list Z) (q : string) :
  nonneg c1 = true -> nonneg c2 = true ->
  forall p skip,
    (skip <= String.length p)%nat ->
    terminal_from skip (p ++ ControlCodes_str (Codes c1)
                          ++ ControlCodes_str (Codes c2) ++ q)
    = terminal_from skip (p ++ ControlCodes_str (Codes (c1 ++ c2)) ++ q).
Proof.
  intros H1 H2 p skip Hskip.
  destruct c1 as [|a c1]; [reflexivity|].
  destruct c2 as [|b c2]; [now rewrite app_nil_r|].
  assert (H12 : nonneg ((a :: c1) ++ b :: c2) = true).
  { unfold nonneg in *. rewrite forallb_app. now rewrite H1, H2. }
  assert (Hbase : terminal_from 0 (ControlCodes_str (Codes (a :: c1))
                                    ++ ControlCodes_str (Codes (b :: c2)) ++ q)
                  = terminal_from 0 (ControlCodes_str (Codes ((a :: c1) ++ b :: c2)) ++ q)).
  { rewrite !terminal_codes by assumption.
    unfold graphics. now rewrite !map_app, app_assoc. }
  revert Hbase.
  rewrite (ControlCodes_str_nonempty (Codes (a :: c1))) by discriminate.
  rewrite (ControlCodes_str_nonempty (Codes ((a :: c1) ++ b :: c2))) by discriminate.
  intros Hbase. exact (terminal_context _ _ Hbase p skip Hskip).
Qed.

(** ** Merging runs of codes *)

Lemma merge_runs_codes_codes (a b : list Z) (l : list Piece) :
  merge_runs (PCodes a :: PCodes b :: l) = merge_runs (PCodes (a ++ b) :: l).
Proof.
  simpl. destruct (merge_runs l) as [|[s|c] r]; try reflexivity.
  now rewrite app_assoc.
Qed.

Lemma merge_runs_no_adjacent (l : list Piece) : no_adjacent_codes (merge_runs l).
Proof.
  induction l as [|[s|cs] l IH]; simpl; auto.
  destruct (merge_runs l) as [|[s|c] r]; simpl in *; auto.
Qed.

Lemma merge_runs_texts (l : list Piece) : piece_texts (merge_runs l) = piece_texts l.
Proof.
  induction l as [|[s|cs] l IH]; simpl; [reflexivity | now rewrite IH |].
  destruct (merge_runs l) as [|[s|c] r]; simpl in *; exact IH.
Qed.

Lemma merge_runs_nonneg (l : list Piece) :
  forallb nonneg_piece l = true -> forallb nonneg_piece (merge_runs l) = true.
Proof.
  induction l as [|[s|cs] l IH]; simpl; auto.
  intros H. apply andb_prop in H as [Hcs Hl]. specialize (IH Hl).
  destruct (merge_runs l) as [|[s|c] r]; simpl in *.
  - now rewrite Hcs.
  - now rewrite Hcs.
  - apply andb_prop in IH as [Hc Hr]. unfold nonneg in *.
    now rewrite forallb_app, Hcs, Hc.
Qed.

Lemma merge_runs_clean (l : list Piece) :
  forallb clean_piece l = true -> forallb clean_piece (merge_runs l) = true.
Proof.
  induction l as [|[s|cs] l IH]; simpl; auto.
  - intros H. apply andb_prop in H as [Hs Hl]. now rewrite Hs, IH.
  - intros H. apply andb_prop in H as [Hcs Hl]. specialize (IH Hl).
    destruct (merge_runs l) as [|[s|c] r]; simpl in *.
    + now rewrite Hcs.
    + now rewrite Hcs.
    + apply andb_prop in IH as [Hc Hr]. unfold nonneg in *.
      now rewrite forallb_app, Hcs, Hc.
Qed.

Lemma render_pieces_cons (p : Piece) (l : list Piece) :
  render_pieces (p :: l) = (Piece_str p ++ render_pieces l)%string.
Proof. unfold render_pieces. cbn [map]. apply join_empty_cons. Qed.

(** Merging the runs of codes does not change the terminal effect of the
    rendered string. *)
Lemma terminal_merge_runs (l : list Piece) :
  forallb nonneg_piece l = true ->
  forall p skip,
    (skip <= String.length p)%nat ->
    terminal_from skip (p ++ render_pieces l)
    = terminal_from skip (p ++ render_pieces (merge_runs l)).
Proof.
  induction l as [|[s|cs] l IH]; intros H p skip Hskip; [reflexivity| |].
  - simpl in H. cbn [merge_runs]. rewrite !render_pieces_cons. cbn [Piece_str].
    rewrite <- !append_assoc. apply (IH H).
    rewrite length_append. lia.
  - simpl in H. apply andb_prop in H as [Hcs Hl].
    rewrite render_pieces_cons. cbn [Piece_str].
    rewrite <- append_assoc, (IH Hl) by (rewrite length_append; lia).
    rewrite append_assoc.
    pose proof (merge_runs_nonneg l Hl) as Hm.
    cbn [merge_runs]. destruct (merge_runs l) as [|[s|c] r].
    + now rewrite render_pieces_cons.
    + now rewrite !render_pieces_cons.
    + simpl in Hm. apply andb_prop in Hm as [Hc _].
      rewrite !render_pieces_cons. cbn [Piece_str].
      now apply terminal_codes_pair.
Qed.

(** ** mergeAdjacentCodes *)

Lemma add_codes (a b c : ControlCodes) :
  add a b = Ok c -> codes_of c = codes_of a ++ codes_of b.
Proof.
  destruct a as [cs|s]; simpl.
  - intros [= <-]. reflexivity.
  - destruct b as [cs'|o]; simpl; [discriminate|].
    destruct (GroupRef_is (group s) (group o)).
    + destruct (name s), (name o); simpl; try discriminate.
      intros [= <-]. reflexivity.
    + intros [= <-]. reflexivity.
Qed.

(** What the accumulator contributes to the sequence. *)
Lemma pieces_flush (accum : option ControlCodes) :
  pieces (flush accum)
  = match accum with Some a => [PCodes (codes_of a)] | None => [] end.
Proof. destruct accum; reflexivity. Qed.

(** Whenever the loop returns, it returns the runs merged, the accumulator
    counting as a code token in front of what is left to read. *)
Lemma merge_loop_pieces (buf : list CodeTok) :
  forall accum out,
    merge_loop accum buf = Ok out ->
    pieces out = merge_runs (pieces (flush accum) ++ pieces buf).
Proof.
  induction buf as [|[it|s] buf IH]; intros accum out; cbn [merge_loop].
  - intros [= <-]. rewrite app_nil_r, pieces_flush. destruct accum; reflexivity.
  - destruct accum as [a|].
    + destruct (add a it) as [a'|e] eqn:Ea; simpl; [|discriminate].
      intros H. rewrite (IH _ _ H). simpl pieces.
      rewrite (add_codes _ _ _ Ea). symmetry. apply merge_runs_codes_codes.
    + intros H. rewrite (IH _ _ H). reflexivity.
  - destruct (merge_loop None buf) as [rest|e] eqn:Er; simpl; [|discriminate].
    intros [= <-]. unfold pieces in *. rewrite map_app. cbn [map piece_of].
    rewrite (IH None rest Er). destruct accum; reflexivity.
Qed.

(** The loop returns when every code token is a named style: the
    accumulator is then a plain code sequence or a named style. *)
Lemma merge_loop_named (buf : list CodeTok) :
  forallb named_style_token buf = true ->
  forall accum,
    match accum with Some (AStyle s) => named s = true | _ => True end ->
    exists out, merge_loop accum buf = Ok out.
Proof.
  induction buf as [|[it|s] buf IH]; intros H accum Hacc; cbn [merge_loop].
  - eexists; reflexivity.
  - simpl in H. apply andb_prop in H as [Hit Hbuf].
    destruct it as [cs|o]; [discriminate|]. simpl in Hit.
    destruct accum as [[cs|a]|].
    + simpl. apply (IH Hbuf). exact I.
    + unfold named in Hit, Hacc. cbn [add Style_add].
      destruct (name a) as [na|] eqn:Ena; [|discriminate].
      destruct (name o) as [no|] eqn:Eno; [|discriminate].
      destruct (GroupRef_is (group a) (group o)); simpl; apply (IH Hbuf);
        [reflexivity | exact I].
    + apply (IH Hbuf). exact Hit.
  - simpl in H. destruct (IH H None I) as [rest ->]. eexists; reflexivity.
Qed.

(** The loop returns when every code token is of the base class. *)
Lemma merge_loop_plain (buf : list CodeTok) :
  forallb plain_codes_token buf = true ->
  forall accum,
    match accum with Some (AStyle _) => False | _ => True end ->
    exists out, merge_loop accum buf = Ok out.
Proof.
  induction buf as [|[it|s] buf IH]; intros H accum Hacc; cbn [merge_loop].
  - eexists; reflexivity.
  - simpl in H. apply andb_prop in H as [Hit Hbuf].
    destruct it as [cs|o]; [|discriminate].
    destruct accum as [[cs'|a]|]; [|contradiction|]; simpl; apply (IH Hbuf); exact I.
  - simpl in H. destruct (IH H None I) as [rest ->]. eexists; reflexivity.
Qed.

Lemma render_eq_pieces (buf : list CodeTok) : render buf = render_pieces (pieces buf).
Proof.
  unfold render, render_pieces, pieces. rewrite map_map. f_equal.
  apply map_ext. intros [c|s]; reflexivity.
Qed.

Lemma texts_eq_pieces (buf : list CodeTok) : texts buf = piece_texts (pieces buf).
Proof.
  unfold texts, piece_texts, pieces.
  induction buf as [|[c|s] buf IH]; simpl; congruence.
Qed.

Lemma nonneg_pieces (buf : list CodeTok) :
  forallb nonneg_token buf = forallb nonneg_piece (pieces buf).
Proof.
  unfold pieces. induction buf as [|[c|s] buf IH]; simpl; congruence.
Qed.

(** C6.  [mergeAdjacentCodes] is meant to replace every maximal run of
    adjacent control code tokens by one token whose codes are the codes of
    the run in order, to leave the texts unchanged and in order, and to give
    a sequence that renders to a string with the same terminal effect.  The
    program does this whenever it returns (for the terminal effect the codes
    are taken not to be negative), and it returns on every sequence whose
    code tokens are all named styles and on every sequence whose code tokens
    are all of the base class.  It breaks the claim on a run in which a style
    is followed by a control code sequence of the base class, such as the
    sum of two styles of different groups: the addition reads the attribute
    [group] of its second operand and raises [AttributeError]. *)
Theorem C6_mergeAdjacentCodes :
  (forall buf : list CodeTok,
      (forall out,
          mergeAdjacentCodes buf = Ok out ->
          pieces out = merge_runs (pieces buf) /\
          no_adjacent_codes (pieces out) /\
          texts out = texts buf /\
          (forallb nonneg_token buf = true ->
           terminal (render out) = terminal (render buf))) /\
      (forallb named_style_token buf = true \/ forallb plain_codes_token buf = true ->
       exists out, mergeAdjacentCodes buf = Ok out)) /\
  (let red := BasicColor_parse "red" 31 in
   let blue := BasicColor_parse "blue" 44 in
   let green := BasicColor_parse "lightgreenEx" 102 in
   add (AStyle red) (AStyle blue) = Ok (Codes [31; 44]) /\
   mergeAdjacentCodes [KStr "1"; KCodes (AStyle green); KCodes (Codes [31; 44]); KStr "2"]
   = Raise AttributeError).
Proof.
  split; [|split; reflexivity].
  intros buf. split.
  - intros out H. apply merge_loop_pieces in H. simpl in H.
    split; [exact H|]. rewrite !texts_eq_pieces, !render_eq_pieces, H.
    split; [apply merge_runs_no_adjacent|].
    split; [apply merge_runs_texts|].
    intros Hnn. rewrite nonneg_pieces in Hnn. symmetry.
    exact (terminal_merge_runs _ Hnn ""%string 0%nat (le_n 0)).
  - intros [H|H].
    + exact (merge_loop_named buf H None I).
    + exact (merge_loop_plain buf H None I).
Qed.

Lemma C6_mergeAdjacentCodes_witness :
  let red := BasicColor_parse "red" 31 in
  let blue := BasicColor_parse "blue" 44 in
  let green := BasicColor_parse "lightgreenEx" 102 in
  let fore_reset := BasicColor_parse "reset" 39 in
  let back_reset := BasicColor_parse "reset" 49 in
  let data :=
    [KStr "1"; KCodes (AStyle red); KCodes (AStyle blue); KStr "2";
     KCodes (AStyle green); KStr "3"; KCodes (AStyle blue); KStr "4";
     KCodes (AStyle fore_reset); KCodes (AStyle back_reset); KStr "5"] in
  exists out,
    mergeAdjacentCodes data = Ok out /\
    pieces out
    = [PText "1"; PCodes [31; 44]; PText "2"; PCodes [102]; PText "3";
       PCodes [44]; PText "4"; PCodes [39; 49]; PText "5"] /\
    texts out = ["1"; "2"; "3"; "4"; "5"]%string /\
    terminal (render out) = terminal (render data).
Proof.
  intros red blue green fore_reset back_reset data.
  destruct (proj2 (proj1 C6_mergeAdjacentCodes data) (or_introl eq_refl)) as [out Hout].
  exists out. split; [exact Hout|].
  destruct (proj1 (proj1 C6_mergeAdjacentCodes data) out Hout) as (Hp & _ & Ht & Hterm).
  split; [exact Hp|]. split; [exact Ht | exact (Hterm eq_refl)].
Defined.


(** ** Conditions carried through the pipeline *)

Section Carried.
Variable P : Style -> bool.
Variable PT : string -> bool.

Lemma setitem_forall (d : Sheet) (k : string) (v : Style) :
  sheet_forall P d = true -> P v = true -> sheet_forall P (setitem d k v) = true.
Proof.
  unfold sheet_forall. induction d as [|[k0 v0] d IH]; simpl; intros Hd Hv.
  - now rewrite Hv.
  - apply andb_prop in Hd as [H0 Hd].
    destruct (String.eqb k0 k); simpl.
    + now rewrite Hv, Hd.
    + now rewrite H0, IH.
Qed.

Lemma update_forall (d o : Sheet) :
  sheet_forall P d = true -> sheet_forall P o = true ->
  sheet_forall P (update d o) = true.
Proof.
  unfold update. revert d. induction o as [|[k v] o IH]; simpl; intros d Hd Ho.
  - exact Hd.
  - unfold sheet_forall in Ho. simpl in Ho. apply andb_prop in Ho as [Hv Ho].
    apply IH; [apply setitem_forall; assumption | exact Ho].
Qed.

Lemma getitem_forall (d : Sheet) (k : string) (v : Style) :
  sheet_forall P d = true -> getitem d k = Some v -> P v = true.
Proof.
  intros Hd Hk. apply getitem_In in Hk. unfold sheet_forall in Hd.
  rewrite forallb_forall in Hd. exact (Hd _ Hk).
Qed.

Hypothesis P_neutral : P neutral = true.
Hypothesis P_reset : Forall (fun gr => P (reset (snd gr)) = true) groups.

(** The styles of a patch are styles of the new sheet, reset styles of the
    catalog, or neutral. *)
Lemma diff_forall (old new : Sheet) :
  sheet_forall P new = true -> sheet_forall P (diff old new) = true.
Proof.
  intros Hnew. rewrite diff_eq_spec. unfold diff_spec, sheet_forall.
  rewrite Forall_forall in P_reset.
  apply forallb_forall. intros [k v] Hin.
  apply in_flat_map in Hin as [gr [Hgr Hin]].
  destruct (category_changed old new (fst gr) (snd gr)); [|contradiction].
  destruct Hin as [[= <- <-]|[]]. simpl.
  unfold normalized_new. destruct (_ && _); [exact P_neutral|].
  unfold value_or_reset. destruct (getitem new (fst gr)) as [w|] eqn:E.
  - exact (getitem_forall _ _ _ Hnew E).
  - exact (P_reset gr Hgr).
Qed.

Lemma patch_tokens_forall (old new : Sheet) :
  sheet_forall P new = true ->
  forallb (styletok_forall P PT)
          (map (fun v => KCodes (AStyle v)) (values (Sheet_sub new old))) = true.
Proof.
  intros Hnew. pose proof (diff_forall old new Hnew) as H.
  unfold Sheet_sub, values, sheet_forall in *.
  rewrite forallb_forall in H |- *. intros it Hit.
  apply in_map_iff in Hit as [v [<- Hv]].
  apply in_map_iff in Hv as [kv [<- Hkv]]. exact (H kv Hkv).
Qed.

Lemma optimize_loop_forall (buf : list SheetTok) :
  forallb (sheettok_forall (sheet_forall P) PT) buf = true ->
  forall initialState state prevState,
    sheet_forall P initialState = true -> sheet_forall P state = true ->
    forallb (styletok_forall P PT)
            (optimize_loop initialState state prevState buf) = true.
Proof.
  induction buf as [|[it|s] buf IH]; intros H init st prev Hinit Hst;
    cbn [optimize_loop].
  - now apply patch_tokens_forall.
  - simpl in H. apply andb_prop in H as [Hit Hbuf]. now apply IH.
  - simpl in H. apply andb_prop in H as [Hs Hbuf].
    rewrite forallb_app. rewrite patch_tokens_forall by assumption.
    simpl. rewrite Hs. simpl. now apply IH.
Qed.

(** The sheets that [dfs] yields are layered from the inherited sheet and
    the sheets of the tree; the texts are the texts of the tree. *)
Lemma dfs_forall (t : RichStr) :
  tree_forall (sheet_forall P) PT t = true ->
  forall inh,
    sheet_forall P inh = true ->
    forallb (sheettok_forall (sheet_forall P) PT) (dfs t inh) = true.
Proof.
  induction t as [subs own IH] using RichStr_tree_ind. intros Ht inh Hinh.
  cbn [tree_forall] in Ht. apply andb_prop in Ht as [Hown Hsubs].
  assert (Hsh : sheet_forall P (Sheet_add (Sheet_copy inh) own) = true)
    by (now apply update_forall).
  induction subs as [|c subs IHsubs]; [reflexivity|].
  inversion IH as [|? ? Hc Hrest]; subst.
  cbn [forallb] in Hsubs. apply andb_prop in Hsubs as [Hc' Hsubs].
  destruct c as [s|r].
  - rewrite dfs_Str. cbn [forallb sheettok_forall]. rewrite Hsh, Hc'. simpl.
    now apply IHsubs.
  - rewrite dfs_Rich, forallb_app. rewrite (Hc Hc' _ Hsh). simpl.
    now apply IHsubs.
Qed.

Lemma sheetRepr_forall (t : RichStr) :
  tree_forall (sheet_forall P) PT t = true ->
  forallb (sheettok_forall (sheet_forall P) PT) (sheetRepr t) = true.
Proof.
  intros Ht. unfold sheetRepr.
  assert (H0 : sheet_forall P Sheet_None = true).
  { rewrite Sheet_None_eq. unfold sheet_forall. rewrite forallb_forall.
    intros kv Hkv. apply in_map_iff in Hkv as [gr [<- Hgr]].
    rewrite Forall_forall in P_reset. exact (P_reset gr Hgr). }
  rewrite forallb_app, (dfs_forall t Ht _ H0).
  cbn [forallb sheettok_forall andb]. now rewrite H0.
Qed.

Lemma optimizeSheetsToCodes_forall (t : RichStr) :
  tree_forall (sheet_forall P) PT t = true ->
  forallb (styletok_forall P PT) (optimizeSheetsToCodes (sheetRepr t)) = true.
Proof.
  intros Ht. unfold optimizeSheetsToCodes.
  apply optimize_loop_forall; [now apply sheetRepr_forall | reflexivity | reflexivity].
Qed.
End Carried.

Lemma optimize_loop_texts (buf : list SheetTok) :
  forall initialState state prevState,
    texts (optimize_loop initialState state prevState buf) = sheet_texts buf.
Proof.
  assert (Hp : forall sh : Sheet,
             texts (map (fun v => KCodes (AStyle v)) (values sh)) = []).
  { intros sh. unfold texts, values. induction sh; simpl; auto. }
  induction buf as [|[it|s] buf IH]; intros init st prev; cbn [optimize_loop].
  - apply Hp.
  - apply IH.
  - unfold texts in *. rewrite flat_map_app, Hp. simpl. now rewrite IH.
Qed.

Lemma nonneg_reset : Forall (fun gr => nonneg_style (reset (snd gr)) = true) groups.
Proof. repeat constructor. Qed.

Lemma named_reset : Forall (fun gr => named (reset (snd gr)) = true) groups.
Proof. repeat constructor. Qed.

(** C5 (as amended).  Whenever the tree renders to a string, and its texts
    hold no escape character and the codes of its styles are not negative,
    [plain] of the tree is the rendered string with every escape sequence
    ESC [ (digits ;)* digits m removed.  The tree renders to a string when
    all its styles are named. *)
Theorem C5_plain_is_stripped_str (T : RichStr) :
  (forall s, RichStr_str T = Ok s -> clean_tree T = true ->
             remove_escapes s = plain T) /\
  (named_tree T = true -> exists s, RichStr_str T = Ok s).
Proof.
  unfold RichStr_str, optimizedCodeRepr, mergeCodes, mergeAdjacentCodes.
  split.
  - intros s Hs Hclean.
    destruct (merge_loop None (optimizeSheetsToCodes (sheetRepr T))) as [out|e] eqn:Hm;
      [|discriminate].
    simpl in Hs. injection Hs as <-.
    apply merge_loop_pieces in Hm. simpl in Hm.
    fold (render out). rewrite render_eq_pieces, Hm.
    pose proof (optimizeSheetsToCodes_forall nonneg_style no_escape
                  eq_refl nonneg_reset T Hclean) as Hok.
    assert (Hpieces : forallb clean_piece
                        (pieces (optimizeSheetsToCodes (sheetRepr T))) = true).
    { unfold pieces. rewrite forallb_forall in Hok |- *.
      intros p Hp. apply in_map_iff in Hp as [it [<- Hit]].
      specialize (Hok it Hit). destruct it as [[cs|st]|s0]; simpl in *; auto.
      discriminate. }
    rewrite remove_escapes_render by (now apply merge_runs_clean).
    rewrite merge_runs_texts, <- texts_eq_pieces.
    unfold optimizeSheetsToCodes. now rewrite optimize_loop_texts.
  - intros Hnamed.
    pose proof (optimizeSheetsToCodes_forall named (fun _ => true)
                  eq_refl named_reset T Hnamed) as Hok.
    destruct (merge_loop_named (optimizeSheetsToCodes (sheetRepr T))) with (accum := @None ControlCodes)
      as [out Hout]; [|exact I|].
    + rewrite forallb_forall in Hok |- *. intros it Hit. specialize (Hok it Hit).
      destruct it as [[cs|st]|s0]; simpl in *; auto.
    + rewrite Hout. eexists; reflexivity.
Qed.

Lemma C5_plain_is_stripped_str_witness :
  exists T s,
    reference_tree (BasicColor_parse "red" 31) (BasicColor_parse "lightgreenEx" 102)
    = Ok T /\
    RichStr_str T = Ok s /\ remove_escapes s = plain T.
Proof.
  destruct (reference_tree (BasicColor_parse "red" 31)
                           (BasicColor_parse "lightgreenEx" 102)) as [T|e] eqn:ET;
    [|discriminate].
  injection ET as ET.
  destruct (proj2 (C5_plain_is_stripped_str T)) as [s Hs]; [now subst T|].
  exists T, s. split; [reflexivity|]. split; [exact Hs|].
  apply (proj1 (C5_plain_is_stripped_str T) s Hs). now subst T.
Defined.

(** C5, the claim as stated fails: a text that itself holds an escape
    sequence is kept by [plain] and is in the rendered string, where the
    pattern removes it. *)
Lemma C5_escape_in_text_counterexample :
  let T := RichStr_init [Str (String ESC "[0m")] in
  RichStr_str T = Ok (String ESC "[0m") /\
  plain T = String ESC "[0m" /\
  remove_escapes (String ESC "[0m") = ""%string /\
  (forall s, RichStr_str T = Ok s -> remove_escapes s <> plain T).
Proof.
  repeat split. intros s [= <-]. discriminate.
Qed.

(** ** The store *)

Lemma read_app_l (h ext : Heap.heap) (a : Heap.addr) :
  (a < List.length h)%nat -> Heap.read (h ++ ext) a = Heap.read h a.
Proof. intros H. unfold Heap.read. now apply app_nth1. Qed.

Lemma read_app_last (h : Heap.heap) (d : Sheet) :
  Heap.read (h ++ [d]) (List.length h) = d.
Proof. unfold Heap.read. now rewrite nth_middle. Qed.

Lemma read_app_r (h new : Heap.heap) (a : Heap.addr) :
  (List.length h <= a)%nat -> Heap.read (h ++ new) a = nth (a - List.length h) new [].
Proof. intros H. unfold Heap.read. now apply app_nth2. Qed.

Lemma write_app_last (h : Heap.heap) (d d' : Sheet) :
  Heap.write (h ++ [d]) (List.length h) d' = h ++ [d'].
Proof. induction h as [|x h IH]; simpl; congruence. Qed.

Lemma length_app_1 (h : Heap.heap) (d : Sheet) :
  List.length (h ++ [d]) = S (List.length h).
Proof. rewrite length_app. simpl. lia. Qed.

(** Each operation on sheets leaves the store as it was and adds new
    objects behind it. *)

Lemma Heap_Sheet_copy_eq (a : Heap.addr) (h : Heap.heap) :
  Heap.Sheet_copy a h = (List.length h, h ++ [Sheet_copy (Heap.read h a)]).
Proof. reflexivity. Qed.

Lemma Heap_Sheet_or_eq (a b : Heap.addr) (h : Heap.heap) :
  (a < List.length h)%nat -> (b < List.length h)%nat ->
  Heap.Sheet_or a b h
  = (S (List.length h),
     h ++ [update (Heap.read h a) (Heap.read h b);
           Sheet_or (Heap.read h a) (Heap.read h b)]).
Proof.
  intros Ha Hb. unfold Heap.Sheet_or, Heap.alloc, Heap.update_at, Heap.Sheet_copy.
  rewrite read_app_last, (read_app_l h _ b Hb), write_app_last.
  unfold Heap.alloc. rewrite read_app_last, length_app_1, <- app_assoc.
  reflexivity.
Qed.

Lemma Heap_diff_loop (old new : Heap.addr) (h : Heap.heap) :
  (old < List.length h)%nat -> (new < List.length h)%nat ->
  forall (gs : list (string * StyleGroup)) (patch : Sheet),
    fold_left (Heap.diff_step old new (List.length h)) gs (h ++ [patch])
    = h ++ [fold_left (diff_step (Heap.read h old) (Heap.read h new)) gs patch].
Proof.
  intros Ho Hn. induction gs as [|gr gs IH]; intros patch; [reflexivity|].
  cbn [fold_left]. unfold Heap.diff_step at 2, diff_step at 2.
  rewrite (read_app_l h _ old Ho), (read_app_l h _ new Hn).
  destruct (negb _).
  - unfold Heap.setitem_at. rewrite read_app_last, write_app_last. apply IH.
  - apply IH.
Qed.

Lemma Heap_diff_eq (old new : Heap.addr) (h : Heap.heap) :
  (old < List.length h)%nat -> (new < List.length h)%nat ->
  Heap.diff old new h
  = (List.length h, h ++ [diff (Heap.read h old) (Heap.read h new)]).
Proof.
  intros Ho Hn. unfold Heap.diff, Heap.Sheet_empty, Heap.alloc, diff.
  now rewrite Heap_diff_loop.
Qed.

Lemma Heap_Sheet_None_eq (h : Heap.heap) :
  Heap.Sheet_None h = (List.length h, h ++ [Sheet_None]).
Proof.
  unfold Heap.Sheet_None, Heap.alloc, Sheet_None. f_equal.
  generalize (@nil (string * Style)). induction groups as [|gr gs IH]; intros d.
  - reflexivity.
  - cbn [fold_left]. unfold Heap.setitem_at at 2.
    rewrite read_app_last, write_app_last. apply IH.
Qed.

(** ** Values in a store that has grown *)

Lemma Heap_RichStr_tree_ind (P : Heap.RichStr -> Prop) :
  (forall subs own,
      Forall (fun c => match c with Heap.Rich r => P r | Heap.Str _ => True end) subs ->
      P (Heap.mkRichStr subs own)) ->
  forall t, P t.
Proof.
  intros H. fix IH 1. intros [subs own]. apply H.
  induction subs as [|c subs IHsubs]; constructor.
  - destruct c as [s|r]; [exact I | apply IH].
  - exact IHsubs.
Qed.

Lemma allocated_mono (n m : nat) (t : Heap.RichStr) :
  (n <= m)%nat -> allocated n t = true -> allocated m t = true.
Proof.
  intros Hnm. induction t as [subs own IH] using Heap_RichStr_tree_ind.
  cbn [allocated]. intros H. apply andb_prop in H as [Ha Hs].
  apply Nat.ltb_lt in Ha. replace (own <? m)%nat with true
    by (symmetry; apply Nat.ltb_lt; lia).
  simpl. rewrite forallb_forall in Hs |- *. intros c Hc. specialize (Hs c Hc).
  rewrite Forall_forall in IH. specialize (IH c Hc).
  destruct c as [s|r]; auto.
Qed.

Lemma value_of_app (h ext : Heap.heap) (t : Heap.RichStr) :
  allocated (List.length h) t = true -> value_of (h ++ ext) t = value_of h t.
Proof.
  induction t as [subs own IH] using Heap_RichStr_tree_ind.
  cbn [allocated value_of]. intros H. apply andb_prop in H as [Ha Hs].
  apply Nat.ltb_lt in Ha. rewrite (read_app_l h ext own Ha). f_equal.
  apply map_ext_in. intros c Hc. rewrite forallb_forall in Hs. specialize (Hs c Hc).
  rewrite Forall_forall in IH. specialize (IH c Hc).
  destruct c as [s|r]; [reflexivity | now rewrite IH].
Qed.

Lemma token_allocated_mono (n m : nat) (toks : list Heap.SheetTok) :
  (n <= m)%nat ->
  forallb (token_allocated n) toks = true -> forallb (token_allocated m) toks = true.
Proof.
  intros Hnm. rewrite !forallb_forall. intros H tok Htok. specialize (H tok Htok).
  destruct tok as [a|s]; [|reflexivity]. simpl in *.
  apply Nat.ltb_lt in H. apply Nat.ltb_lt. lia.
Qed.

Lemma token_value_app (h ext : Heap.heap) (toks : list Heap.SheetTok) :
  forallb (token_allocated (List.length h)) toks = true ->
  map (token_value (h ++ ext)) toks = map (token_value h) toks.
Proof.
  rewrite forallb_forall. intros H. apply map_ext_in. intros tok Htok.
  specialize (H tok Htok). destruct tok as [a|s]; [|reflexivity]. simpl in *.
  apply Nat.ltb_lt in H. now rewrite read_app_l.
Qed.

Lemma extends_refl (h : Heap.heap) : extends h h.
Proof. exists []. now rewrite app_nil_r. Qed.

Lemma extends_trans (h1 h2 h3 : Heap.heap) :
  extends h1 h2 -> extends h2 h3 -> extends h1 h3.
Proof. intros [e1 ->] [e2 ->]. exists (e1 ++ e2). now rewrite app_assoc. Qed.

Lemma extends_app (h new : Heap.heap) : extends h (h ++ new).
Proof. now exists new. Qed.

Lemma extends_length (h h' : Heap.heap) :
  extends h h' -> (List.length h <= List.length h')%nat.
Proof. intros [e ->]. rewrite length_app. lia. Qed.

Lemma read_extends (h h' : Heap.heap) (a : Heap.addr) :
  extends h h' -> (a < List.length h)%nat -> Heap.read h' a = Heap.read h a.
Proof. intros [e ->]. apply read_app_l. Qed.

Lemma value_of_extends (h h' : Heap.heap) (t : Heap.RichStr) :
  extends h h' -> allocated (List.length h) t = true -> value_of h' t = value_of h t.
Proof. intros [e ->]. apply value_of_app. Qed.

Lemma token_value_extends (h h' : Heap.heap) (toks : list Heap.SheetTok) :
  extends h h' -> forallb (token_allocated (List.length h)) toks = true ->
  map (token_value h') toks = map (token_value h) toks.
Proof. intros [e ->]. apply token_value_app. Qed.

(** ** Flattening over the store *)

(** [dfs] over the store only adds objects, and the sheets it yields, read
    from the store it leaves, are the sheets that [dfs] over values
    yields. *)
Lemma Heap_dfs_spec (t : Heap.RichStr) :
  forall h inh,
    (inh < List.length h)%nat -> allocated (List.length h) t = true ->
    let (toks, h') := Heap.dfs t inh h in
    extends h h' /\
    map (token_value h') toks = dfs (value_of h t) (Heap.read h inh) /\
    forallb (token_allocated (List.length h')) toks = true.
Proof.
  induction t as [subs own IH] using Heap_RichStr_tree_ind.
  intros h inh Hinh Hall. cbn [allocated] in Hall.
  apply andb_prop in Hall as [Hown Hsubs]. apply Nat.ltb_lt in Hown.
  cbn [Heap.dfs]. rewrite Heap_Sheet_copy_eq. unfold Heap.Sheet_add.
  rewrite Heap_Sheet_or_eq by (rewrite length_app_1; lia).
  rewrite read_app_last, (read_app_l h _ own Hown), length_app_1.
  set (sheet := Sheet_or (Sheet_copy (Heap.read h inh)) (Heap.read h own)).
  set (sh := S (S (List.length h))).
  set (h2 := (h ++ [Sheet_copy (Heap.read h inh)])
             ++ [update (Sheet_copy (Heap.read h inh)) (Heap.read h own); sheet]).
  assert (Hh2 : extends h h2).
  { unfold h2. rewrite <- app_assoc. apply extends_app. }
  assert (Hsh : (sh < List.length h2)%nat).
  { unfold h2, sh. rewrite !length_app. simpl. lia. }
  assert (Hread : Heap.read h2 sh = sheet).
  { unfold h2, sh.
    change [update (Sheet_copy (Heap.read h inh)) (Heap.read h own); sheet]
      with ([update (Sheet_copy (Heap.read h inh)) (Heap.read h own)] ++ [sheet]).
    rewrite app_assoc, <- (length_app_1 _ (Sheet_copy (Heap.read h inh))),
      <- (length_app_1 _ (update (Sheet_copy (Heap.read h inh)) (Heap.read h own))).
    apply read_app_last. }
  cbn [value_of dfs]. fold sheet.
  change (Sheet_add (Sheet_copy (Heap.read h inh)) (Heap.read h own)) with sheet.
  assert (Hloop : forall h1, extends h2 h1 ->
    let (toks, h') :=
      (fix loop (subs : list Heap.SubStr) (h : Heap.heap) {struct subs}
         : list Heap.SheetTok * Heap.heap :=
         match subs with
         | [] => ([], h)
         | Heap.Str s :: subs' =>
             let (rest, h0) := loop subs' h in
             (Heap.TSheet sh :: Heap.TStr s :: rest, h0)
         | Heap.Rich r :: subs' =>
             let (yielded, h0) := Heap.dfs r sh h in
             let (rest, h3) := loop subs' h0 in (yielded ++ rest, h3)
         end) subs h1 in
    extends h1 h' /\
    map (token_value h') toks
    = flat_map (fun subStr => match subStr with
                              | Rich r => dfs r sheet
                              | Str s => [TSheet sheet; TStr s]
                              end)
               (map (fun c => match c with
                              | Heap.Str s => Str s
                              | Heap.Rich r => Rich (value_of h r)
                              end) subs) /\
    forallb (token_allocated (List.length h')) toks = true).
  { clear Hinh. induction subs as [|c subs IHsubs]; intros h1 H1.
    - split; [apply extends_refl | split; reflexivity].
    - inversion IH as [|? ? Hc Hrest]; subst.
      cbn [forallb] in Hsubs. apply andb_prop in Hsubs as [Hc' Hsubs].
      specialize (IHsubs Hrest Hsubs).
      pose proof (extends_length _ _ H1) as L1.
      pose proof (extends_length _ _ Hh2) as L2.
      destruct c as [s|r].
      + specialize (IHsubs h1 H1).
        destruct ((fix loop (subs : list Heap.SubStr) (h : Heap.heap) {struct subs}
                     : list Heap.SheetTok * Heap.heap := _) subs h1) as [rest h'].
        destruct IHsubs as (E & V & A). pose proof (extends_length _ _ E) as L3.
        split; [exact E|]. split.
        * cbn [map flat_map token_value app]. rewrite V. do 2 f_equal.
          rewrite (read_extends h2 h' sh (extends_trans _ _ _ H1 E) Hsh). exact Hread.
        * cbn [forallb token_allocated]. rewrite A.
          replace (sh <? List.length h')%nat with true; [reflexivity|].
          symmetry. apply Nat.ltb_lt. lia.
      + assert (Hr : allocated (List.length h1) r = true)
          by (apply (allocated_mono (List.length h)); [lia | exact Hc']).
        specialize (Hc h1 sh ltac:(lia) Hr).
        destruct (Heap.dfs r sh h1) as [yielded h0].
        destruct Hc as (E0 & V0 & A0).
        specialize (IHsubs h0 (extends_trans _ _ _ H1 E0)).
        destruct ((fix loop (subs : list Heap.SubStr) (h : Heap.heap) {struct subs}
                     : list Heap.SheetTok * Heap.heap := _) subs h0) as [rest h'].
        destruct IHsubs as (E & V & A). pose proof (extends_length _ _ E) as L3.
        split; [exact (extends_trans _ _ _ E0 E)|]. split.
        * cbn [map flat_map]. rewrite map_app, V. f_equal.
          rewrite (token_value_extends h0 h' yielded E A0), V0.
          rewrite (value_of_extends h h1 r (extends_trans _ _ _ Hh2 H1) Hc').
          rewrite (read_extends h2 h1 sh H1 Hsh). now rewrite Hread.
        * rewrite forallb_app, A.
          now rewrite (token_allocated_mono _ _ yielded L3 A0). }
  specialize (Hloop h2 (extends_refl h2)).
  destruct ((fix loop (subs : list Heap.SubStr) (h : Heap.heap) {struct subs}
               : list Heap.SheetTok * Heap.heap := _) subs h2) as [toks h'].
  destruct Hloop as (E & V & A).
  split; [exact (extends_trans _ _ _ Hh2 E)|]. split; assumption.
Qed.

Lemma Heap_sheetRepr_spec (t : Heap.RichStr) (h : Heap.heap) :
  allocated (List.length h) t = true ->
  let (toks, h') := Heap.sheetRepr t h in
  extends h h' /\
  map (token_value h') toks = sheetRepr (value_of h t) /\
  forallb (token_allocated (List.length h')) toks = true.
Proof.
  intros Hall. unfold Heap.sheetRepr, sheetRepr. rewrite Heap_Sheet_None_eq.
  assert (E1 : extends h (h ++ [Sheet_None])) by apply extends_app.
  pose proof (Heap_dfs_spec t (h ++ [Sheet_None]) (List.length h)) as Hd.
  rewrite length_app_1 in Hd.
  specialize (Hd ltac:(lia)
                 (allocated_mono (List.length h) (S (List.length h)) t ltac:(lia) Hall)).
  destruct (Heap.dfs t (List.length h) (h ++ [Sheet_None])) as [buf h'].
  destruct Hd as (E & V & A). pose proof (extends_length _ _ E) as L.
  rewrite length_app_1 in L.
  assert (R : Heap.read h' (List.length h) = Sheet_None).
  { rewrite (read_extends _ _ _ E) by (rewrite length_app_1; lia).
    apply read_app_last. }
  split; [exact (extends_trans _ _ _ E1 E)|]. split.
  - rewrite map_app, V, read_app_last, (value_of_app h _ t Hall).
    cbn [map token_value]. now rewrite R.
  - rewrite forallb_app, A. cbn [forallb token_allocated].
    replace (List.length h <? List.length h')%nat with true; [reflexivity|].
    symmetry. apply Nat.ltb_lt. lia.
Qed.

(** ** The diffs over the store *)

Lemma Heap_optimize_loop_spec (buf : list Heap.SheetTok) :
  forall h init st prev,
    (init < List.length h)%nat -> (st < List.length h)%nat ->
    (prev < List.length h)%nat ->
    forallb (token_allocated (List.length h)) buf = true ->
    let (out, h') := Heap.optimize_loop init st prev buf h in
    extends h h' /\
    out = optimize_loop (Heap.read h init) (Heap.read h st) (Heap.read h prev)
                        (map (token_value h) buf).
Proof.
  induction buf as [|[it|s] buf IH]; intros h init st prev Hi Hs Hp Hbuf;
    cbn [Heap.optimize_loop optimize_loop map token_value].
  - unfold Heap.Sheet_sub. rewrite Heap_diff_eq by assumption.
    split; [apply extends_app|].
    unfold Heap.patch_tokens. now rewrite read_app_last.
  - cbn [forallb token_allocated] in Hbuf. apply andb_prop in Hbuf as [Hit Hbuf].
    apply Nat.ltb_lt in Hit. rewrite Heap_Sheet_copy_eq.
    set (h1 := h ++ [Sheet_copy (Heap.read h it)]).
    assert (E1 : extends h h1) by apply extends_app.
    assert (L1 : List.length h1 = S (List.length h)) by apply length_app_1.
    specialize (IH h1 init (List.length h) prev ltac:(lia) ltac:(lia) ltac:(lia)
                   (token_allocated_mono (List.length h) (List.length h1) buf
                      ltac:(lia) Hbuf)).
    destruct (Heap.optimize_loop init (List.length h) prev buf h1) as [out h'].
    destruct IH as (E & ->). split; [exact (extends_trans _ _ _ E1 E)|].
    unfold h1. rewrite read_app_last, !read_app_l by assumption.
    now rewrite (token_value_app h _ buf Hbuf).
  - cbn [forallb token_allocated] in Hbuf. simpl andb in Hbuf.
    unfold Heap.Sheet_sub. rewrite Heap_diff_eq by assumption.
    set (patch := diff (Heap.read h prev) (Heap.read h st)).
    unfold Heap.patch_tokens. rewrite read_app_last.
    rewrite Heap_Sheet_copy_eq, length_app_1, (read_app_l h _ st Hs).
    set (h2 := (h ++ [patch]) ++ [Sheet_copy (Heap.read h st)]).
    assert (E2 : extends h h2).
    { unfold h2. rewrite <- app_assoc. apply extends_app. }
    assert (L2 : List.length h2 = S (S (List.length h))).
    { unfold h2. now rewrite !length_app_1. }
    specialize (IH h2 init st (S (List.length h)) ltac:(lia) ltac:(lia) ltac:(lia)
                   (token_allocated_mono (List.length h) (List.length h2) buf
                      ltac:(lia) Hbuf)).
    destruct (Heap.optimize_loop init st (S (List.length h)) buf h2) as [rest h'].
    destruct IH as (E & ->). split; [exact (extends_trans _ _ _ E2 E)|].
    unfold Sheet_sub. fold patch. do 2 f_equal.
    rewrite !(read_extends h h2) by assumption.
    assert (R : Heap.read h2 (S (List.length h)) = Sheet_copy (Heap.read h st)).
    { unfold h2. rewrite <- (length_app_1 h patch). apply read_app_last. }
    rewrite R. destruct E2 as [new E2]. rewrite E2.
    now rewrite (token_value_app h new buf Hbuf).
Qed.

Lemma Heap_optimizeSheetsToCodes_spec (buf : list Heap.SheetTok) (h : Heap.heap) :
  forallb (token_allocated (List.length h)) buf = true ->
  let (out, h') := Heap.optimizeSheetsToCodes buf h in
  extends h h' /\ out = optimizeSheetsToCodes (map (token_value h) buf).
Proof.
  intros Hbuf. unfold Heap.optimizeSheetsToCodes, optimizeSheetsToCodes.
  unfold Heap.Sheet_empty, Heap.alloc. rewrite !Heap_Sheet_copy_eq.
  rewrite read_app_last, !length_app_1.
  match goal with
  | |- context [Heap.optimize_loop _ _ _ _ ?hh] => set (h3 := hh)
  end.
  assert (E3 : extends h h3).
  { unfold h3. rewrite <- !app_assoc. apply extends_app. }
  assert (L3 : List.length h3 = S (S (S (List.length h)))).
  { unfold h3. now rewrite !length_app_1. }
  pose proof (Heap_optimize_loop_spec buf h3 (List.length h) (S (List.length h))
                (S (S (List.length h))) ltac:(lia) ltac:(lia) ltac:(lia)
                (token_allocated_mono (List.length h) (List.length h3) buf
                   ltac:(lia) Hbuf)) as H.
  destruct (Heap.optimize_loop (List.length h) (S (List.length h))
              (S (S (List.length h))) buf h3) as [out h'].
  destruct H as (E & ->). split; [exact (extends_trans _ _ _ E3 E)|].
  assert (R0 : Heap.read h3 (List.length h) = Sheet_empty).
  { unfold h3. rewrite <- !app_assoc, read_app_r by lia.
    replace (List.length h - List.length h)%nat with 0%nat by lia. reflexivity. }
  assert (R1 : Heap.read h3 (S (List.length h)) = Sheet_copy (Sheet_copy Sheet_empty)).
  { unfold h3. rewrite <- !app_assoc, read_app_r by lia.
    replace (S (List.length h) - List.length h)%nat with 1%nat by lia. reflexivity. }
  assert (R2 : Heap.read h3 (S (S (List.length h)))
               = Sheet_copy (Sheet_copy (Sheet_copy Sheet_empty))).
  { unfold h3. rewrite <- !app_assoc, !read_app_r by lia.
    replace (S (S (List.length h)) - List.length h)%nat with 2%nat by lia.
    replace (S (List.length h) - List.length h)%nat with 1%nat by lia. reflexivity. }
  rewrite R0, R1, R2. destruct E3 as [new E3]. rewrite E3.
  now rewrite (token_value_app h new buf Hbuf).
Qed.

(** ** Rendering over the store *)

(** Rendering a node over the store only adds objects to the store, and
    gives what rendering the tree of values gives. *)
Lemma Heap_RichStr_str_spec (t : Heap.RichStr) (h : Heap.heap) :
  allocated (List.length h) t = true ->
  let (s, h') := Heap.RichStr_str t h in
  extends h h' /\ s = RichStr_str (value_of h t).
Proof.
  intros Hall. unfold Heap.RichStr_str, Heap.optimizedCodeRepr.
  pose proof (Heap_sheetRepr_spec t h Hall) as H1.
  destruct (Heap.sheetRepr t h) as [flat h1]. destruct H1 as (E1 & V1 & A1).
  pose proof (Heap_optimizeSheetsToCodes_spec flat h1 A1) as H2.
  destruct (Heap.optimizeSheetsToCodes flat h1) as [buf h2].
  destruct H2 as (E2 & ->).
  split; [exact (extends_trans _ _ _ E1 E2)|].
  unfold RichStr_str, optimizedCodeRepr. now rewrite V1.
Qed.

Lemma Heap_str_each_spec (order : list Heap.RichStr) :
  forall h,
    forallb (allocated (List.length h)) order = true ->
    let (strs, h') := Heap.str_each order h in
    extends h h' /\ strs = map (fun t => RichStr_str (value_of h t)) order.
Proof.
  induction order as [|t order IH]; intros h Hall; cbn [Heap.str_each].
  - split; [apply extends_refl | reflexivity].
  - cbn [forallb] in Hall. apply andb_prop in Hall as [Ht Horder].
    pose proof (Heap_RichStr_str_spec t h Ht) as H1.
    destruct (Heap.RichStr_str t h) as [s h1]. destruct H1 as (E1 & ->).
    pose proof (extends_length _ _ E1) as L1.
    assert (Horder1 : forallb (allocated (List.length h1)) order = true).
    { rewrite forallb_forall in Horder |- *. intros r Hr.
      exact (allocated_mono _ _ r L1 (Horder r Hr)). }
    specialize (IH h1 Horder1).
    destruct (Heap.str_each order h1) as [rest h']. destruct IH as (E & ->).
    split; [exact (extends_trans _ _ _ E1 E)|].
    cbn [map]. f_equal. apply map_ext_in. intros r Hr.
    rewrite forallb_forall in Horder.
    now rewrite (value_of_extends h h1 r E1 (Horder r Hr)).
Qed.

(** ** Rendering in any order *)

Lemma string_at_map (f : Heap.RichStr -> result string) (order : list Heap.RichStr)
      (pos : nat) :
  (pos < List.length order)%nat ->
  string_at (map f order) pos = f (at_pos order pos).
Proof.
  intros H. unfold string_at, at_pos.
  rewrite (nth_indep _ (Ok ""%string) (f (Heap.mkRichStr [] 0%nat)))
    by (now rewrite length_map).
  apply map_nth.
Qed.

(** C9.  Rendering is pure with respect to the tree.  Over a store in which
    the sheets of the nodes [order] exist, render the nodes one after the
    other (the reference strings), then render them again in the order
    [perm] of positions, each render starting from the store the previous
    one left.  Every string of the second round is the reference string of
    its node, whatever [perm] is, a permutation or not; each string is what
    the node's tree of values renders to; and every object that was in the
    store before is in it after both rounds, unchanged: no sheet of any
    node, ancestor, sibling or the node itself, is modified. *)
Theorem C9_traversal_purity (h : Heap.heap) (order : list Heap.RichStr)
        (perm : list nat) :
  forallb (allocated (List.length h)) order = true ->
  Forall (fun pos => (pos < List.length order)%nat) perm ->
  let (reference, h1) := Heap.str_each order h in
  let (permuted, h2) := Heap.str_each (map (at_pos order) perm) h1 in
  permuted = map (string_at reference) perm /\
  reference = map (fun t => RichStr_str (value_of h t)) order /\
  extends h h1 /\ extends h1 h2 /\
  (forall a, (a < List.length h)%nat ->
             Heap.read h1 a = Heap.read h a /\ Heap.read h2 a = Heap.read h a).
Proof.
  intros Hall Hperm.
  pose proof (Heap_str_each_spec order h Hall) as H1.
  destruct (Heap.str_each order h) as [reference h1]. destruct H1 as (E1 & ->).
  pose proof (extends_length _ _ E1) as L1.
  rewrite forallb_forall in Hall. rewrite Forall_forall in Hperm.
  assert (Hin : forall pos, In pos perm -> In (at_pos order pos) order).
  { intros pos Hpos. apply nth_In. exact (Hperm pos Hpos). }
  assert (Hall1 : forallb (allocated (List.length h1)) (map (at_pos order) perm) = true).
  { apply forallb_forall. intros t Ht. apply in_map_iff in Ht as [pos [<- Hpos]].
    exact (allocated_mono _ _ _ L1 (Hall _ (Hin pos Hpos))). }
  pose proof (Heap_str_each_spec (map (at_pos order) perm) h1 Hall1) as H2.
  destruct (Heap.str_each (map (at_pos order) perm) h1) as [permuted h2].
  destruct H2 as (E2 & ->).
  split; [|split; [reflexivity|split; [exact E1|split; [exact E2|]]]].
  - rewrite map_map. apply map_ext_in. intros pos Hpos.
    rewrite string_at_map by exact (Hperm pos Hpos).
    now rewrite (value_of_extends h h1 _ E1 (Hall _ (Hin pos Hpos))).
  - intros a Ha. split.
    + exact (read_extends h h1 a E1 Ha).
    + exact (read_extends h h2 a (extends_trans _ _ _ E1 E2) Ha).
Qed.

Lemma C9_traversal_purity_witness :
  let (reference, h1) := Heap.str_each chain chain_heap in
  let (permuted, h2) := Heap.str_each (map (at_pos chain) [3; 0; 2; 1]%nat) h1 in
  permuted = map (string_at reference) [3; 0; 2; 1]%nat /\
  reference = map (fun t => RichStr_str (value_of chain_heap t)) chain /\
  extends chain_heap h1 /\ extends h1 h2 /\
  (forall a, (a < List.length chain_heap)%nat ->
             Heap.read h1 a = Heap.read chain_heap a /\
             Heap.read h2 a = Heap.read chain_heap a).
Proof.
  apply (C9_traversal_purity chain_heap chain [3; 0; 2; 1]%nat).
  - reflexivity.
  - repeat constructor.
Defined.

(** The side-effect test itself: the four nodes of the chain, rendered in
    each of the twenty-four orders, every round on the store that the rounds
    before it left, give the reference strings in that order. *)
Lemma chain_all_orders :
  let (reference, h1) := Heap.str_each chain chain_heap in
  List.length (permutations [0; 1; 2; 3]%nat) = 24%nat /\
  fst (fold_left
         (fun (acc : bool * Heap.heap) (perm : list nat) =>
            let (rendered, h) := Heap.str_each (map (at_pos chain) perm) (snd acc) in
            (fst acc && same_strings rendered (map (string_at reference) perm), h))
         (permutations [0; 1; 2; 3]%nat) (true, h1))
  = true.
Proof. vm_compute. split; reflexivity. Qed.

(* ================================================================== *)
(** * Part V: further properties of the program                        *)
(* ================================================================== *)

(** ** tupleReplace *)

Lemma slice_to_nat (tup : list Z) (n : nat) :
  slice_to tup (Z.of_nat n) = firstn n tup.
Proof.
  unfold slice_to, slice_index.
  destruct (Z.ltb_spec (Z.of_nat n) 0) as [H|H]; [lia|].
  destruct (Nat.le_gt_cases n (List.length tup)) as [Hn|Hn].
  - rewrite Z.min_l by lia. now rewrite Nat2Z.id.
  - rewrite Z.min_r by lia. rewrite Nat2Z.id.
    rewrite !firstn_all2 by lia. reflexivity.
Qed.

Lemma slice_from_nat (tup : list Z) (n : nat) :
  slice_from tup (Z.of_nat n) = skipn n tup.
Proof.
  unfold slice_from, slice_index.
  destruct (Z.ltb_spec (Z.of_nat n) 0) as [H|H]; [lia|].
  destruct (Nat.le_gt_cases n (List.length tup)) as [Hn|Hn].
  - rewrite Z.min_l by lia. now rewrite Nat2Z.id.
  - rewrite Z.min_r by lia. rewrite Nat2Z.id.
    rewrite !skipn_all2 by lia. reflexivity.
Qed.

Lemma tupleReplace_first (tup : list Z) (new : Z) :
  tupleReplace tup 0 new = new :: tl tup.
Proof.
  unfold tupleReplace. change (Z.max (0 - 1) 0) with (Z.of_nat 0).
  change (0 + 1) with (Z.of_nat 1).
  rewrite slice_to_nat, slice_from_nat. destruct tup; reflexivity.
Qed.

Lemma tupleReplace_later (tup : list Z) (pos : nat) (new : Z) :
  (1 <= pos)%nat ->
  tupleReplace tup (Z.of_nat pos) new
  = firstn (pos - 1) tup ++ new :: skipn (pos + 1) tup.
Proof.
  intros H. unfold tupleReplace.
  replace (Z.max (Z.of_nat pos - 1) 0) with (Z.of_nat (pos - 1)) by lia.
  replace (Z.of_nat pos + 1) with (Z.of_nat (pos + 1)) by lia.
  now rewrite slice_to_nat, slice_from_nat.
Qed.

(** X1.  [tupleReplace(tup, pos, new)] replaces the element at [pos] only
    for [pos = 0].  For a later position inside the tuple the new element
    takes the place before [pos], the element at [pos] is removed, and the
    result is one element shorter: the elements before [pos - 1] and after
    [pos] are kept, the elements at [pos - 1] and at [pos] are both lost. *)
Theorem tupleReplace_behaviour (tup : list Z) (new : Z) :
  tupleReplace tup 0 new = new :: tl tup /\
  (forall pos : nat,
      (1 <= pos < List.length tup)%nat ->
      tupleReplace tup (Z.of_nat pos) new
      = firstn (pos - 1) tup ++ new :: skipn (pos + 1) tup /\
      List.length (tupleReplace tup (Z.of_nat pos) new) = (List.length tup - 1)%nat /\
      nth_error (tupleReplace tup (Z.of_nat pos) new) (pos - 1) = Some new /\
      nth_error (tupleReplace tup (Z.of_nat pos) new) pos = nth_error tup (pos + 1)).
Proof.
  split; [apply tupleReplace_first|].
  intros pos [H1 H2]. rewrite tupleReplace_later by assumption.
  assert (L : List.length (firstn (pos - 1) tup) = (pos - 1)%nat)
    by (rewrite length_firstn; lia).
  split; [reflexivity|]. split; [|split].
  - rewrite length_app, L. simpl. rewrite length_skipn. lia.
  - rewrite nth_error_app2 by lia. rewrite L, Nat.sub_diag. reflexivity.
  - rewrite nth_error_app2 by lia. rewrite L.
    replace (pos - (pos - 1))%nat with 1%nat by lia.
    change (nth_error (new :: skipn (pos + 1) tup) 1)
      with (nth_error (skipn (pos + 1) tup) 0).
    rewrite nth_error_skipn. f_equal. lia.
Qed.

Lemma tupleReplace_behaviour_witness :
  tupleReplace [38; 2; 255; 128; 0] 2 7 = [38; 7; 128; 0].
Proof.
  exact (proj1 (proj2 (tupleReplace_behaviour [38; 2; 255; 128; 0] 7) 2%nat
                      ltac:(simpl; lia))).
Defined.

(** ** Colours *)

Lemma Color_set_code_cons (code : Z) (rest : list Z) (new : Z) :
  Color_set_code (code :: rest) new = new :: rest.
Proof. unfold Color_set_code. now rewrite tupleReplace_first. Qed.

(** A number from 0 to [k] is one of the list, for a case by case check. *)
Lemma index_cases (k : nat) (n : Z) :
  0 <= n <= Z.of_nat k -> In n (map Z.of_nat (seq 0 (S k))).
Proof.
  intros H. apply in_map_iff. exists (Z.to_nat n). split; [lia|].
  apply in_seq. lia.
Qed.

Ltac each_index H :=
  apply (index_cases 9) in H; cbn [seq map In Z.of_nat Pos.of_succ_nat Pos.succ] in H;
  repeat (destruct H as [H|H]; [subst|]); try contradiction.

(** X2.  [BasicColor(name, basicIndex, intensive, bg)] for a basic index
    from 0 to 9 has the one code
    30 + basicIndex + (10 if bg) + (60 if intensive), as its docstring says;
    [bg] and [intensive] read back what the constructor was given, the
    group is Back exactly for a background colour, and [basicIndex] reads
    back the index plus 10 for a background colour. *)
Theorem BasicColor_init_code (n : string) (basicIndex : Z) (intensive bg : bool) :
  0 <= basicIndex <= 9 ->
  let cs := [basic_code basicIndex intensive bg] in
  BasicColor_init n basicIndex intensive bg
  = Some (mkStyle (Some n) cs (Some (if bg then "Back" else "Fore")%string)) /\
  Color_get_bg cs = Some bg /\
  BasicColor_get_intensive cs = Some intensive /\
  Color_basicIndex cs = Some (basicIndex + (if bg then 10 else 0)).
Proof.
  intros H. each_index H; destruct intensive, bg; repeat split.
Qed.

Lemma BasicColor_init_code_witness :
  BasicColor_init "lightgreenEx" 2 true true
  = Some (BasicColor_parse "lightgreenEx" 102).
Proof.
  exact (proj1 (BasicColor_init_code "lightgreenEx" 2 true true ltac:(lia))).
Defined.

(** X3.  On a colour whose first code is that of a basic colour (basic
    index from 0 to 9), the setters of [bg] and [intensive] change the first
    code to that of the same colour with the new flag and leave the other
    flag, the basic index and the remaining codes as they are: each setter
    followed by its getter gives the value set, and setting twice is setting
    once. *)
Theorem Color_setters (basicIndex : Z) (intensive bg : bool) (rest : list Z)
        (val : bool) :
  0 <= basicIndex <= 9 ->
  let cs := basic_code basicIndex intensive bg :: rest in
  Color_set_bg cs val = Some (basic_code basicIndex intensive val :: rest) /\
  BasicColor_set_intensive cs val = Some (basic_code basicIndex val bg :: rest) /\
  Color_get_bg (basic_code basicIndex intensive val :: rest) = Some val /\
  BasicColor_get_intensive (basic_code basicIndex val bg :: rest) = Some val.
Proof.
  intros H cs. unfold cs, Color_set_bg, BasicColor_set_intensive, Color_setNumeric,
    Color_get_bg, BasicColor_get_intensive, Color_code, tuple_item.
  cbn [nth_error option_map]. rewrite !Color_set_code_cons.
  each_index H; destruct intensive, bg, val; repeat split.
Qed.

Lemma Color_setters_witness :
  Color_set_bg [31] true = Some [41] /\
  BasicColor_set_intensive [31] true = Some [91].
Proof.
  pose proof (Color_setters 1 false false [] true ltac:(lia)) as H.
  split; [exact (proj1 H) | exact (proj1 (proj2 H))].
Defined.

(** X4.  [IndexedColor(name, index, bg)] is built exactly for an index
    from 0 to 255 and then has the codes (38 or 48, 5, index), 48 for a
    background colour, and the group this code computes.
    [RGBColor(name, r, g, b, bg)] has the codes (38 or 48, 2, r, g, b); its
    name is the one given or, for [None], the hexadecimal string of the
    three components, without which it is not built.  The getters read the
    components back.  A component setter goes through [tupleReplace] at a
    position after the first: after [colour.r = col] the codes are
    (code, col, g, b), the type index 2 is gone, [r] reads the old green,
    [g] the old blue, and [b] is past the end of the tuple. *)
Theorem EnchancedColor_codes_and_setters (n : option string) (index r g b col : Z)
        (bg : bool) :
  let code := if bg then 48 else 38 in
  IndexedColor_init n index bg
  = (if is_byte index then Some (IndexedColor n index bg) else None) /\
  codes (IndexedColor n index bg) = [code; 5; index] /\
  IndexedColor_index [code; 5; index] = Some index /\
  RGBColor_init n r g b bg
  = option_map (fun nm => mkStyle (Some nm) [code; 2; r; g; b]
                                  (Some (if bg then "Back" else "Fore")%string))
               (match n with Some x => Some x | None => RGB2CSSHex r g b end) /\
  (RGBColor_r [code; 2; r; g; b] = Some r /\
   RGBColor_g [code; 2; r; g; b] = Some g /\
   RGBColor_b [code; 2; r; g; b] = Some b) /\
  RGBColor_set_r [code; 2; r; g; b] col = [code; col; g; b] /\
  (RGBColor_r (RGBColor_set_r [code; 2; r; g; b] col) = Some g /\
   RGBColor_g (RGBColor_set_r [code; 2; r; g; b] col) = Some b /\
   RGBColor_b (RGBColor_set_r [code; 2; r; g; b] col) = None) /\
  RGBColor_set_g [code; 2; r; g; b] col = [code; 2; col; b] /\
  RGBColor_set_b [code; 2; r; g; b] col = [code; 2; r; col] /\
  IndexedColor_set_index [code; 5; index] col = [code; col] /\
  EnchancedColor_set_typeIndex [code; 5; index] col = [col; index].
Proof.
  assert (HI : IndexedColor_init n index bg
               = if is_byte index then Some (IndexedColor n index bg) else None).
  { unfold IndexedColor_init, IndexedColor_codes, is_byte.
    destruct ((0 <=? index) && (index <=? 255)); [|reflexivity].
    destruct bg; reflexivity. }
  assert (HR : RGBColor_init n r g b bg
               = option_map (fun nm => mkStyle (Some nm)
                                         [if bg then 48 else 38; 2; r; g; b]
                                         (Some (if bg then "Back" else "Fore")%string))
                   (match n with Some x => Some x | None => RGB2CSSHex r g b end)).
  { unfold RGBColor_init.
    destruct (match n with Some x => Some x | None => RGB2CSSHex r g b end);
      [|reflexivity].
    destruct bg; reflexivity. }
  cbv zeta. split; [exact HI|]. split; [now destruct bg|]. split; [reflexivity|].
  split; [exact HR|]. destruct bg; repeat split.
Qed.

(** ** Hexadecimal colours *)

Lemma hex_digit_value (n : Z) :
  0 <= n <= 15 -> hex_value (hex_digit n) = n /\ is_hex_digit (hex_digit n) = true.
Proof.
  intros H.
  apply (index_cases 15) in H.
  cbn [seq map In Z.of_nat Pos.of_succ_nat Pos.succ] in H.
  repeat (destruct H as [H|H]; [subst; split; reflexivity|]). contradiction.
Qed.

Lemma byte_hex_value (n : Z) :
  is_byte n = true ->
  16 * hex_value (hex_digit (n / 16)) + hex_value (hex_digit (n mod 16)) = n /\
  is_hex_digit (hex_digit (n / 16)) = true /\
  is_hex_digit (hex_digit (n mod 16)) = true.
Proof.
  unfold is_byte. intros H. apply andb_prop in H as [H0 H1].
  apply Z.leb_le in H0, H1.
  assert (Hq : 0 <= n / 16 <= 15).
  { assert (n / 16 < 16) by (apply Z.div_lt_upper_bound; lia).
    assert (0 <= n / 16) by (apply Z.div_pos; lia). lia. }
  assert (Hr : 0 <= n mod 16 <= 15) by (pose proof (Z.mod_pos_bound n 16); lia).
  destruct (hex_digit_value _ Hq) as [Vq Dq], (hex_digit_value _ Hr) as [Vr Dr].
  rewrite Vq, Vr. split; [|split; assumption].
  pose proof (Z.div_mod n 16). lia.
Qed.

(** X5.  [RGB2CSSHex(r, g, b)] returns exactly when the three numbers are
    bytes (from 0 to 255).  The result is then a number sign followed by six
    lower-case hexadecimal digits, two per component, from which the three
    components are read back; so different colours give different
    strings. *)
Theorem RGB2CSSHex_round_trip (r g b : Z) :
  (RGB2CSSHex r g b <> None <->
   is_byte r = true /\ is_byte g = true /\ is_byte b = true) /\
  (forall s,
      RGB2CSSHex r g b = Some s ->
      CSSHex_components s = Some (r, g, b) /\
      String.length s = 7%nat /\
      exists digits, s = String "#" digits /\ 
                     forallb is_hex_digit (list_ascii_of_string digits) = true) /\
  (forall r' g' b' s,
      RGB2CSSHex r g b = Some s -> RGB2CSSHex r' g' b' = Some s ->
      (r', g', b') = (r, g, b)).
Proof.
  assert (RT : forall r g b s,
             RGB2CSSHex r g b = Some s ->
             CSSHex_components s = Some (r, g, b) /\
             String.length s = 7%nat /\
             exists digits, s = String "#" digits /\
                            forallb is_hex_digit (list_ascii_of_string digits) = true).
  { clear. intros r g b s. unfold RGB2CSSHex.
    destruct (is_byte r) eqn:Hr; [|discriminate].
    destruct (is_byte g) eqn:Hg; [|discriminate].
    destruct (is_byte b) eqn:Hb; [|discriminate].
    cbn [andb]. intros [= <-].
    destruct (byte_hex_value r Hr) as (Vr & Dr1 & Dr0).
    destruct (byte_hex_value g Hg) as (Vg & Dg1 & Dg0).
    destruct (byte_hex_value b Hb) as (Vb & Db1 & Db0).
    unfold byte_hex. cbn [append CSSHex_components String.length].
    rewrite Vr, Vg, Vb.
    split; [reflexivity|]. split; [reflexivity|].
    eexists; split; [reflexivity|].
    cbn [list_ascii_of_string forallb]. now rewrite Dr1, Dr0, Dg1, Dg0, Db1, Db0. }
  split; [|split].
  - unfold RGB2CSSHex. destruct (is_byte r), (is_byte g), (is_byte b); simpl;
      split; intros H; try tauto; try congruence;
      try (destruct H as (? & ? & ?); discriminate).
  - apply RT.
  - intros r' g' b' s H H'. apply RT in H as [H _], H' as [H' _]. congruence.
Qed.

Lemma RGB2CSSHex_round_trip_witness :
  RGB2CSSHex 255 0 0 = Some "#ff0000"%string /\
  CSSHex_components "#ff0000" = Some (255, 0, 0).
Proof.
  split; [reflexivity|].
  exact (proj1 (proj1 (proj2 (RGB2CSSHex_round_trip 255 0 0)) "#ff0000"%string eq_refl)).
Defined.

(** ** Dicts with distinct keys *)

Section DictFacts.
Context {V : Type}.
Implicit Types (d o : Storage V) (k : string) (v : V).

Lemma in_keys_setitem d k v x :
  In x (keys (setitem d k v)) <-> x = k \/ In x (keys d).
Proof.
  induction d as [|[k0 v0] d IH]; simpl.
  - intuition congruence.
  - destruct (String.eqb_spec k0 k) as [->|Hk]; simpl; [intuition congruence|].
    rewrite IH. tauto.
Qed.

Lemma setitem_NoDup d k v : NoDup (keys d) -> NoDup (keys (setitem d k v)).
Proof.
  induction d as [|[k0 v0] d IH]; simpl; intros H.
  - repeat constructor. simpl. tauto.
  - inversion H as [|? ? H0 Hd]; subst.
    destruct (String.eqb_spec k0 k) as [->|Hk]; simpl.
    + now constructor.
    + constructor; [|auto]. rewrite in_keys_setitem. intros [->|Hin]; tauto.
Qed.

Lemma update_NoDup d o : NoDup (keys d) -> NoDup (keys (update d o)).
Proof.
  unfold update. revert d. induction o as [|[k v] o IH]; simpl; intros d H; auto.
  apply IH. now apply setitem_NoDup.
Qed.

Lemma In_getitem d k v : NoDup (keys d) -> In (k, v) d -> getitem d k = Some v.
Proof.
  induction d as [|[k0 v0] d IH]; simpl; intros H Hin; [contradiction|].
  inversion H as [|? ? H0 Hd]; subst.
  destruct Hin as [[= -> ->]|Hin].
  - now rewrite String.eqb_refl.
  - destruct (String.eqb_spec k0 k) as [->|Hk]; [|auto].
    exfalso. apply H0. change k with (fst (k, v)). now apply in_map.
Qed.

Lemma getitem_rev d k : NoDup (keys d) -> getitem (rev d) k = getitem d k.
Proof.
  intros H.
  assert (Hr : NoDup (keys (rev d))).
  { unfold keys. rewrite map_rev. now apply NoDup_rev. }
  destruct (getitem d k) as [v|] eqn:E.
  - apply In_getitem; [exact Hr|]. rewrite <- in_rev. now apply getitem_In.
  - destruct (getitem (rev d) k) as [w|] eqn:E'; [|reflexivity].
    apply getitem_In in E'. rewrite <- in_rev in E'.
    rewrite (In_getitem d k w H E') in E. discriminate.
Qed.

Lemma setitem_same d k v v' : setitem (setitem d k v) k v' = setitem d k v'.
Proof.
  induction d as [|[k0 v0] d IH]; simpl.
  - now rewrite String.eqb_refl.
  - destruct (String.eqb_spec k0 k) as [->|Hk]; simpl.
    + now rewrite String.eqb_refl.
    + destruct (String.eqb_spec k0 k); [contradiction|]. now rewrite IH.
Qed.

Lemma setitem_comm d k v k' v' :
  k <> k' -> In k (keys d) ->
  setitem (setitem d k v) k' v' = setitem (setitem d k' v') k v.
Proof.
  intros Hne. induction d as [|[k0 v0] d IH]; simpl; intros Hin; [contradiction|].
  destruct (String.eqb_spec k0 k) as [->|Hk]; simpl.
  - destruct (String.eqb_spec k k') as [|_]; [contradiction|]. simpl.
    now rewrite String.eqb_refl.
  - destruct (String.eqb_spec k0 k') as [->|Hk']; simpl.
    + destruct (String.eqb_spec k' k); [congruence | reflexivity].
    + destruct (String.eqb_spec k0 k); [contradiction|].
      rewrite IH; [reflexivity|]. destruct Hin; [contradiction | assumption].
Qed.

Lemma update_after_setitem o :
  forall d k v,
    ~ In k (keys o) -> In k (keys d) ->
    update (setitem d k v) o = setitem (update d o) k v.
Proof.
  unfold update. induction o as [|[k' v'] o IH]; simpl; intros d k v Hk Hin.
  - reflexivity.
  - rewrite <- IH by (try tauto; rewrite in_keys_setitem; tauto).
    f_equal. apply setitem_comm; [intros ->; tauto | exact Hin].
Qed.

Lemma update_setitem o :
  forall d k v,
    NoDup (keys o) -> update d (setitem o k v) = setitem (update d o) k v.
Proof.
  induction o as [|[k0 v0] o IH]; intros d k v H.
  - reflexivity.
  - simpl in H. inversion H as [|? ? H0 Ho]; subst. simpl setitem.
    destruct (String.eqb_spec k0 k) as [->|Hk].
    + change (update d ((k, v) :: o)) with (update (setitem d k v) o).
      change (update d ((k, v0) :: o)) with (update (setitem d k v0) o).
      rewrite <- (setitem_same d k v0 v).
      apply update_after_setitem; [exact H0|]. rewrite in_keys_setitem. tauto.
    + change (update d ((k0, v0) :: setitem o k v))
        with (update (setitem d k0 v0) (setitem o k v)).
      now rewrite IH.
Qed.

Lemma update_assoc (a b c : Storage V) :
  NoDup (keys b) -> update (update a b) c = update a (update b c).
Proof.
  revert b. induction c as [|[k v] c IH]; intros b H; [reflexivity|].
  change (update (update a b) ((k, v) :: c))
    with (update (setitem (update a b) k v) c).
  change (update b ((k, v) :: c)) with (update (setitem b k v) c).
  rewrite <- update_setitem by assumption.
  apply IH. now apply setitem_NoDup.
Qed.

Lemma update_empty_l d : NoDup (keys d) -> update [] d = d.
Proof.
  intros H.
  assert (G : forall acc, NoDup (keys (acc ++ d)) -> update acc d = acc ++ d).
  { clear H. induction d as [|[k v] d IH]; intros acc H.
    - now rewrite app_nil_r.
    - change (update acc ((k, v) :: d)) with (update (setitem acc k v) d).
      assert (Hk : ~ In k (keys acc)).
      { unfold keys in *. rewrite map_app in H. simpl in H.
        apply NoDup_remove_2 in H. rewrite in_app_iff in H. tauto. }
      rewrite setitem_fresh by exact Hk.
      rewrite IH; rewrite <- app_assoc; [reflexivity | exact H]. }
  exact (G [] H).
Qed.

Lemma getitem_update_NoDup d o k :
  NoDup (keys o) ->
  getitem (update d o) k
  = match getitem o k with Some v => Some v | None => getitem d k end.
Proof. intros H. now rewrite getitem_update, getitem_rev. Qed.
End DictFacts.

(** ** Layering *)

(** X6.  [Sheet.__or__] layers: in [a | b] every key of [b] has the value
    it has in [b] and every other key the value it has in [a].  Layering is
    associative, the empty sheet is neutral on both sides, and the keys of
    the result are the keys of [a] and the keys of [b]; they are distinct
    when those of [a] are.  (A Python dict has distinct keys; for the
    association lists used here it is the hypothesis on [b].) *)
Theorem Sheet_or_laws (a b c : Sheet) :
  NoDup (keys b) ->
  (forall k, getitem (Sheet_or a b) k
             = match getitem b k with Some v => Some v | None => getitem a k end) /\
  Sheet_or (Sheet_or a b) c = Sheet_or a (Sheet_or b c) /\
  Sheet_or a Sheet_empty = a /\
  Sheet_or Sheet_empty b = b /\
  (NoDup (keys a) -> NoDup (keys (Sheet_or a b))) /\
  (forall k, In k (keys (Sheet_or a b)) <-> In k (keys a) \/ In k (keys b)).
Proof.
  intros Hb. unfold Sheet_or, Sheet_copy, Sheet_empty.
  split; [intros k; now apply getitem_update_NoDup|].
  split; [now apply update_assoc|].
  split; [reflexivity|].
  split; [now apply update_empty_l|].
  split; [apply update_NoDup|].
  clear Hb. unfold update. revert a.
  induction b as [|[k0 v0] b IH]; intros a k; simpl; [tauto|].
  rewrite IH, in_keys_setitem. intuition congruence.
Qed.

Lemma Sheet_or_laws_witness :
  let red := BasicColor_parse "red" 31 in
  let green := BasicColor_parse "lightgreenEx" 102 in
  let cyan := BasicColor_parse "cyan" 36 in
  Sheet_or (Sheet_or Sheet_None [("Fore"%string, red)])
           [("Back"%string, green); ("Fore"%string, cyan)]
  = Sheet_or Sheet_None
             (Sheet_or [("Fore"%string, red)]
                       [("Back"%string, green); ("Fore"%string, cyan)]).
Proof.
  intros red green cyan.
  refine (proj1 (proj2 (Sheet_or_laws Sheet_None [("Fore"%string, red)]
                          [("Back"%string, green); ("Fore"%string, cyan)] _))).
  repeat constructor. simpl. tauto.
Defined.

(** ** Diffs and patches *)

Lemma Style_eq_refl (a : Style) : Style_eq a a = true.
Proof. apply tuple_eqb_refl. Qed.

Lemma Style_eq_sym (a b : Style) : Style_eq a b = Style_eq b a.
Proof. apply tuple_eqb_sym. Qed.

Lemma Style_eq_trans (a b c : Style) :
  Style_eq a b = true -> Style_eq b c = true -> Style_eq a c = true.
Proof.
  unfold Style_eq. intros H1 H2.
  destruct (tuple_eqb_spec (codes a) (codes b)) as [E1|]; [|discriminate].
  destruct (tuple_eqb_spec (codes b) (codes c)) as [E2|]; [|discriminate].
  rewrite E1, E2. apply tuple_eqb_refl.
Qed.

Lemma diff_spec_keys (old new : Sheet) (gs : list (string * StyleGroup)) (k : string) :
  In k (keys (flat_map (fun gr =>
                          if category_changed old new (fst gr) (snd gr)
                          then [(fst gr, normalized_new old new (fst gr) (snd gr))]
                          else []) gs)) ->
  In k (keys gs).
Proof.
  induction gs as [|gr gs IH]; simpl; [tauto|].
  unfold keys in *. rewrite map_app, in_app_iff.
  destruct (category_changed old new (fst gr) (snd gr)); simpl; tauto.
Qed.

Lemma diff_NoDup (old new : Sheet) : NoDup (keys (diff old new)).
Proof.
  rewrite diff_eq_spec. unfold diff_spec. generalize groups_keys_NoDup.
  induction groups as [|gr gs IH]; simpl; intros H; [constructor|].
  inversion H as [|? ? H0 Hgs]; subst.
  destruct (category_changed old new (fst gr) (snd gr)); simpl; [|auto].
  constructor; [|auto]. intros Hin. apply H0. exact (diff_spec_keys _ _ _ _ Hin).
Qed.

(** What a patch holds for a category of the catalog. *)
Lemma getitem_diff (old new : Sheet) (gr : string) (g : StyleGroup) :
  In (gr, g) groups ->
  getitem (diff old new) gr
  = if category_changed old new gr g then Some (normalized_new old new gr g) else None.
Proof.
  intros Hin. destruct (category_changed old new gr g) eqn:E.
  - apply In_getitem; [apply diff_NoDup|].
    rewrite diff_eq_spec. unfold diff_spec. apply in_flat_map.
    exists (gr, g). split; [exact Hin|]. simpl. rewrite E. now left.
  - destruct (getitem (diff old new) gr) as [v|] eqn:Eg; [|reflexivity].
    apply getitem_In in Eg. rewrite diff_eq_spec in Eg. unfold diff_spec in Eg.
    apply in_flat_map in Eg as [[gr' g'] [Hin' Hv]]. simpl in Hv.
    destruct (category_changed old new gr' g') eqn:E'; [|contradiction].
    destruct Hv as [[= -> <-]|[]].
    rewrite (groups_functional gr g' g Hin' Hin) in E'. congruence.
Qed.

Lemma diff_same_on_catalog (a b : Sheet) :
  same_on_catalog a b -> diff a b = Sheet_empty.
Proof.
  intros H. rewrite diff_eq_spec. unfold diff_spec, same_on_catalog in *.
  induction groups as [|gr gs IH]; [reflexivity|].
  inversion H as [|? ? Hgr Hgs]; subst. simpl. rewrite (IH Hgs).
  unfold category_changed, normalized_new.
  destruct (Style_eq (value_or_reset a (fst gr) (snd gr)) neutral
            && Style_eq (value_or_reset b (fst gr) (snd gr)) (reset (snd gr))) eqn:C.
  - apply andb_prop in C as [C _]. now rewrite C.
  - now rewrite Hgr.
Qed.

Lemma same_on_catalog_refl (a : Sheet) : same_on_catalog a a.
Proof. apply Forall_forall. intros gr _. apply Style_eq_refl. Qed.

(** X7.  The patch is empty whenever the two sheets hold, up to [==], the
    same style for every category of the catalog (a missing category
    counting as its reset); entries under keys that are no category of the
    catalog play no part.  In particular [diff(S, S)] is empty for every
    sheet [S]. *)
Theorem diff_empty (old new : Sheet) :
  (same_on_catalog old new -> diff old new = Sheet_empty) /\
  diff old old = Sheet_empty /\
  (forall k v, ~ In k (keys groups) ->
               diff (setitem old k v) new = diff old new /\
               diff old (setitem new k v) = diff old new).
Proof.
  pose proof diff_same_on_catalog as G.
  split; [apply G|]. split.
  - apply G, same_on_catalog_refl.
  - intros k v Hk.
    assert (E : Forall (fun gr => value_or_reset (setitem old k v) (fst gr) (snd gr)
                                  = value_or_reset old (fst gr) (snd gr)) groups
                /\ Forall (fun gr => value_or_reset (setitem new k v) (fst gr) (snd gr)
                                     = value_or_reset new (fst gr) (snd gr)) groups).
    { split; apply Forall_forall; intros gr Hgr; unfold value_or_reset;
        rewrite getitem_setitem;
        (destruct (String.eqb_spec k (fst gr)) as [->|]; [|reflexivity]);
        exfalso; apply Hk; unfold keys; now apply in_map. }
    destruct E as [E1 E2]. split; apply diff_ext; try assumption.
    + apply (Forall_refl_groups (fun gr => value_or_reset new (fst gr) (snd gr))).
    + apply (Forall_refl_groups (fun gr => value_or_reset old (fst gr) (snd gr))).
Qed.

Lemma diff_empty_witness :
  diff [("Fore"%string, BasicColor_parse "red" 31)]
       [("Back"%string, BasicColor_parse "reset" 49);
        ("Fore"%string, BasicColor_parse "fg_red" 31)]
  = Sheet_empty.
Proof.
  apply (proj1 (diff_empty _ _)). repeat constructor.
Defined.

(** ** Applying a patch *)

Lemma value_or_reset_Sheet_or (a p : Sheet) (gr : string) (g : StyleGroup) :
  NoDup (keys p) ->
  value_or_reset (Sheet_or a p) gr g
  = match getitem p gr with Some v => v | None => value_or_reset a gr g end.
Proof.
  intros H. unfold value_or_reset, Sheet_or, Sheet_copy.
  rewrite getitem_update_NoDup by assumption. now destruct (getitem p gr).
Qed.

(** A patch computed from [old], applied to a sheet that agrees with [old],
    gives the new value of every category, after the normalization that
    [diff] makes. *)
Lemma value_after_patch (R old new : Sheet) (gr : string) (g : StyleGroup) :
  In (gr, g) groups ->
  Style_eq (value_or_reset R gr g) (value_or_reset old gr g) = true ->
  Style_eq (value_or_reset (Sheet_or R (diff old new)) gr g)
           (normalized_new old new gr g) = true.
Proof.
  intros Hin HR. rewrite value_or_reset_Sheet_or by apply diff_NoDup.
  rewrite (getitem_diff old new gr g Hin).
  destruct (category_changed old new gr g) eqn:E.
  - apply Style_eq_refl.
  - unfold category_changed in E. apply negb_false_iff in E.
    exact (Style_eq_trans _ _ _ HR E).
Qed.

Lemma normalized_new_coded (old new : Sheet) (gr : string) (g : StyleGroup) :
  has_codes (value_or_reset old gr g) = true ->
  normalized_new old new gr g = value_or_reset new gr g.
Proof.
  unfold has_codes, normalized_new. intros H. apply negb_true_iff in H.
  now rewrite H.
Qed.

(** X8.  A patch can be applied: for every category of the catalog, the
    old sheet layered with [diff(old, new)] holds, up to [==], the style
    that [diff] took as the new one, that is the style of the new sheet,
    except that it stays neutral where the old style is neutral and the new
    one is the reset.  So when the old sheet holds no style without codes,
    [old | diff(old, new)] and [new] agree on every category. *)
Theorem patch_applies (old new : Sheet) :
  Forall (fun gr =>
            Style_eq (value_or_reset (Sheet_or old (diff old new)) (fst gr) (snd gr))
                     (normalized_new old new (fst gr) (snd gr)) = true) groups /\
  (coded_on_catalog old -> same_on_catalog (Sheet_or old (diff old new)) new).
Proof.
  assert (G : Forall (fun gr =>
            Style_eq (value_or_reset (Sheet_or old (diff old new)) (fst gr) (snd gr))
                     (normalized_new old new (fst gr) (snd gr)) = true) groups).
  { apply Forall_forall. intros [gr g] Hin. simpl.
    apply value_after_patch; [exact Hin | apply Style_eq_refl]. }
  split; [exact G|]. intros Hc. unfold same_on_catalog, coded_on_catalog in *.
  rewrite Forall_forall in *. intros gr Hgr.
  rewrite <- (normalized_new_coded old new _ _ (Hc gr Hgr)). exact (G gr Hgr).
Qed.

Lemma patch_applies_witness :
  let red := BasicColor_parse "red" 31 in
  let green := BasicColor_parse "lightgreenEx" 102 in
  same_on_catalog
    (Sheet_or [("Fore"%string, red)]
              (diff [("Fore"%string, red)] [("Back"%string, green)]))
    [("Back"%string, green)].
Proof.
  intros red green.
  apply (proj2 (patch_applies [("Fore"%string, red)] [("Back"%string, green)])).
  repeat constructor.
Defined.

(** ** Sheet(list) *)

Lemma find_append {A : Type} (f : A -> bool) (l l' : list A) :
  find f (l ++ l') = match find f l with Some x => Some x | None => find f l' end.
Proof.
  induction l as [|x l IH]; [reflexivity|]. simpl. now destruct (f x).
Qed.

Lemma Sheet_of_list_from_spec (l : list Style) :
  forall acc d,
    Sheet_of_list_from acc l = Ok d ->
    (NoDup (keys acc) -> NoDup (keys d)) /\
    forall g, getitem d g
              = match last_of_group l g with
                | Some n => Some n
                | None => getitem acc g
                end.
Proof.
  unfold last_of_group.
  induction l as [|n l IH]; intros acc d; cbn [Sheet_of_list_from].
  - intros [= <-]. split; [auto | reflexivity].
  - destruct (group n) as [gn|] eqn:En; [|discriminate].
    intros H. destruct (IH _ _ H) as [Hnd Hget]. split.
    + intros Hacc. apply Hnd. now apply setitem_NoDup.
    + intros g. rewrite Hget. cbn [rev]. rewrite find_append.
      destruct (find _ (rev l)); [reflexivity|].
      rewrite getitem_setitem. cbn [find]. rewrite En. cbn [GroupRef_is].
      destruct (String.eqb gn g); reflexivity.
Qed.

Lemma Sheet_of_list_from_total (l : list Style) :
  forall acc,
    (Forall (fun n => group n <> None) l -> exists d, Sheet_of_list_from acc l = Ok d) /\
    (Exists (fun n => group n = None) l -> Sheet_of_list_from acc l = Raise AttributeError).
Proof.
  induction l as [|n l IH]; intros acc; cbn [Sheet_of_list_from].
  - split; [eexists; reflexivity | intros H; inversion H].
  - split.
    + intros H. inversion H as [|? ? Hn Hl]; subst.
      destruct (group n); [|congruence]. now apply IH.
    + intros H. destruct (group n) eqn:En; [|reflexivity].
      inversion H as [? ? Hn|? ? Hl]; subst; [congruence|]. now apply IH.
Qed.

(** X9.  [Sheet(list of styles)] raises [AttributeError] when one of the
    styles has no group.  Otherwise it holds, under the name of each group
    that occurs, the last style of that group in the list, and nothing under
    any other key; the keys are distinct.  [Sheet([style])] is
    [Sheet(style)]. *)
Theorem Sheet_of_list_last_wins (l : list Style) :
  (Exists (fun n => group n = None) l -> Sheet_of_list l = Raise AttributeError) /\
  (Forall (fun n => group n <> None) l ->
   exists d, Sheet_of_list l = Ok d /\ NoDup (keys d) /\
             forall g, getitem d g = last_of_group l g) /\
  (forall s, Sheet_of_list [s] = Sheet_of_Style s).
Proof.
  unfold Sheet_of_list. split; [|split].
  - intros H. now rewrite (proj2 (Sheet_of_list_from_total l []) H).
  - intros H. destruct (proj1 (Sheet_of_list_from_total l []) H) as [d Hd].
    exists d. rewrite Hd. split; [reflexivity|].
    destruct (Sheet_of_list_from_spec l [] d Hd) as [Hnd Hget].
    split; [apply Hnd; constructor|].
    intros g. rewrite Hget. now destruct (last_of_group l g).
  - intros s. unfold Sheet_of_Style. cbn [Sheet_of_list_from].
    destruct (group s); reflexivity.
Qed.

Lemma Sheet_of_list_last_wins_witness :
  let red := BasicColor_parse "red" 31 in
  let cyan := BasicColor_parse "cyan" 36 in
  let blue := BasicColor_parse "blue" 44 in
  Sheet_of_list [red; blue; cyan] = Ok [("Fore"%string, cyan); ("Back"%string, blue)] /\
  Sheet_of_list [red; Style_init "bold" [1]] = Raise AttributeError.
Proof.
  intros red cyan blue. split; [reflexivity|].
  apply (proj1 (Sheet_of_list_last_wins [red; Style_init "bold" [1]])).
  right. left. reflexivity.
Defined.

(** ** The patches of optimizeSheetsToCodes, replayed *)

Lemma optimize_loop_stream (buf : list SheetTok) :
  forall init st prev,
    optimize_loop init st prev buf
    = flat_map stream_tokens (patch_stream init st prev buf).
Proof.
  induction buf as [|[it|s] buf IH]; intros init st prev;
    cbn [optimize_loop patch_stream flat_map stream_tokens].
  - now rewrite app_nil_r.
  - apply IH.
  - unfold patch_values. now rewrite IH.
Qed.

Lemma has_codes_reset :
  Forall (fun gr => has_codes (reset (snd gr)) = true) groups.
Proof. repeat constructor. Qed.

Lemma sheet_forall_coded (sh : Sheet) :
  sheet_forall has_codes sh = true -> coded_on_catalog sh.
Proof.
  intros H. unfold coded_on_catalog. apply Forall_forall. intros gr Hgr.
  unfold value_or_reset. destruct (getitem sh (fst gr)) as [v|] eqn:E.
  - apply getitem_In in E. unfold sheet_forall in H.
    rewrite forallb_forall in H. exact (H _ E).
  - pose proof has_codes_reset as R. rewrite Forall_forall in R. exact (R gr Hgr).
Qed.

Lemma same_after_patch (R old new : Sheet) :
  same_on_catalog R old -> coded_on_catalog old ->
  same_on_catalog (Sheet_or R (diff old new)) new.
Proof.
  unfold same_on_catalog, coded_on_catalog. rewrite !Forall_forall.
  intros HR Hc [gr g] Hgr. cbn [fst snd].
  rewrite <- (normalized_new_coded old new gr g (Hc _ Hgr)).
  apply value_after_patch; [exact Hgr | exact (HR _ Hgr)].
Qed.

Lemma replay_patch_stream (buf : list SheetTok) :
  forall init st prev R,
    same_on_catalog R prev ->
    coded_on_catalog prev ->
    coded_on_catalog st ->
    forallb (sheettok_forall (sheet_forall has_codes) (fun _ => true)) buf = true ->
    Forall2 same_leaf (fst (replay R (patch_stream init st prev buf)))
                      (in_effect st buf) /\
    same_on_catalog (snd (replay R (patch_stream init st prev buf))) init.
Proof.
  induction buf as [|[it|s] buf IH]; intros init st prev R HR Hprev Hst Hbuf;
    cbn [patch_stream in_effect].
  - cbn [replay fst snd]. split; [constructor|].
    unfold Sheet_sub. now apply same_after_patch.
  - cbn [forallb sheettok_forall] in Hbuf. apply andb_prop in Hbuf as [Hit Hbuf].
    apply IH; try assumption. now apply sheet_forall_coded.
  - cbn [forallb sheettok_forall] in Hbuf. cbn [andb] in Hbuf.
    cbn [replay]. unfold Sheet_sub, Sheet_copy.
    assert (HR1 : same_on_catalog (Sheet_or R (diff prev st)) st)
      by now apply same_after_patch.
    destruct (IH init st st _ HR1 Hst Hst Hbuf) as [H1 H2].
    unfold Sheet_copy in *.
    destruct (replay (Sheet_or R (diff prev st)) (patch_stream init st st buf))
      as [l final]. cbn [fst snd] in *. split; [|exact H2].
    constructor; [|exact H1]. split; [exact HR1 | reflexivity].
Qed.

Lemma in_effect_leaves (l : list (Sheet * string)) (st last : Sheet) :
  in_effect st (flat_map snapshot_then_text l ++ [TSheet last]) = l.
Proof.
  revert st. induction l as [|[sh s] l IH]; intros st; [reflexivity|].
  cbn [flat_map snapshot_then_text fst snd app in_effect]. unfold Sheet_copy.
  now rewrite IH.
Qed.

(** X10.  What [optimizeSheetsToCodes] emits for a tree is a stream of
    patches, one before every text and one at the end, each given by the
    values of a [-] of two sheets.  For a tree that holds no style without
    codes, layering these patches one after the other with [|] over the
    empty sheet reproduces the flattening: at every text, what is in effect
    agrees on every category of the catalog with the sheet that [dfs]
    yielded for this text, and after the last patch every category is back
    at its reset style. *)
Theorem optimizeSheetsToCodes_replay (T : RichStr) :
  coded_tree T = true ->
  let stream := patch_stream Sheet_empty Sheet_empty Sheet_empty (sheetRepr T) in
  optimizeSheetsToCodes (sheetRepr T) = flat_map stream_tokens stream /\
  Forall2 same_leaf (fst (replay Sheet_empty stream)) (leaves T Sheet_None) /\
  same_on_catalog (snd (replay Sheet_empty stream)) Sheet_empty.
Proof.
  intros HT stream. split.
  - apply optimize_loop_stream.
  - assert (Hbuf := sheetRepr_forall has_codes (fun _ => true) has_codes_reset T HT).
    assert (He : coded_on_catalog Sheet_empty)
      by (apply sheet_forall_coded; reflexivity).
    assert (Hs : same_on_catalog Sheet_empty Sheet_empty).
    { apply Forall_forall. intros gr _. apply Style_eq_refl. }
    destruct (replay_patch_stream (sheetRepr T) Sheet_empty Sheet_empty Sheet_empty
                Sheet_empty Hs He He Hbuf) as [H1 H2].
    split; [|exact H2].
    unfold sheetRepr in H1 at 2. rewrite dfs_leaves, in_effect_leaves in H1.
    exact H1.
Qed.

Lemma optimizeSheetsToCodes_replay_witness :
  let red := BasicColor_parse "red" 31 in
  let green := BasicColor_parse "lightgreenEx" 102 in
  let T := mkRichStr [Str "a"; Rich (mkRichStr [Str "b"] [("Back"%string, green)])]
                     [("Fore"%string, red)] in
  let stream := patch_stream Sheet_empty Sheet_empty Sheet_empty (sheetRepr T) in
  coded_tree T = true /\
  same_on_catalog (snd (replay Sheet_empty stream)) Sheet_empty.
Proof.
  intros red green T stream. split; [reflexivity|].
  apply (optimizeSheetsToCodes_replay T). reflexivity.
Defined.

(** ** The text of a tree *)

Lemma sheet_texts_app (a b : list SheetTok) :
  sheet_texts (a ++ b) = sheet_texts a ++ sheet_texts b.
Proof. unfold sheet_texts. apply flat_map_app. Qed.

Lemma dfs_text_list (t : RichStr) :
  forall inh, sheet_texts (dfs t inh) = text_list t.
Proof.
  induction t as [subs own IH] using RichStr_tree_ind. intros inh.
  induction subs as [|c subs IHsubs]; [reflexivity|].
  inversion IH as [|? ? Hc Hsubs]; subst. destruct c as [s|r].
  - rewrite dfs_Str. cbn [sheet_texts flat_map app text_list].
    f_equal. exact (IHsubs Hsubs).
  - rewrite dfs_Rich, sheet_texts_app, (Hc _).
    cbn [text_list flat_map]. f_equal. exact (IHsubs Hsubs).
Qed.

Lemma plain_text_list (t : RichStr) : plain t = join "" (text_list t).
Proof.
  unfold plain, sheetRepr. fold (sheet_texts (dfs t Sheet_None ++ [TSheet Sheet_None])).
  rewrite sheet_texts_app, dfs_text_list. cbn [sheet_texts flat_map].
  now rewrite app_nil_r.
Qed.

Lemma plain_node (subs : list SubStr) (own : Sheet) :
  plain (mkRichStr subs own) = join "" (map SubStr_plain subs).
Proof.
  rewrite plain_text_list. cbn [text_list].
  induction subs as [|c subs IH]; [reflexivity|].
  cbn [flat_map map]. rewrite join_empty_app, join_empty_cons, IH.
  destruct c as [s|r]; cbn [SubStr_plain].
  - change (join "" [s]) with s. reflexivity.
  - now rewrite plain_text_list.
Qed.

(** X11.  [plain] does not depend on any style and is compositional: the
    plain text of a node is the concatenation of the plain texts of its
    elements, whatever its sheet; so [plain(a + b)] is
    [plain(a) + plain(b)], the same with the operands exchanged for
    [__radd__], [+=] appends the plain text of what is appended, and the
    plain text of [style(...)] is that of its arguments. *)
Theorem plain_compositional :
  (forall subs own, plain (mkRichStr subs own) = join "" (map SubStr_plain subs)) /\
  (forall a b, plain (RichStr_add a b) = (plain a ++ SubStr_plain b)%string) /\
  (forall a b, plain (RichStr_radd a b) = (SubStr_plain b ++ plain a)%string) /\
  (forall a b, plain (RichStr_iadd a b) = (plain a ++ SubStr_plain b)%string) /\
  (forall a l, plain (RichStr_iadd_list a l)
               = (plain a ++ join "" (map SubStr_plain l))%string) /\
  (forall st args r, Style_call st args = Ok r ->
                     plain r = join "" (map SubStr_plain args)).
Proof.
  split; [exact plain_node|].
  split; [intros a b; unfold RichStr_add, RichStr_init; rewrite plain_node;
          cbn [map SubStr_plain]; rewrite join_empty_cons;
          now change (join "" [SubStr_plain b]) with (SubStr_plain b)|].
  split; [intros a b; unfold RichStr_radd, RichStr_init; rewrite plain_node;
          cbn [map SubStr_plain]; rewrite join_empty_cons;
          now change (join "" [plain a]) with (plain a)|].
  split; [intros [subs own] b; unfold RichStr_iadd; cbn [subStrs sheet];
          rewrite !plain_node, map_app, join_empty_app;
          now change (join "" (map SubStr_plain [b])) with (SubStr_plain b)|].
  split; [intros [subs own] l; unfold RichStr_iadd_list; cbn [subStrs sheet];
          now rewrite !plain_node, map_app, join_empty_app|].
  intros st args r. unfold Style_call, Sheet_of_Style.
  destruct (group st); [|discriminate]. intros [= <-]. apply plain_node.
Qed.

(** ** rsjoin *)

Lemma concat_interleaved (d : SubStr) (rest : list SubStr) (first : SubStr) :
  join "" (map SubStr_plain (first :: flat_map (fun item => [d; item]) rest))
  = String.concat (SubStr_plain d) (map SubStr_plain (first :: rest)).
Proof.
  revert first. induction rest as [|x rest IH]; intros first.
  - cbn [flat_map map String.concat]. reflexivity.
  - cbn [flat_map app map]. rewrite join_empty_cons, join_empty_cons.
    specialize (IH x). cbn [map] in IH. rewrite IH.
    cbn [String.concat]. reflexivity.
Qed.

(** X12.  [rsjoin(delim, items)], and so [delim.join(items)], behaves as
    [str.join] on the plain texts: with at least one item it returns an
    unstyled node whose plain text is the plain texts of the items joined
    by the plain text of the delimiter, and which holds the items with the
    delimiter between them (the items alone for an empty string as the
    delimiter).  Without any item it raises for every delimiter that is
    true, a rich string included, and returns the empty node for the empty
    string. *)
Theorem rsjoin_plain (delim : SubStr) (items : list SubStr) :
  (items <> [] ->
   exists r, rsjoin delim items = Some r /\
             sheet r = Sheet_empty /\
             plain r = String.concat (SubStr_plain delim) (map SubStr_plain items) /\
             List.length (subStrs r)
             = (if truthy delim then 2 * List.length items - 1
                else List.length items)%nat) /\
  rsjoin delim [] = (if truthy delim then None else Some (RichStr_init [])) /\
  (forall self, RichStr_join self [] = None).
Proof.
  split; [|split; [reflexivity | reflexivity]].
  intros Hne. destruct items as [|first rest]; [congruence|].
  unfold rsjoin. destruct (truthy delim) eqn:Et.
  - cbn [interleavedChain option_map]. eexists. split; [reflexivity|].
    unfold RichStr_init. cbn [sheet subStrs]. split; [reflexivity|].
    split; [rewrite plain_node; apply concat_interleaved|].
    cbn [List.length]. clear. induction rest as [|x rest IH]; [reflexivity|].
    cbn [flat_map app List.length]. rewrite IH. cbn [List.length]. lia.
  - eexists. split; [reflexivity|]. unfold RichStr_init. cbn [sheet subStrs].
    split; [reflexivity|]. split; [|reflexivity].
    rewrite plain_node. destruct delim as [s|r]; [|discriminate].
    cbn [truthy] in Et. apply negb_false_iff, String.eqb_eq in Et. subst s.
    reflexivity.
Qed.

Lemma rsjoin_plain_witness :
  exists r, rsjoin (Str ", ") [Str "a"; Rich (RichStr_init [Str "b"]); Str "c"] = Some r /\
            plain r = "a, b, c"%string.
Proof.
  destruct (proj1 (rsjoin_plain (Str ", ")
                     [Str "a"; Rich (RichStr_init [Str "b"]); Str "c"]))
    as [r [Hr [_ [Hp _]]]]; [discriminate|].
  exists r. split; [exact Hr|]. rewrite Hp. reflexivity.
Defined.

(** ** Trees with the same flattening *)

Lemma Sheet_add_empty (inh : Sheet) : Sheet_add (Sheet_copy inh) Sheet_empty = inh.
Proof. reflexivity. Qed.

Lemma dfs_app (xs ys : list SubStr) (own inh : Sheet) :
  dfs (mkRichStr (xs ++ ys) own) inh
  = dfs (mkRichStr xs own) inh ++ dfs (mkRichStr ys own) inh.
Proof. cbn [dfs]. apply flat_map_app. Qed.

Lemma dfs_wrapper (t : RichStr) (inh : Sheet) :
  dfs (RichStr_init [Rich t]) inh = dfs t inh.
Proof.
  unfold RichStr_init. rewrite dfs_Rich. cbn [dfs flat_map].
  now rewrite app_nil_r.
Qed.

(** X13.  The string, the code representation and the plain text of a tree
    are functions of its flattening, and an unstyled node is transparent
    for the flattening: wrapping a tree in [RichStr(...)] changes nothing,
    [+] is associative, and a node can be split in two nodes with its sheet
    under an unstyled one.  [a += s] differs from [a + s] for a text [s]:
    the first puts the text under the sheet of [a], the second leaves it
    with the inherited sheet. *)
Theorem unstyled_nodes_transparent :
  (forall a b, sheetRepr a = sheetRepr b ->
               RichStr_str a = RichStr_str b /\
               optimizedCodeRepr a = optimizedCodeRepr b /\
               plain a = plain b) /\
  (forall t, sheetRepr (RichStr_init [Rich t]) = sheetRepr t) /\
  (forall a b c,
      sheetRepr (RichStr_add (RichStr_add a (Rich b)) c)
      = sheetRepr (RichStr_add a (Rich (RichStr_add b c)))) /\
  (forall xs ys own,
      sheetRepr (RichStr_init [Rich (mkRichStr xs own); Rich (mkRichStr ys own)])
      = sheetRepr (mkRichStr (xs ++ ys) own)) /\
  (forall a s,
      sheetRepr (RichStr_add a (Str s))
      = dfs a Sheet_None ++ [TSheet Sheet_None; TStr s; TSheet Sheet_None] /\
      sheetRepr (RichStr_iadd a (Str s))
      = dfs a Sheet_None
        ++ [TSheet (Sheet_add Sheet_None (sheet a)); TStr s; TSheet Sheet_None]).
Proof.
  split; [|split; [|split; [|split]]].
  - intros a b H. unfold RichStr_str, optimizedCodeRepr, plain. now rewrite H.
  - intros t. unfold sheetRepr. now rewrite dfs_wrapper.
  - intros a b c. unfold sheetRepr, RichStr_add, RichStr_init. f_equal.
    destruct c as [s|r];
      repeat (rewrite ?dfs_Rich, ?dfs_Str, ?Sheet_add_empty; cbn [dfs flat_map]);
      now rewrite ?app_nil_r, <- ?app_assoc.
  - intros xs ys own. unfold sheetRepr, RichStr_init. f_equal.
    rewrite !dfs_Rich, !Sheet_add_empty, dfs_app. cbn [dfs flat_map].
    now rewrite app_nil_r.
  - intros [subs own] s. split.
    + unfold sheetRepr, RichStr_add, RichStr_init.
      rewrite dfs_Rich, dfs_Str, !Sheet_add_empty. cbn [dfs flat_map].
      now rewrite <- app_assoc.
    + unfold sheetRepr, RichStr_iadd. cbn [subStrs sheet].
      rewrite dfs_app, dfs_Str. cbn [dfs flat_map]. unfold Sheet_copy.
      now rewrite <- app_assoc.
Qed.

(** X14.  Nesting is layering: for sheets with distinct keys, as the dicts
    behind them have, a node with the sheet [b] alone under a node with the
    sheet [a] flattens, and so renders, as the same elements under the one
    sheet [a | b]. *)
Theorem nesting_is_layering (a b : Sheet) (subs : list SubStr) :
  NoDup (keys a) ->
  sheetRepr (mkRichStr [Rich (mkRichStr subs b)] a)
  = sheetRepr (mkRichStr subs (Sheet_or a b)) /\
  RichStr_str (mkRichStr [Rich (mkRichStr subs b)] a)
  = RichStr_str (mkRichStr subs (Sheet_or a b)).
Proof.
  intros Ha.
  assert (H : sheetRepr (mkRichStr [Rich (mkRichStr subs b)] a)
              = sheetRepr (mkRichStr subs (Sheet_or a b))).
  { unfold sheetRepr. f_equal. rewrite dfs_Rich. cbn [dfs flat_map].
    rewrite app_nil_r. unfold Sheet_add, Sheet_or, Sheet_copy.
    now rewrite (update_assoc Sheet_None a b Ha). }
  split; [exact H|]. unfold RichStr_str, optimizedCodeRepr. now rewrite H.
Qed.

Lemma nesting_is_layering_witness :
  let red := BasicColor_parse "red" 31 in
  let green := BasicColor_parse "lightgreenEx" 102 in
  RichStr_str (mkRichStr [Rich (mkRichStr [Str "x"] [("Back"%string, green)])]
                         [("Fore"%string, red)])
  = RichStr_str (mkRichStr [Str "x"] [("Fore"%string, red); ("Back"%string, green)]).
Proof.
  intros red green.
  assert (Hk : NoDup (keys [("Fore"%string, red)]))
    by (repeat constructor; simpl; tauto).
  exact (proj2 (nesting_is_layering [("Fore"%string, red)] [("Back"%string, green)]
                  [Str "x"] Hk)).
Defined.

(** ** Trees without styles *)

Lemma dfs_unstyled (t : RichStr) :
  unstyled t = true ->
  forall inh,
    dfs t inh = flat_map (fun s => [TSheet inh; TStr s]) (text_list t).
Proof.
  induction t as [subs own IH] using RichStr_tree_ind. intros Ht inh.
  unfold unstyled in Ht. cbn [tree_forall] in Ht.
  apply andb_prop in Ht as [Hown Hsubs]. destruct own; [|discriminate].
  induction subs as [|c subs IHsubs]; [reflexivity|].
  inversion IH as [|? ? Hc Hrest]; subst.
  cbn [forallb] in Hsubs. apply andb_prop in Hsubs as [Hc' Hsubs].
  destruct c as [s|r].
  - rewrite dfs_Str. cbn [text_list flat_map app]. rewrite Sheet_add_empty.
    do 2 f_equal. exact (IHsubs Hrest Hsubs).
  - rewrite dfs_Rich. cbn [text_list flat_map]. rewrite flat_map_app.
    rewrite Sheet_add_empty. rewrite (Hc Hc' inh). f_equal.
    exact (IHsubs Hrest Hsubs).
Qed.

Lemma optimize_loop_resets (l : list string) :
  forall st prev,
    prev = Sheet_empty \/ prev = Sheet_None ->
    optimize_loop Sheet_empty st prev
      (flat_map (fun s => [TSheet Sheet_None; TStr s]) l ++ [TSheet Sheet_None])
    = map KStr l.
Proof.
  induction l as [|s l IH]; intros st prev Hprev.
  - destruct Hprev as [-> | ->]; reflexivity.
  - cbn [flat_map app optimize_loop]. unfold Sheet_copy.
    rewrite (IH Sheet_None Sheet_None) by now right.
    destruct Hprev as [-> | ->]; reflexivity.
Qed.

Lemma merge_loop_texts_only (l : list string) :
  merge_loop None (map KStr l) = Ok (map KStr l).
Proof.
  induction l as [|s l IH]; [reflexivity|].
  cbn [map merge_loop]. rewrite IH. reflexivity.
Qed.

(** X15.  A tree none of whose nodes has a style renders to its plain text:
    no control code is emitted, although the flattening starts from the
    sheet of all resets; the code representation holds the texts of the
    tree and nothing else. *)
Theorem unstyled_renders_plain (T : RichStr) :
  unstyled T = true ->
  optimizedCodeRepr T = Ok (map KStr (text_list T)) /\
  RichStr_str T = Ok (plain T).
Proof.
  intros HT.
  assert (H : optimizedCodeRepr T = Ok (map KStr (text_list T))).
  { unfold optimizedCodeRepr, mergeCodes, mergeAdjacentCodes, optimizeSheetsToCodes,
      sheetRepr, Sheet_copy.
    rewrite (dfs_unstyled T HT), optimize_loop_resets by now left.
    apply merge_loop_texts_only. }
  split; [exact H|]. unfold RichStr_str. rewrite H. cbn [bind].
  rewrite map_map. cbn [CodeTok_str]. rewrite map_id. now rewrite plain_text_list.
Qed.

Lemma unstyled_renders_plain_witness :
  RichStr_str (RichStr_add (RichStr_init [Str "a"; Str "b"]) (Str "c")) = Ok "abc"%string.
Proof.
  exact (proj2 (unstyled_renders_plain
                  (RichStr_add (RichStr_init [Str "a"; Str "b"]) (Str "c"))
                  eq_refl)).
Defined.

(** ** Updates in place *)

Lemma length_write (h : Heap.heap) (a : Heap.addr) (d : Sheet) :
  List.length (Heap.write h a d) = List.length h.
Proof.
  revert a. induction h as [|x h IH]; intros a; [reflexivity|].
  destruct a; simpl; [reflexivity | now rewrite IH].
Qed.

Lemma read_write_same (h : Heap.heap) (a : Heap.addr) (d : Sheet) :
  (a < List.length h)%nat -> Heap.read (Heap.write h a d) a = d.
Proof.
  revert a. induction h as [|x h IH]; intros a H; [simpl in H; lia|].
  destruct a; [reflexivity|]. simpl in H. apply (IH a). lia.
Qed.

Lemma read_write_other (h : Heap.heap) (a b : Heap.addr) (d : Sheet) :
  a <> b -> Heap.read (Heap.write h a d) b = Heap.read h b.
Proof.
  revert a b. induction h as [|x h IH]; intros a b H; [reflexivity|].
  destruct a, b; try reflexivity; [congruence|].
  apply (IH a b). congruence.
Qed.

(** X16.  [sheet |= other] and [sheet += other] update the object in
    place: afterwards it holds what [sheet | other] computes, no object is
    made and no other object changes.  The methods return [None], which is
    what the assignment binds the name to.  A node built before with
    [RichStr(..., sheet=sheet)] keeps the sheet as it was, since the
    constructor copied it. *)
Theorem in_place_update (h : Heap.heap) (self other : Heap.addr)
        (args : list Heap.SubStr) :
  (self < List.length h)%nat -> (other < List.length h)%nat ->
  let (node, h1) := InPlace.RichStr_init args (Some self) h in
  let (bound, h2) := InPlace.Sheet_iadd self other h1 in
  bound = None /\
  InPlace.Sheet_ior self other h1 = (None, h2) /\
  Heap.read h2 self = Sheet_or (Heap.read h self) (Heap.read h other) /\
  (forall a, a <> self -> Heap.read h2 a = Heap.read h1 a) /\
  List.length h2 = List.length h1 /\
  sheet (value_of h2 node) = Heap.read h self.
Proof.
  intros Hs Ho.
  unfold InPlace.RichStr_init, InPlace.Sheet_iadd, InPlace.Sheet_ior,
    Heap.Sheet_copy, Heap.alloc, Heap.update_at.
  rewrite !read_app_l by assumption.
  split; [reflexivity|]. split; [reflexivity|]. split; [|split; [|split]].
  - rewrite read_write_same by (rewrite length_app; lia). reflexivity.
  - intros a Ha. now apply read_write_other.
  - apply length_write.
  - cbn [value_of sheet]. rewrite read_write_other by lia. apply read_app_last.
Qed.

Lemma in_place_update_witness :
  let red := BasicColor_parse "red" 31 in
  let blue := BasicColor_parse "blue" 44 in
  let h := [[("Fore"%string, red)]; [("Back"%string, blue)]] in
  let (node, h1) := InPlace.RichStr_init [Heap.Str "x"] (Some 0%nat) h in
  let (bound, h2) := InPlace.Sheet_iadd 0%nat 1%nat h1 in
  bound = None /\
  Heap.read h2 0%nat = [("Fore"%string, red); ("Back"%string, blue)] /\
  sheet (value_of h2 node) = [("Fore"%string, red)].
Proof.
  intros red blue h.
  pose proof (in_place_update h 0%nat 1%nat [Heap.Str "x"]
                ltac:(simpl; lia) ltac:(simpl; lia)) as H.
  cbv beta iota zeta delta [InPlace.RichStr_init InPlace.Sheet_iadd InPlace.Sheet_ior
                              Heap.Sheet_copy Heap.alloc] in H |- *.
  destruct H as [H1 [_ [H2 [_ [_ H3]]]]].
  split; [exact H1|]. split; [exact H2 | exact H3].
Defined.

(** ** The toggle mergeCodes *)

Lemma nonneg_tokens_of_tree (T : RichStr) :
  tree_forall (sheet_forall nonneg_style) (fun _ => true) T = true ->
  forallb nonneg_token (optimizeSheetsToCodes (sheetRepr T)) = true.
Proof.
  intros H.
  pose proof (optimizeSheetsToCodes_forall nonneg_style (fun _ => true)
                eq_refl nonneg_reset T H) as Hok.
  rewrite forallb_forall in Hok |- *. intros it Hit. specialize (Hok it Hit).
  destruct it as [[cs|st]|s]; simpl in *; auto. discriminate.
Qed.

Lemma clean_pieces_of_tree (T : RichStr) :
  clean_tree T = true ->
  forallb clean_piece (pieces (optimizeSheetsToCodes (sheetRepr T))) = true.
Proof.
  intros H.
  pose proof (optimizeSheetsToCodes_forall nonneg_style no_escape
                eq_refl nonneg_reset T H) as Hok.
  unfold pieces. rewrite forallb_forall in Hok |- *.
  intros p Hp. apply in_map_iff in Hp as [it [<- Hit]].
  specialize (Hok it Hit). destruct it as [[cs|st]|s]; simpl in *; auto.
  discriminate.
Qed.

(** X17.  With the toggle [mergeCodes] off, [optimizedCodeRepr] and [str]
    always return: the code representation is what
    [optimizeSheetsToCodes] yields, with the texts of the tree in order.
    With the toggle on, as the module sets it, they are the functions
    [optimizedCodeRepr] and [__str__] above.  Whenever both settings give a
    string, for styles whose codes are not negative, the two strings hold
    the same printed characters and the same parameters of escape
    sequences, in the same order, each parameter taken on its own: merging
    moves the boundaries between the escape sequences and nothing else.
    (Whether a terminal reads a parameter together with the ones after it,
    as after 38 and 48, and so tells the two strings apart, is not part of
    the statement.)  The string of the unmerged setting, with its escape
    sequences removed, is the plain text, for texts without the escape
    character. *)
Theorem mergeCodes_toggle (T : RichStr) :
  (exists buf, optimizedCodeRepr_with false T = Ok buf /\
               texts buf = text_list T /\
               RichStr_str_with false T = Ok (render buf)) /\
  (optimizedCodeRepr_with true T = optimizedCodeRepr T /\
   RichStr_str_with true T = RichStr_str T) /\
  (tree_forall (sheet_forall nonneg_style) (fun _ => true) T = true ->
   forall merged unmerged,
     RichStr_str_with true T = Ok merged ->
     RichStr_str_with false T = Ok unmerged ->
     terminal merged = terminal unmerged) /\
  (clean_tree T = true ->
   forall unmerged,
     RichStr_str_with false T = Ok unmerged ->
     remove_escapes unmerged = plain T).
Proof.
  split; [|split; [split; reflexivity|split]].
  - exists (optimizeSheetsToCodes (sheetRepr T)). split; [reflexivity|].
    split; [|reflexivity]. unfold optimizeSheetsToCodes, sheetRepr.
    rewrite optimize_loop_texts, sheet_texts_app, dfs_text_list.
    cbn [sheet_texts flat_map]. apply app_nil_r.
  - intros Hnn merged unmerged.
    unfold RichStr_str_with, optimizedCodeRepr_with, mergeAdjacentCodes.
    destruct (merge_loop None (optimizeSheetsToCodes (sheetRepr T))) as [out|e] eqn:Hm;
      [|discriminate].
    cbn [bind]. intros [= <-] [= <-].
    apply merge_loop_pieces in Hm. cbn [flush pieces map app] in Hm.
    fold (render out). fold (render (optimizeSheetsToCodes (sheetRepr T))).
    rewrite !render_eq_pieces, Hm. symmetry.
    apply (terminal_merge_runs _) with (p := ""%string) (skip := 0%nat); [|apply le_n].
    rewrite <- nonneg_pieces. now apply nonneg_tokens_of_tree.
  - intros Hclean unmerged.
    unfold RichStr_str_with, optimizedCodeRepr_with. cbn [bind]. intros [= <-].
    fold (render (optimizeSheetsToCodes (sheetRepr T))).
    rewrite render_eq_pieces, remove_escapes_render by now apply clean_pieces_of_tree.
    rewrite <- texts_eq_pieces. unfold optimizeSheetsToCodes.
    now rewrite optimize_loop_texts.
Qed.

Lemma mergeCodes_toggle_witness :
  let red := BasicColor_parse "red" 31 in
  let green := BasicColor_parse "lightgreenEx" 102 in
  let T := mkRichStr [Rich (mkRichStr [Str "x"] [("Back"%string, green)])]
                     [("Fore"%string, red)] in
  exists merged unmerged,
    RichStr_str_with true T = Ok merged /\
    RichStr_str_with false T = Ok unmerged /\
    merged <> unmerged /\
    terminal merged = terminal unmerged /\
    remove_escapes unmerged = plain T.
Proof.
  intros red green T.
  destruct (RichStr_str_with true T) as [merged|e] eqn:Hm; [|discriminate].
  destruct (RichStr_str_with false T) as [unmerged|e] eqn:Hu; [|discriminate].
  exists merged, unmerged. split; [reflexivity|]. split; [reflexivity|].
  split; [injection Hm as <-; injection Hu as <-; discriminate|]. split.
  - exact (proj1 (proj2 (proj2 (mergeCodes_toggle T))) eq_refl merged unmerged Hm Hu).
  - exact (proj2 (proj2 (proj2 (mergeCodes_toggle T))) eq_refl unmerged Hu).
Defined.

(** ** More on colours *)

(** X18.  The setter of [Color.group] turns a basic colour into the colour
    of the same index and intensity in the group assigned, Back or Fore,
    and [group] then reads that group; assigning the group the colour has,
    or [None], changes nothing, and any other group is refused. *)
Theorem Color_set_group_behaviour (basicIndex : Z) (intensive bg : bool)
        (rest : list Z) :
  0 <= basicIndex <= 9 ->
  let cs := basic_code basicIndex intensive bg :: rest in
  Color_set_group cs (Some "Back"%string)
  = Some (basic_code basicIndex intensive true :: rest) /\
  Color_set_group cs (Some "Fore"%string)
  = Some (basic_code basicIndex intensive false :: rest) /\
  Color_group (basic_code basicIndex intensive bg)
  = Some (if bg then "Back" else "Fore")%string /\
  Color_set_group cs (Color_group (basic_code basicIndex intensive bg)) = Some cs /\
  Color_set_group cs None = Some cs /\
  (forall n, n <> "Back"%string -> n <> "Fore"%string ->
             Color_set_group cs (Some n) = None).
Proof.
  intros H cs.
  assert (HB : Color_set_bg cs true = Some (basic_code basicIndex intensive true :: rest) /\
               Color_set_bg cs false = Some (basic_code basicIndex intensive false :: rest) /\
               Color_group (basic_code basicIndex intensive bg)
               = Some (if bg then "Back" else "Fore")%string).
  { unfold cs, Color_set_bg, Color_setNumeric, Color_get_bg, Color_code, tuple_item.
    cbn [nth_error option_map]. rewrite !Color_set_code_cons.
    each_index H; destruct intensive, bg; repeat split. }
  destruct HB as [H1 [H2 H3]].
  split; [exact H1|]. split; [exact H2|]. split; [exact H3|].
  split; [rewrite H3; destruct bg; [exact H1 | exact H2]|].
  split; [reflexivity|].
  intros n Hb Hf. unfold Color_set_group.
  apply String.eqb_neq in Hb, Hf. now rewrite Hb, Hf.
Qed.

Lemma Color_set_group_behaviour_witness :
  Color_set_group [31] (Some "Back"%string) = Some [41] /\
  Color_set_group [41] (Some "Underline"%string) = None.
Proof.
  split.
  - exact (proj1 (Color_set_group_behaviour 1 false false [] ltac:(lia))).
  - apply (proj2 (proj2 (proj2 (proj2 (proj2
             (Color_set_group_behaviour 1 false true [] ltac:(lia))))))); discriminate.
Defined.

(** X19.  [toRGB] of a basic colour reads the three lowest bits of its
    basic index as red, green and blue, at the level 0x77, or 0xff for an
    intensive colour.  For a foreground colour this is the colour of the
    index.  The basic index of a background colour is the index plus 10, so
    its components are the bits of that number, and they differ from those
    of the foreground colour of the same index, for every index.  The
    components are bytes: [toCSSColor] returns the hexadecimal string of
    them, and [toRGBColor] the true colour with these components. *)
Theorem BasicColor_toRGB_bits (basicIndex : Z) (intensive bg : bool)
        (n : option string) :
  0 <= basicIndex <= 7 ->
  let level := if intensive then 255 else 119 in
  let seen := basicIndex + (if bg then 10 else 0) in
  let rgb := (bit seen 0 * level, bit seen 1 * level, bit seen 2 * level) in
  let cs := [basic_code basicIndex intensive bg] in
  BasicColor_toRGB cs = Some rgb /\
  BasicColor_toRGB [basic_code basicIndex intensive true]
  <> BasicColor_toRGB [basic_code basicIndex intensive false] /\
  (exists css, BasicColor_toCSSColor cs = Some css /\
               CSSHex_components css = Some rgb /\
               BasicColor_toCSSProperty cs
               = Some [(((if bg then "background-" else "") ++ "color")%string, css)]) /\
  BasicColor_toRGBColor n cs
  = (let '(r, g, b) := rgb in RGBColor_init n r g b bg).
Proof.
  intros H level seen rgb cs. unfold cs, rgb, seen, level.
  assert (H' : 0 <= basicIndex <= 9) by lia. clear H.
  each_index H'; try lia; destruct intensive, bg;
    (split; [reflexivity|]); (split; [discriminate|]);
    (split; [eexists; repeat split|reflexivity]).
Qed.

Lemma BasicColor_toRGB_bits_witness :
  BasicColor_toRGB [31] = Some (119, 0, 0) /\
  BasicColor_toRGB [41] = Some (119, 119, 0) /\
  BasicColor_toCSSColor [94] = Some "#0000ff"%string.
Proof.
  pose proof (BasicColor_toRGB_bits 1 false false None ltac:(lia)) as Hfg.
  pose proof (BasicColor_toRGB_bits 1 false true None ltac:(lia)) as Hbg.
  pose proof (BasicColor_toRGB_bits 4 true false None ltac:(lia)) as Hblue.
  split; [exact (proj1 Hfg)|]. split; [exact (proj1 Hbg)|].
  destruct (proj1 (proj2 (proj2 Hblue))) as [css [Hcss _]].
  change (BasicColor_toCSSColor [basic_code 4 true false] = Some "#0000ff"%string).
  rewrite Hcss. vm_compute in Hcss. symmetry. exact Hcss.
Defined.

(** X20.  [invert] of the true colour with the components (r, g, b) passes
    its three numbers where the constructor takes the name, red and green:
    the result is the foreground colour with the components
    (255 - g, 255 - b, 0), whatever [r] and the ground of the colour were,
    and not the complement (255 - r, 255 - g, 255 - b).  Inverting twice
    gives the components (b, 255, 0). *)
Theorem RGBColor_invert_components (code r g b : Z) :
  RGBColor_invert [code; 2; r; g; b] = Some [38; 2; 255 - g; 255 - b; 0] /\
  (exists cs', RGBColor_invert [code; 2; r; g; b] = Some cs' /\
               RGBColor_invert cs' = Some [38; 2; b; 255; 0]) /\
  (RGBColor_invert [code; 2; r; g; b] = Some [code; 2; 255 - r; 255 - g; 255 - b]
   <-> code = 38 /\ r = g /\ g = b /\ b = 255).
Proof.
  assert (G : forall c x y z,
             RGBColor_invert [c; 2; x; y; z] = Some [38; 2; 255 - y; 255 - z; 0])
    by reflexivity.
  pose proof (G code r g b) as H.
  split; [exact H|]. split.
  - eexists. split; [exact H|]. rewrite G.
    replace (255 - (255 - b)) with b by lia. reflexivity.
  - rewrite H. split.
    + intros E.
      pose proof (f_equal (fun o => match o with Some l => nth 0 l 0 | None => 0 end) E)
        as Hc.
      pose proof (f_equal (fun o => match o with Some l => nth 2 l 0 | None => 0 end) E)
        as Hr.
      pose proof (f_equal (fun o => match o with Some l => nth 3 l 0 | None => 0 end) E)
        as Hg.
      pose proof (f_equal (fun o => match o with Some l => nth 4 l 0 | None => 0 end) E)
        as Hb.
      cbn [nth] in Hc, Hr, Hg, Hb. lia.
    + intros [-> [-> [-> ->]]]. reflexivity.
Qed.

(** ** Names *)

Lemma camelCase_loop_step (i : nat) (tokens : list string) :
  camelCase_loop (S (S i)) tokens = camelCase_loop i tokens.
Proof.
  revert i. induction tokens as [|t tokens IH]; intros i; [reflexivity|].
  cbn [camelCase_loop]. rewrite IH. f_equal.
  replace (S (S i)) with (i + 1 * 2)%nat by lia.
  now rewrite Nat.Div0.mod_add.
Qed.

Lemma rx_split_nonempty (s : string) : exists t rest, rx_split s = t :: rest.
Proof.
  induction s as [|c s IH]; [now exists EmptyString, []|].
  cbn [rx_split]. destruct s as [|d s''].
  - now exists (String c EmptyString), [].
  - destruct (Ascii.eqb c "_" && is_word d); [now eexists; eexists|].
    destruct IH as [t [rest ->]]. now eexists; eexists.
Qed.

Lemma camelCase_push (c : ascii) (s : string) :
  join "" (camelCase_loop 0 (push_char c (rx_split s)))
  = String (char_lower c) (under_score2camelCase s).
Proof.
  unfold under_score2camelCase.
  destruct (rx_split_nonempty s) as [t [rest ->]].
  cbn [push_char camelCase_loop Nat.modulo Nat.eqb str_lower].
  change (0 mod 2 =? 1)%nat with false. cbn iota.
  now rewrite !join_empty_cons.
Qed.

Lemma camelCase_other (c : ascii) (s : string) :
  Ascii.eqb c "_" = false ->
  under_score2camelCase (String c s) = String (char_lower c) (under_score2camelCase s).
Proof.
  intros Hc. rewrite <- camelCase_push. unfold under_score2camelCase at 1.
  cbn [rx_split]. rewrite Hc. now destruct s.
Qed.

Lemma camelCase_match (d : ascii) (s : string) :
  is_word d = true ->
  under_score2camelCase (String "_" (String d s))
  = String (char_upper d) (under_score2camelCase s).
Proof.
  intros Hd. unfold under_score2camelCase. cbn [rx_split]. rewrite Hd.
  cbn [Ascii.eqb Bool.eqb andb camelCase_loop].
  rewrite camelCase_loop_step.
  change (0 mod 2 =? 1)%nat with false. change (1 mod 2 =? 1)%nat with true.
  cbn iota. rewrite !join_empty_cons. reflexivity.
Qed.

Lemma is_alnum_not_underscore (c : ascii) :
  is_alnum c = true -> Ascii.eqb c "_" = false.
Proof.
  intros H. apply Ascii.eqb_neq. intros ->. discriminate.
Qed.

Lemma camelCase_alnum_prefix (w rest : string) :
  alnum_string w = true ->
  under_score2camelCase (w ++ rest) = (str_lower w ++ under_score2camelCase rest)%string.
Proof.
  unfold alnum_string. induction w as [|c w IH]; intros H; [reflexivity|].
  cbn [list_ascii_of_string forallb] in H. apply andb_prop in H as [Hc Hw].
  cbn [append str_lower]. rewrite camelCase_other by now apply is_alnum_not_underscore.
  now rewrite IH.
Qed.

Lemma concat_cons_char (sep : string) (c : ascii) (w : string) (ws : list string) :
  String.concat sep (String c w :: ws) = String c (String.concat sep (w :: ws)).
Proof. destruct ws; reflexivity. Qed.

Lemma camelCase_words (ws : list string) :
  forall w,
    alnum_string w = true ->
    forallb alnum_word ws = true ->
    under_score2camelCase (String.concat "_" (w :: ws))
    = (str_lower w ++ String.concat "" (map capitalize ws))%string.
Proof.
  induction ws as [|v ws IH]; intros w Hw Hws.
  - cbn [String.concat map]. rewrite <- (append_empty_r w) at 1.
    rewrite camelCase_alnum_prefix by assumption. reflexivity.
  - cbn [forallb] in Hws. apply andb_prop in Hws as [Hv Hws].
    unfold alnum_word in Hv. apply andb_prop in Hv as [Hne Hv].
    destruct v as [|c v]; [discriminate|].
    change (String.concat "_" (w :: String c v :: ws))
      with (w ++ String "_" (String.concat "_" (String c v :: ws)))%string.
    rewrite camelCase_alnum_prefix by assumption. f_equal.
    rewrite concat_cons_char.
    unfold alnum_string in Hv. cbn [list_ascii_of_string forallb] in Hv.
    apply andb_prop in Hv as [Hc Hv].
    rewrite camelCase_match by (unfold is_word; now rewrite Hc).
    rewrite (IH v Hv Hws). cbn [map capitalize].
    fold (join "" (String (char_upper c) (str_lower v) :: map capitalize ws)).
    rewrite join_empty_cons. reflexivity.
Qed.

(** X21.  [under_score2camelCase] turns a name made of words of letters
    and digits, separated by single underscores, into lower camel case:
    the first word in lower case, every other word with its first
    character in upper case and the others in lower case, and no
    underscore.  A name without an underscore is put in lower case.  An
    underscore at the end is kept, and of two underscores in a row the
    second one is the character of the match and stays. *)
Theorem under_score2camelCase_words (w : string) (ws : list string) :
  alnum_string w = true ->
  forallb alnum_word ws = true ->
  under_score2camelCase (String.concat "_" (w :: ws))
  = (str_lower w ++ String.concat "" (map capitalize ws))%string /\
  under_score2camelCase w = str_lower w /\
  under_score2camelCase (w ++ "_") = (str_lower w ++ "_")%string /\
  (forall rest, under_score2camelCase (w ++ "__" ++ rest)
                = (str_lower w ++ "_" ++ under_score2camelCase rest)%string).
Proof.
  intros Hw Hws. split; [now apply camelCase_words|]. split; [|split].
  - rewrite <- (append_empty_r w) at 1.
    rewrite camelCase_alnum_prefix by assumption. apply append_empty_r.
  - now rewrite camelCase_alnum_prefix.
  - intros rest. rewrite camelCase_alnum_prefix by assumption. f_equal.
    cbn [append]. now rewrite camelCase_match.
Qed.

Lemma under_score2camelCase_words_witness :
  under_score2camelCase "LIGHTGREEN_EX" = "lightgreenEx"%string /\
  under_score2camelCase "dark_olive_green_3a" = "darkOliveGreen3a"%string.
Proof.
  split.
  - exact (proj1 (under_score2camelCase_words "LIGHTGREEN" ["EX"%string]
                    eq_refl eq_refl)).
  - exact (proj1 (under_score2camelCase_words "dark"
                    ["olive"%string; "green"%string; "3a"%string] eq_refl eq_refl)).
Defined.

(** ** One style over plain content *)

Lemma flat_map_nil {A B : Type} (f : A -> list B) (l : list A) :
  (forall y, In y l -> f y = []) -> flat_map f l = [].
Proof.
  induction l as [|a l IH]; intros H; [reflexivity|].
  cbn [flat_map]. rewrite (H a (or_introl eq_refl)). apply IH.
  intros y Hy. apply H. now right.
Qed.

Lemma flat_map_one {A B : Type} (f : A -> list B) (l : list A) (x : A) :
  In x l -> NoDup l -> (forall y, In y l -> y <> x -> f y = []) ->
  flat_map f l = f x.
Proof.
  induction l as [|a l IH]; intros Hin Hnd H; [contradiction|].
  inversion Hnd as [|? ? Ha Hl]; subst. cbn [flat_map].
  destruct Hin as [->|Hin].
  - rewrite (flat_map_nil f l), app_nil_r; [reflexivity|].
    intros y Hy. apply H; [now right|]. intros ->. contradiction.
  - rewrite (H a (or_introl eq_refl)) by (intros ->; contradiction).
    apply IH; [assumption..|]. intros y Hy. apply H. now right.
Qed.

Lemma groups_NoDup : NoDup groups.
Proof. apply (NoDup_map_inv fst). exact groups_keys_NoDup. Qed.

(** A patch that changes one category only. *)
Lemma diff_single (old new : Sheet) (gr : string) (g : StyleGroup) :
  In (gr, g) groups ->
  category_changed old new gr g = true ->
  (forall gr' g', In (gr', g') groups -> gr' <> gr ->
                  category_changed old new gr' g' = false) ->
  diff old new = [(gr, normalized_new old new gr g)].
Proof.
  intros Hin Hc Ho. rewrite diff_eq_spec. unfold diff_spec.
  rewrite (flat_map_one _ groups (gr, g) Hin groups_NoDup).
  - cbn [fst snd]. now rewrite Hc.
  - intros [gr' g'] Hy Hne. cbn [fst snd]. rewrite Ho; [reflexivity|exact Hy|].
    intros ->. apply Hne. f_equal. exact (groups_functional gr g' g Hy Hin).
Qed.

Lemma value_or_reset_styled (st : Style) (gr gr' : string) (g' : StyleGroup) :
  In (gr', g') groups ->
  value_or_reset (Sheet_add Sheet_None [(gr, st)]) gr' g'
  = if String.eqb gr gr' then st else reset g'.
Proof.
  intros Hin. unfold value_or_reset, Sheet_add, Sheet_or, Sheet_copy, update.
  cbn [fold_left fst snd]. rewrite getitem_setitem.
  destruct (String.eqb gr gr'); [reflexivity|].
  pose proof Sheet_None_reset as R. rewrite Forall_forall in R.
  specialize (R (gr', g') Hin). cbn [fst snd] in R. now rewrite R.
Qed.

Lemma value_or_reset_nothing (gr' : string) (g' : StyleGroup) :
  value_or_reset Sheet_empty gr' g' = reset g'.
Proof. reflexivity. Qed.

Lemma reset_not_neutral (gr : string) (g : StyleGroup) :
  In (gr, g) groups -> Style_eq (reset g) neutral = false.
Proof.
  intros Hin. pose proof has_codes_reset as R. rewrite Forall_forall in R.
  specialize (R (gr, g) Hin). unfold has_codes in R. cbn [snd] in R.
  now apply negb_true_iff in R.
Qed.

Section OneStyle.
Variable st : Style.
Variable gr : string.
Variable g : StyleGroup.
Hypothesis in_catalog : In (gr, g) groups.
Hypothesis st_on : Style_eq st neutral = false.
Hypothesis st_not_reset : Style_eq st (reset g) = false.

Let styled : Sheet := Sheet_add Sheet_None [(gr, st)].

Lemma diff_style_on : diff Sheet_empty styled = [(gr, st)].
Proof.
  assert (N : normalized_new Sheet_empty styled gr g = st).
  { unfold normalized_new. rewrite value_or_reset_nothing.
    rewrite (reset_not_neutral gr g in_catalog). cbn [andb].
    unfold styled. rewrite value_or_reset_styled by exact in_catalog.
    now rewrite String.eqb_refl. }
  transitivity [(gr, normalized_new Sheet_empty styled gr g)]; [|now rewrite N].
  apply diff_single; [exact in_catalog| |].
  - unfold category_changed. rewrite N, value_or_reset_nothing.
    rewrite Style_eq_sym. now rewrite st_not_reset.
  - intros gr' g' Hin Hne. unfold category_changed, normalized_new.
    rewrite value_or_reset_nothing, (reset_not_neutral gr' g' Hin). cbn [andb].
    unfold styled. rewrite value_or_reset_styled by exact Hin.
    apply not_eq_sym, String.eqb_neq in Hne. rewrite Hne.
    now rewrite Style_eq_refl.
Qed.

Lemma diff_style_off : diff styled Sheet_empty = [(gr, reset g)].
Proof.
  assert (N : normalized_new styled Sheet_empty gr g = reset g).
  { unfold normalized_new, styled.
    rewrite value_or_reset_styled by exact in_catalog.
    now rewrite String.eqb_refl, st_on. }
  transitivity [(gr, normalized_new styled Sheet_empty gr g)]; [|now rewrite N].
  apply diff_single; [exact in_catalog| |].
  - unfold category_changed. rewrite N. unfold styled.
    rewrite value_or_reset_styled by exact in_catalog.
    now rewrite String.eqb_refl, st_not_reset.
  - intros gr' g' Hin Hne. unfold category_changed, normalized_new, styled.
    rewrite value_or_reset_styled by exact Hin.
    apply not_eq_sym, String.eqb_neq in Hne. rewrite Hne.
    rewrite value_or_reset_nothing, (reset_not_neutral gr' g' Hin). cbn [andb].
    now rewrite Style_eq_refl.
Qed.
End OneStyle.

Lemma dfs_unstyled_children (subs : list SubStr) (own inh : Sheet) :
  forallb (fun c => match c with Str _ => true | Rich r => unstyled r end) subs = true ->
  dfs (mkRichStr subs own) inh
  = flat_map (fun s => [TSheet (Sheet_add inh own); TStr s])
             (text_list (mkRichStr subs own)).
Proof.
  induction subs as [|c subs IH]; intros H; [reflexivity|].
  cbn [forallb] in H. apply andb_prop in H as [Hc Hsubs].
  destruct c as [s|r].
  - rewrite dfs_Str. cbn [text_list flat_map app]. do 2 f_equal.
    exact (IH Hsubs).
  - rewrite dfs_Rich. cbn [text_list flat_map]. rewrite flat_map_app.
    rewrite (dfs_unstyled r Hc). f_equal. exact (IH Hsubs).
Qed.

Lemma optimize_loop_uniform (S init last : Sheet) (l : list string) :
  forall st prev,
    optimize_loop init st prev
      (flat_map (fun s => [TSheet S; TStr s]) l ++ [TSheet last])
    = match l with
      | [] => patch_values (diff prev init)
      | s :: l' =>
          patch_values (diff prev S) ++ KStr s :: map KStr l'
          ++ patch_values (diff S init)
      end.
Proof.
  induction l as [|s l IH]; intros st prev; [reflexivity|].
  cbn [flat_map app optimize_loop]. unfold Sheet_sub, Sheet_copy.
  fold (patch_values (diff prev S)). f_equal. f_equal.
  rewrite (IH S S). destruct l as [|s' l']; [reflexivity|].
  rewrite (diff_same_on_catalog S S (same_on_catalog_refl S)). reflexivity.
Qed.

Lemma merge_loop_wrapped (a b : ControlCodes) (s : string) (l : list string) :
  merge_loop None (KCodes a :: KStr s :: map KStr l ++ [KCodes b])
  = Ok (KCodes a :: KStr s :: map KStr l ++ [KCodes b]).
Proof.
  cbn [merge_loop].
  assert (H : merge_loop None (map KStr l ++ [KCodes b])
              = Ok (map KStr l ++ [KCodes b])).
  { induction l as [|x l IH]; [reflexivity|].
    cbn [map app merge_loop]. now rewrite IH. }
  rewrite H. reflexivity.
Qed.

(** X22.  A style of a category of the catalog, with codes of its own that
    are not those of the category's reset, called on texts and unstyled
    trees that hold at least one text, renders to the codes of the style,
    the plain text, and the codes of the reset of its category; no code is
    emitted between the texts. *)
Theorem style_wraps_plain_text (st : Style) (gr : string) (g : StyleGroup)
        (subs : list SubStr) :
  In (gr, g) groups ->
  group st = Some gr ->
  codes st <> [] -> codes st <> codes (reset g) ->
  forallb (fun c => match c with Str _ => true | Rich r => unstyled r end) subs = true ->
  text_list (mkRichStr subs Sheet_empty) <> [] ->
  exists r,
    Style_call st subs = Ok r /\
    optimizedCodeRepr r
    = Ok (KCodes (AStyle st) :: map KStr (text_list r) ++ [KCodes (AStyle (reset g))]) /\
    RichStr_str r
    = Ok (ControlCodes_str (AStyle st) ++ plain r
          ++ ControlCodes_str (AStyle (reset g)))%string.
Proof.
  intros Hin Hgr Hon Hnr Hsubs Htexts.
  exists (mkRichStr subs [(gr, st)]).
  split; [unfold Style_call, Sheet_of_Style; now rewrite Hgr|].
  assert (Eon : Style_eq st neutral = false) by (now apply tuple_eqb_neq).
  assert (Enr : Style_eq st (reset g) = false) by (now apply tuple_eqb_neq).
  assert (Hrepr : optimizedCodeRepr (mkRichStr subs [(gr, st)])
                  = Ok (KCodes (AStyle st)
                          :: map KStr (text_list (mkRichStr subs [(gr, st)]))
                          ++ [KCodes (AStyle (reset g))])).
  { unfold optimizedCodeRepr, mergeCodes, mergeAdjacentCodes, optimizeSheetsToCodes,
      sheetRepr, Sheet_copy.
    rewrite (dfs_unstyled_children subs _ _ Hsubs), optimize_loop_uniform.
    change (text_list (mkRichStr subs [(gr, st)]))
      with (text_list (mkRichStr subs Sheet_empty)).
    destruct (text_list (mkRichStr subs Sheet_empty)) as [|s l]; [congruence|].
    rewrite (diff_style_on st gr g Hin Enr), (diff_style_off st gr g Hin Eon Enr).
    cbn [patch_values values map snd app]. apply merge_loop_wrapped. }
  split; [exact Hrepr|].
  unfold RichStr_str. rewrite Hrepr. cbn [bind]. f_equal.
  cbn [map CodeTok_str]. rewrite join_empty_cons. f_equal.
  rewrite map_app, join_empty_app, map_map. cbn [CodeTok_str map].
  rewrite map_id, plain_text_list. f_equal.
Qed.

Lemma style_wraps_plain_text_witness :
  exists r,
    Style_call (IndexedColor (Some "IndexedRed"%string) 1 false) [Str "RRR"] = Ok r /\
    RichStr_str r = Ok (String ESC "[38;5;1m" ++ "RRR" ++ String ESC "[39m")%string.
Proof.
  destruct (style_wraps_plain_text
              (IndexedColor (Some "IndexedRed"%string) 1 false) "Fore"
              (StyleGroup_init "Fore" [] (Style_init "reset" [39]))
              [Str "RRR"])
    as [r [Hr [_ Hs]]];
    [right; left; reflexivity | reflexivity | discriminate | discriminate
    | reflexivity | discriminate |].
  exists r. split; [exact Hr|]. rewrite Hs.
  injection Hr as <-. reflexivity.
Defined.

(** ** Operators that make new sheets *)

(** X23.  Over the store, [a | b], [a + b], [old.diff(new)], [a - b] and
    [Sheet(a)] make new objects and change no object that exists: the store
    afterwards is the store before with objects added behind it, the
    result is one of the added objects, and it holds what the function on
    values computes from the dicts of the operands.  This is unlike
    [a |= b], which writes to [a]. *)
Theorem sheet_operators_pure (h : Heap.heap) (a b : Heap.addr) :
  (a < List.length h)%nat -> (b < List.length h)%nat ->
  (let (r, h') := Heap.Sheet_or a b h in
   extends h h' /\ (List.length h <= r < List.length h')%nat /\
   Heap.read h' r = Sheet_or (Heap.read h a) (Heap.read h b)) /\
  Heap.Sheet_add a b h = Heap.Sheet_or a b h /\
  (let (r, h') := Heap.diff a b h in
   extends h h' /\ (List.length h <= r < List.length h')%nat /\
   Heap.read h' r = diff (Heap.read h a) (Heap.read h b)) /\
  Heap.Sheet_sub a b h = Heap.diff b a h /\
  (let (r, h') := Heap.Sheet_copy a h in
   extends h h' /\ (List.length h <= r < List.length h')%nat /\
   Heap.read h' r = Heap.read h a) /\
  (let (r, h') := InPlace.Sheet_ior a b h in
   r = None /\ Heap.read h' a = Sheet_or (Heap.read h a) (Heap.read h b)).
Proof.
  intros Ha Hb. split; [|split; [reflexivity|split; [|split; [reflexivity|split]]]].
  - rewrite Heap_Sheet_or_eq by assumption.
    split; [apply extends_app|]. split; [rewrite length_app; simpl; lia|].
    rewrite read_app_r by lia.
    replace (S (List.length h) - List.length h)%nat with 1%nat by lia. reflexivity.
  - rewrite Heap_diff_eq by assumption.
    split; [apply extends_app|]. split; [rewrite length_app; simpl; lia|].
    apply read_app_last.
  - rewrite Heap_Sheet_copy_eq.
    split; [apply extends_app|]. split; [rewrite length_app; simpl; lia|].
    apply read_app_last.
  - unfold InPlace.Sheet_ior, Heap.update_at. split; [reflexivity|].
    now rewrite read_write_same.
Qed.

Lemma sheet_operators_pure_witness :
  let red := BasicColor_parse "red" 31 in
  let blue := BasicColor_parse "blue" 44 in
  let h := [[("Fore"%string, red)]; [("Back"%string, blue)]] in
  let (r, h') := Heap.Sheet_or 0%nat 1%nat h in
  extends h h' /\
  Heap.read h' r = [("Fore"%string, red); ("Back"%string, blue)].
Proof.
  intros red blue h.
  pose proof (proj1 (sheet_operators_pure h 0%nat 1%nat
                       ltac:(simpl; lia) ltac:(simpl; lia))) as H.
  cbv beta iota zeta delta [Heap.Sheet_or Heap.alloc Heap.Sheet_copy] in H |- *.
  destruct H as [H1 [_ H3]]. split; [exact H1 | exact H3].
Defined.

(** ** HTML *)

Lemma no_char_append (c : ascii) (a b : string) :
  no_char c (a ++ b) = no_char c a && no_char c b.
Proof.
  unfold no_char. induction a as [|x a IH]; [reflexivity|].
  cbn [append list_ascii_of_string forallb]. now rewrite IH, andb_assoc.
Qed.

Lemma no_char_concat (c : ascii) (sep : string) (parts : list string) :
  no_char c sep = true -> forallb (no_char c) parts = true ->
  no_char c (String.concat sep parts) = true.
Proof.
  intros Hsep. induction parts as [|p parts IH]; intros H; [reflexivity|].
  cbn [forallb] in H. apply andb_prop in H as [Hp Hparts].
  destruct parts as [|q parts]; [exact Hp|].
  change (String.concat sep (p :: q :: parts))
    with (p ++ sep ++ String.concat sep (q :: parts))%string.
  now rewrite !no_char_append, Hp, Hsep, IH.
Qed.

Lemma strip_text (t rest : string) :
  no_char "<" t = true ->
  strip_tags_from false (t ++ rest) = (t ++ strip_tags_from false rest)%string.
Proof.
  unfold no_char. induction t as [|x t IH]; intros H; [reflexivity|].
  cbn [list_ascii_of_string forallb] in H. apply andb_prop in H as [Hx Ht].
  apply negb_true_iff in Hx. cbn [append strip_tags_from]. rewrite Hx.
  now rewrite IH.
Qed.

Lemma strip_inside (x rest : string) :
  no_char ">" x = true ->
  strip_tags_from true (x ++ String ">" rest) = strip_tags_from false rest.
Proof.
  unfold no_char. induction x as [|y x IH]; intros H; [reflexivity|].
  cbn [list_ascii_of_string forallb] in H. apply andb_prop in H as [Hy Hx].
  cbn [append strip_tags_from]. rewrite Hy. now apply IH.
Qed.

Lemma strip_open_tag (c rest : string) :
  no_char ">" c = true ->
  strip_tags_from false ("<span style='" ++ (c ++ ("'>" ++ rest)))
  = strip_tags_from false rest.
Proof.
  intros Hc.
  assert (E : ("<span style='" ++ (c ++ ("'>" ++ rest)))%string
              = String "<" (("span style='" ++ (c ++ "'")) ++ String ">" rest)%string)
    by (rewrite !append_assoc; reflexivity).
  rewrite E. change (strip_tags_from false (String "<" ?s)) with (strip_tags_from true s).
  apply strip_inside. rewrite !no_char_append, Hc. reflexivity.
Qed.

Lemma css_free_setitem (c : ascii) (d : Storage string) (k v : string) :
  css_free_of c d = true -> no_char c k = true -> no_char c v = true ->
  css_free_of c (setitem d k v) = true.
Proof.
  unfold css_free_of. induction d as [|[k0 v0] d IH]; cbn [setitem forallb fst snd];
    intros Hd Hk Hv.
  - now rewrite Hk, Hv.
  - apply andb_prop in Hd as [H0 Hd].
    destruct (String.eqb_spec k0 k) as [->|Hne]; cbn [forallb fst snd].
    + apply andb_prop in H0 as [H0 _]. now rewrite H0, Hv, Hd.
    + now rewrite H0, IH.
Qed.

Lemma css_free_update (c : ascii) (d o : Storage string) :
  css_free_of c d = true -> css_free_of c o = true ->
  css_free_of c (update d o) = true.
Proof.
  unfold update. revert d. induction o as [|[k v] o IH]; cbn [fold_left]; intros d Hd Ho.
  - exact Hd.
  - unfold css_free_of in Ho. cbn [forallb fst snd] in Ho.
    apply andb_prop in Ho as [Hkv Ho]. apply andb_prop in Hkv as [Hk Hv].
    apply IH; [now apply css_free_setitem | exact Ho].
Qed.

Section HTMLFacts.
Variable css : Style -> option (Storage string).
Hypothesis css_clean : forall st d, css st = Some d -> css_free_of ">" d = true.

Lemma getCSS_loop_clean (items : list Style) :
  forall acc out,
    css_free_of ">" acc = true ->
    getCSS_loop css acc items = Some out -> css_free_of ">" out = true.
Proof.
  induction items as [|st items IH]; intros acc out Hacc; cbn [getCSS_loop].
  - now intros [= <-].
  - destruct (css st) as [d|] eqn:Ed; [|discriminate].
    apply IH. apply css_free_update; [exact Hacc | exact (css_clean st d Ed)].
Qed.

Lemma getCSSStyle_clean (t : RichStr) (c : string) :
  getCSSStyle css t = Some c -> no_char ">" c = true.
Proof.
  unfold getCSSStyle.
  destruct (getCSS_loop css [] (values (sheet t))) as [out|] eqn:E; [|discriminate].
  intros [= <-]. apply getCSS_loop_clean in E; [|reflexivity].
  apply no_char_concat; [reflexivity|].
  unfold css_free_of in E. rewrite forallb_forall in E |- *.
  intros x Hx. apply in_map_iff in Hx as [[k v] [<- Hkv]].
  specialize (E _ Hkv). cbn [fst snd] in E |- *.
  apply andb_prop in E as [Hk Hv].
  change (join ":" [k; v]) with (k ++ String ":" v)%string.
  rewrite no_char_append, Hk. exact Hv.
Qed.

Lemma getCSS_loop_returns (items : list Style) :
  forall acc,
    (exists out, getCSS_loop css acc items = Some out)
    <-> forallb (has_css css) items = true.
Proof.
  induction items as [|st items IH]; intros acc; cbn [getCSS_loop forallb].
  - split; [reflexivity | intros _; now eexists].
  - unfold has_css at 1. destruct (css st) as [d|]; cbn [andb].
    + apply IH.
    + split; [intros [out H]; discriminate | discriminate].
Qed.

Lemma toHTML_strip (t : RichStr) :
  tree_forall (fun _ => true) (no_char "<") t = true ->
  forall h rest,
    toHTML css t = Some h ->
    strip_tags_from false (h ++ rest) = (plain t ++ strip_tags_from false rest)%string.
Proof.
  induction t as [subs own IH] using RichStr_tree_ind. intros Ht h rest.
  cbn [tree_forall andb] in Ht. cbn [toHTML].
  destruct (getCSSStyle css (mkRichStr subs own)) as [c|] eqn:Ec; [|discriminate].
  apply getCSSStyle_clean in Ec.
  destruct (all_some _) as [parts|] eqn:Ep; [|discriminate].
  intros Hh.
  assert (E : h = join "" (("<span style='" ++ c ++ "'>")%string
                             :: parts ++ ["</span>"%string])) by congruence.
  subst h. clear Hh. rewrite join_empty_cons, join_empty_app, plain_node.
  rewrite !append_assoc, strip_open_tag by exact Ec.
  clear Ec c. revert parts Ep.
  induction subs as [|el subs IHsubs]; intros parts Ep.
  - cbn [map all_some] in Ep. injection Ep as <-. reflexivity.
  - inversion IH as [|? ? Hel Hrest]; subst.
    cbn [forallb] in Ht. apply andb_prop in Ht as [Hel' Hsubs'].
    cbn [map all_some] in Ep. destruct el as [s|r].
    + destruct (all_some _) as [ps|] eqn:Eps; [|discriminate].
      injection Ep as <-. cbn [map SubStr_plain]. rewrite !join_empty_cons.
      rewrite !append_assoc, strip_text by exact Hel'. f_equal.
      exact (IHsubs Hrest Hsubs' ps eq_refl).
    + destruct (toHTML css r) as [hr|] eqn:Ehr; [|discriminate].
      destruct (all_some _) as [ps|] eqn:Eps; [|discriminate].
      injection Ep as <-. cbn [map SubStr_plain]. rewrite !join_empty_cons.
      rewrite !append_assoc, (Hel Hel' hr _ eq_refl). f_equal.
      exact (IHsubs Hrest Hsubs' ps eq_refl).
Qed.
End HTMLFacts.

Lemma toHTML_returns (css : Style -> option (Storage string)) (t : RichStr) :
  (exists h, toHTML css t = Some h)
  <-> tree_forall (sheet_forall (has_css css)) (fun _ => true) t = true.
Proof.
  induction t as [subs own IH] using RichStr_tree_ind.
  cbn [toHTML tree_forall]. unfold getCSSStyle. cbn [sheet].
  assert (Hown : forallb (has_css css) (values own) = sheet_forall (has_css css) own).
  { unfold values, sheet_forall. clear.
    induction own as [|kv own IHown]; [reflexivity|].
    cbn [map forallb]. now rewrite IHown. }
  destruct (getCSS_loop css [] (values own)) as [out|] eqn:Eo.
  - assert (Ho : sheet_forall (has_css css) own = true).
    { rewrite <- Hown. apply (getCSS_loop_returns css (values own) []).
      exists out. exact Eo. }
    rewrite Ho. cbn [andb]. clear Eo Ho Hown.
    induction subs as [|el subs IHsubs]; [split; [reflexivity | intros _; now eexists]|].
    inversion IH as [|? ? Hel Hrest]; subst. specialize (IHsubs Hrest).
    cbn [map all_some forallb]. destruct el as [s|r].
    + cbn [andb]. destruct (all_some _) as [ps|].
      * split; [intros _; apply IHsubs; now eexists | intros _; now eexists].
      * split; [intros [h H]; discriminate|].
        intros H. apply IHsubs in H as [h H]. discriminate.
    + destruct (toHTML css r) as [hr|].
      * rewrite (proj1 Hel) by now eexists. cbn [andb].
        destruct (all_some _) as [ps|].
        -- split; [intros _; apply IHsubs; now eexists | intros _; now eexists].
        -- split; [intros [h H]; discriminate|].
           intros H. apply IHsubs in H as [h H]. discriminate.
      * split; [intros [h H]; discriminate|].
        intros H. apply andb_prop in H as [H _]. apply Hel in H as [h H]. discriminate.
  - split; [intros [h H]; discriminate|].
    intros H. apply andb_prop in H as [H _]. rewrite <- Hown in H.
    apply (getCSS_loop_returns css (values own) []) in H as [out H]. congruence.
Qed.

(** X24.  [toHTML] returns exactly when [toCSSProperty] returns for every
    style of every sheet of the tree.  The texts are put in the result as
    they are, between the tags of the nodes: for texts without a less-than
    sign and CSS properties without a greater-than sign, the result with
    its tags removed is the plain text of the tree.  A node without a style
    gives a span with an empty style. *)
Theorem toHTML_text (css : Style -> option (Storage string)) (T : RichStr) :
  ((exists h, toHTML css T = Some h)
   <-> tree_forall (sheet_forall (has_css css)) (fun _ => true) T = true) /\
  ((forall st d, css st = Some d -> css_free_of ">" d = true) ->
   tree_forall (fun _ => true) (no_char "<") T = true ->
   forall h, toHTML css T = Some h -> strip_tags h = plain T) /\
  (forall s, toHTML css (RichStr_init [Str s])
             = Some ("<span style=''>" ++ s ++ "</span>")%string).
Proof.
  split; [apply toHTML_returns|]. split.
  - intros Hcss HT h Hh. unfold strip_tags.
    rewrite <- (append_empty_r h), (toHTML_strip css Hcss T HT h ""%string Hh).
    apply append_empty_r.
  - intros s. reflexivity.
Qed.

Lemma toHTML_text_witness :
  let css := fun st : Style =>
               if tuple_eqb (codes st) [31]
               then Some [("color"%string, "#770000"%string)] else Some [] in
  let T := mkRichStr [Str "a"; Rich (RichStr_init [Str "b"])]
                     [("Fore"%string, BasicColor_parse "red" 31)] in
  toHTML css T
  = Some "<span style='color:#770000'>a<span style=''>b</span></span>"%string /\
  forall h, toHTML css T = Some h -> strip_tags h = "ab"%string.
Proof.
  intros css T. split; [reflexivity|].
  intros h Hh.
  apply (proj1 (proj2 (toHTML_text css T))); [|reflexivity|exact Hh].
  intros st d. unfold css. destruct (tuple_eqb (codes st) [31]); intros [= <-]; reflexivity.
Defined.
